(** * Block Blast solver: a shallow embedding of [app.js] and its properties

    The development follows the source file: the strategy engine
    ([suggestMoves], [calculateStrategyScore], [getPermutations], [canFit],
    [applyMove]), the colour classifier ([kMeansCluster], [avgPoint]) and
    the geometric part of [processFigureSlot].

    JavaScript numbers that are array indices, offsets, counters or scores
    are integers here ([Z]); arrays are lists.  Reading an array outside
    its index range yields [undefined] ([None]); reading a property of
    [undefined] throws a [TypeError], which the embedding records in the
    [result] type. *)

From Stdlib Require Import ZArith QArith Qround Lia Lqa Permutation Sorted.
From stdpp Require Import base option list.

Local Open Scope Z_scope.

(** ** Outcomes of a JavaScript computation *)

(** [TypeError]: the engine throws (a property of [undefined] is read or
    written).  [SparseWrite]: an assignment [a[i] = v] with [i] outside
    [0 .. a.length-1]; JavaScript then grows the array (or adds a
    non-index property), which leaves the dense arrays modelled here. *)
Inductive exn := TypeError | SparseWrite.

Inductive result (A : Type) :=
| Ok (a : A)
| Raise (e : exn).
Arguments Ok {A} a.
Arguments Raise {A} e.

Definition bind {A B} (m : result A) (k : A -> result B) : result B :=
  match m with
  | Ok a => k a
  | Raise e => Raise e
  end.

Notation "'let*' x ':=' m 'in' k" := (bind m (fun x => k))
  (at level 10, x name, m at level 100, k at level 200, only parsing).
Notation "'let*' ' p ':=' m 'in' k" := (bind m (fun p => k))
  (at level 10, p pattern, m at level 100, k at level 200, only parsing).

(** A loop body run over the elements of an array, threading the state. *)
Fixpoint foldM {A S} (f : S -> A -> result S) (l : list A) (s : S) : result S :=
  match l with
  | [] => Ok s
  | a :: l' => let* s' := f s a in foldM f l' s'
  end.

(** ** Arrays and boards *)

(** [a[i]] for an integer [i]: [None] is [undefined]. *)
Definition idx {A} (a : list A) (i : Z) : option A :=
  if i <? 0 then None else a !! Z.to_nat i.

Abbreviation board := (list (list Z)).

(** [b[i]] used as the object of a further property access. *)
Definition getRow (b : board) (i : Z) : result (list Z) :=
  match idx b i with
  | Some row => Ok row
  | None => Raise TypeError
  end.

(** [v === 1] and [v === 0] on the result of an array read. *)
Definition is1 (v : option Z) : bool :=
  match v with Some 1 => true | _ => false end.
Definition is0 (v : option Z) : bool :=
  match v with Some 0 => true | _ => false end.

(** The data-model invariant: eight rows of eight cells, each 0 or 1. *)
Definition binaryRow (row : list Z) : Prop :=
  length row = 8%nat /\ Forall (fun v => v = 0 \/ v = 1) row.
Definition board8 (b : board) : Prop :=
  length b = 8%nat /\ Forall binaryRow b.

Definition emptyBoard : board := replicate 8 (replicate 8 0).
Definition fullBoard : board := replicate 8 (replicate 8 1).

(** ** Pieces *)

Record offset := Off { dr : Z; dc : Z }.

Definition nonneg (off : offset) : Prop := 0 <= dr off /\ 0 <= dc off.

(** ** [canFit] *)

Fixpoint canFit (b : board) (offsets : list offset) (r c : Z) : result bool :=
  match offsets with
  | [] => Ok true
  | off :: rest =>
      let rr := r + dr off in
      let cc := c + dc off in
      if rr >=? 8 then Ok false
      else if cc >=? 8 then Ok false
      else let* row := getRow b rr in
           if is1 (idx row cc) then Ok false else canFit b rest r c
  end.

(** The legality of a placement in the words of the specification: every
    offset cell is inside the grid and holds 0. *)
Definition cellLegal (b : board) (r c : Z) (off : offset) : Prop :=
  0 <= r + dr off < 8 /\ 0 <= c + dc off < 8 /\
  exists row, idx b (r + dr off) = Some row /\ idx row (c + dc off) = Some 0.

(** ** [applyMove] *)

(** [nb[rr][cc] = v]. *)
Definition setCell (nb : board) (rr cc v : Z) : result board :=
  let* row := getRow nb rr in
  if (0 <=? cc) && (cc <? Z.of_nat (length row))
  then Ok (<[Z.to_nat rr := <[Z.to_nat cc := v]> row]> nb)
  else Raise SparseWrite.

(** [nb[i].every(v => v === 1)]. *)
Definition rowFull (nb : board) (i : Z) : result bool :=
  let* row := getRow nb i in
  Ok (forallb (fun v => v =? 1) row).

(** [for (j ...) if (nb[j][i] === 0) { full = false; break; }], the loop
    running over the indices [js]. *)
Fixpoint colFull (nb : board) (i : Z) (js : list Z) : result bool :=
  match js with
  | [] => Ok true
  | j :: js' =>
      let* row := getRow nb j in
      if is0 (idx row i) then Ok false else colFull nb i js'
  end.

(** [nb[ri].fill(0)]. *)
Definition fillRow (nb : board) (ri : Z) : result board :=
  let* row := getRow nb ri in
  Ok (<[Z.to_nat ri := replicate (length row) 0]> nb).

(** [for (ri = 0; ri < 8; ri++) nb[ri][ci] = 0]. *)
Definition clearCol (nb : board) (ci : Z) : result board :=
  foldM (fun nb' ri => setCell nb' ri ci 0) (seqZ 0 8) nb.

(** The loop that collects the indices of the full rows and columns. *)
Definition fullLines (nb : board) : result (list Z * list Z) :=
  foldM (fun '(rows, cols) i =>
           let* rf := rowFull nb i in
           let rows' := if rf then rows ++ [i] else rows in
           let* cf := colFull nb i (seqZ 0 8) in
           let cols' := if cf then cols ++ [i] else cols in
           Ok (rows', cols'))
        (seqZ 0 8) ([], []).

Record moved := Moved { mv_board : board; mv_cleared : Z }.

Definition applyMove (b : board) (offsets : list offset) (r c : Z) : result moved :=
  let nextB := (fun row => row) <$> b in
  let* nextB1 :=
    foldM (fun nb off => setCell nb (r + dr off) (c + dc off) 1) offsets nextB in
  let* '(rows, cols) := fullLines nextB1 in
  let* nextB2 := foldM fillRow rows nextB1 in
  let* nextB3 := foldM clearCol cols nextB2 in
  Ok (Moved nextB3 (Z.of_nat (length rows) + Z.of_nat (length cols))).

(** *** The placement in the words of the specification *)

(** The 8x8 board whose cell [(i, j)] is [f i j]. *)
Definition tab (f : nat -> nat -> Z) : board :=
  (fun i => f i <$> seq 0 8) <$> seq 0 8.

Definition cellAt (b : board) (i j : nat) : Z :=
  match b !! i with
  | Some row => default 0 (row !! j)
  | None => 0
  end.

(** Does some offset of the piece anchored at [(r, c)] land on [(i, j)]? *)
Definition covers (offsets : list offset) (r c : Z) (i j : nat) : bool :=
  existsb (fun off => (r + dr off =? Z.of_nat i) && (c + dc off =? Z.of_nat j))
          offsets.

(** All piece cells marked occupied. *)
Definition placed (b : board) (offsets : list offset) (r c : Z) : board :=
  tab (fun i j => if covers offsets r c i j then 1 else cellAt b i j).

Definition fullRowAt (p : board) (i : nat) : bool :=
  forallb (fun j => cellAt p i j =? 1) (seq 0 8).
Definition fullColAt (p : board) (j : nat) : bool :=
  forallb (fun i => cellAt p i j =? 1) (seq 0 8).

Definition countb (f : nat -> bool) (l : list nat) : Z :=
  Z.of_nat (length (List.filter f l)).

Definition fullRowCount (p : board) : Z := countb (fullRowAt p) (seq 0 8).
Definition fullColCount (p : board) : Z := countb (fullColAt p) (seq 0 8).

(** Every full row and every full column of [p] reset to empty. *)
Definition clearedBoard (p : board) : board :=
  tab (fun i j => if fullRowAt p i || fullColAt p j then 0 else cellAt p i j).

(** Row 0 and column 0 occupied except for their common cell. *)
Definition crossBoard : board :=
  [0; 1; 1; 1; 1; 1; 1; 1] :: replicate 7 (1 :: replicate 7 0).

(** The invariant as a test. *)
Definition board8b (b : board) : bool :=
  (length b =? 8)%nat &&
  forallb (fun row => (length row =? 8)%nat &&
                      forallb (fun v => (v =? 0) || (v =? 1)) row) b.

(** ** [calculateStrategyScore] *)

(** [for (cc ...) if (board[r + rr][c + cc] === 1) { empty = false; break; }]:
    the result is the value of [empty] after the loop. *)
Fixpoint windowRow (b : board) (r c rr : Z) (ccs : list Z) : result bool :=
  match ccs with
  | [] => Ok true
  | cc :: ccs' =>
      let* row := getRow b (r + rr) in
      if is1 (idx row (c + cc)) then Ok false else windowRow b r c rr ccs'
  end.

(** [for (rr = 0; rr < 3 && empty; rr++) ...]. *)
Fixpoint windowEmpty (b : board) (r c : Z) (rrs : list Z) : result bool :=
  match rrs with
  | [] => Ok true
  | rr :: rrs' =>
      let* empty := windowRow b r c rr (seqZ 0 3) in
      if empty then windowEmpty b r c rrs' else Ok false
  end.

Definition windowBonus (b : board) (score : Z) : result Z :=
  foldM (fun score r =>
           foldM (fun score c =>
                    let* empty := windowEmpty b r c (seqZ 0 3) in
                    Ok (if empty then score + 50 else score))
                 (seqZ 0 6) score)
        (seqZ 0 6) score.

Record streak := Streak { hMax : Z; hCur : Z; vMax : Z; vCur : Z }.

(** The body of the inner streak loop, for row and column [i] at step [j]. *)
Definition streakStep (b : board) (i : Z) (st : streak) (j : Z) : result streak :=
  let* ri := getRow b i in
  let st1 :=
    if is0 (idx ri j)
    then Streak (hMax st) (hCur st + 1) (vMax st) (vCur st)
    else Streak (Z.max (hMax st) (hCur st)) 0 (vMax st) (vCur st) in
  let* rj := getRow b j in
  Ok (if is0 (idx rj i)
      then Streak (hMax st1) (hCur st1) (vMax st1) (vCur st1 + 1)
      else Streak (hMax st1) (hCur st1) (Z.max (vMax st1) (vCur st1)) 0).

Definition streakBonus (b : board) (score : Z) : result Z :=
  foldM (fun score i =>
           let* st := foldM (streakStep b i) (seqZ 0 8) (Streak 0 0 0 0) in
           let score1 :=
             if Z.max (hMax st) (hCur st) >=? 5 then score + 30 else score in
           Ok (if Z.max (vMax st) (vCur st) >=? 5 then score1 + 30 else score1))
        (seqZ 0 8) score.

Definition calculateStrategyScore (b : board) (totalCleared : Z) : result Z :=
  let score := 5000 + totalCleared * 200 in
  let* score1 := windowBonus b score in
  let* score2 := streakBonus b score1 in
  Ok (score2 + (64 - foldl Z.add 0 (concat b))).

(** *** The score in the words of the specification *)

Definition countZ {A} (p : A -> bool) (l : list A) : Z :=
  Z.of_nat (length (List.filter p l)).

Definition cellZ (b : board) (r c : Z) : Z :=
  cellAt b (Z.to_nat r) (Z.to_nat c).

(** The 3x3 window with top-left corner [(r, c)] holds no occupied cell. *)
Definition windowClear (b : board) (rc : Z * Z) : bool :=
  forallb (fun rr => forallb (fun cc => cellZ b (fst rc + rr) (snd rc + cc) =? 0)
                             (seqZ 0 3))
          (seqZ 0 3).

(** The 36 top-left anchors. *)
Definition windowAnchors : list (Z * Z) := list_prod (seqZ 0 6) (seqZ 0 6).

Definition emptyWindows (b : board) : Z := countZ (windowClear b) windowAnchors.

(** [k] consecutive cells starting at index [s], all inside the line and
    all empty. *)
Definition emptyRun (cells : list Z) (s k : nat) : bool :=
  forallb (fun j => is0 (cells !! j)) (seq s k).

(** The longest contiguous run of empty cells of a line: the largest [k]
    for which some start [s] gives an empty run of length [k]. *)
Definition longestRun (cells : list Z) : Z :=
  let n := S (length cells) in
  Z.of_nat (list_max (List.map (fun sk => if emptyRun cells (fst sk) (snd sk)
                                          then snd sk else 0%nat)
                               (list_prod (seq 0 n) (seq 0 n)))).

Definition rowCells (b : board) (i : Z) : list Z :=
  (fun j => cellZ b i j) <$> seqZ 0 8.
Definition colCells (b : board) (j : Z) : list Z :=
  (fun i => cellZ b i j) <$> seqZ 0 8.

Definition streakRows (b : board) : Z :=
  countZ (fun i => 5 <=? longestRun (rowCells b i)) (seqZ 0 8).
Definition streakCols (b : board) : Z :=
  countZ (fun j => 5 <=? longestRun (colCells b j)) (seqZ 0 8).

Definition boardCells : list (Z * Z) := list_prod (seqZ 0 8) (seqZ 0 8).

Definition occupiedCells (b : board) : Z :=
  countZ (fun rc => cellZ b (fst rc) (snd rc) =? 1) boardCells.

Definition scoreSpec (b : board) (totalCleared : Z) : Z :=
  5000 + 200 * totalCleared + 50 * emptyWindows b
  + 30 * streakRows b + 30 * streakCols b + (64 - occupiedCells b).

(** ** [getPermutations] *)

(** The recursion of [getPermutations] shortens the array by one element
    at each level; [fuel] bounds the depth and [getPermutations] supplies
    the length of the array, which is always enough. *)
Fixpoint permsFuel {A} (fuel : nat) (arr : list A) : list (list A) :=
  if (length arr <=? 1)%nat then [arr]
  else
    match fuel with
    | O => []
    | S fuel' =>
        concat ((fun i =>
                   match arr !! i with
                   | Some x => cons x <$> permsFuel fuel' (take i arr ++ drop (S i) arr)
                   | None => []
                   end) <$> seq 0 (length arr))
    end.

Definition getPermutations {A} (arr : list A) : list (list A) :=
  permsFuel (length arr) arr.

(** ** [suggestMoves] *)

(** A figure pattern as delivered by [detectFigures]. *)
Abbreviation pattern := (list (list Z)).

(** The offsets pushed for one pattern: the cells with [p[r][c] === 1], in
    row-major order. *)
Definition rowOffsets (r : nat) (row : list Z) : list offset :=
  omap id (imap (fun c v => if v =? 1
                            then Some (Off (Z.of_nat r) (Z.of_nat c))
                            else None) row).

Definition pieceOffsets (p : pattern) : list offset :=
  concat (imap rowOffsets p).

Definition validPiecesOf (pieces : list pattern) : list (list offset) :=
  List.filter (fun p => (0 <? length p)%nat) (pieceOffsets <$> pieces).

Record step := Step {
  pieceIdx : nat;
  row : Z;
  col : Z;
  cleared : Z;
  boardBefore : board;
  offsets : list offset
}.

(** The variables the search closes over: [bestScore] ([None] is
    [-Infinity]), [bestSequence] ([None] is [null]) and the array
    [currentPath], which [solve] pushes to and pops from. *)
Record search := Search {
  bestScore : option Z;
  bestSequence : option (list step);
  currentPath : list step
}.

(** [score > bestScore]. *)
Definition beats (score : Z) (best : option Z) : bool :=
  match best with
  | None => true
  | Some s => s <? score
  end.

Fixpoint solve (validPieces : list (list offset)) (pieceIndices : list nat)
    (currentBoard : board) (totalCleared : Z) (st : search) : result search :=
  match pieceIndices with
  | [] =>
      let* score := calculateStrategyScore currentBoard totalCleared in
      Ok (if beats score (bestScore st)
          then Search (Some score) (Some (currentPath st)) (currentPath st)
          else st)
  | pIdx :: rest =>
      match validPieces !! pIdx with
      | None => Raise TypeError
      | Some pOffsets =>
          foldM (fun st r =>
            foldM (fun st c =>
              let* fit := canFit currentBoard pOffsets r c in
              if fit then
                let boardBefore := (fun row => row) <$> currentBoard in
                let* mv := applyMove currentBoard pOffsets r c in
                let pushed :=
                  Search (bestScore st) (bestSequence st)
                         (currentPath st ++
                          [Step pIdx r c (mv_cleared mv) boardBefore pOffsets]) in
                let* st' := solve validPieces rest (mv_board mv)
                                  (totalCleared + mv_cleared mv) pushed in
                Ok (Search (bestScore st') (bestSequence st')
                           (removelast (currentPath st')))
              else Ok st)
            (seqZ 0 8) st)
          (seqZ 0 8) st
      end
  end.

(** The search over all orderings; each ordering starts from a fresh
    empty path. *)
Definition runSearch (b : board) (validPieces : list (list offset))
  : result search :=
  foldM (fun st pOrder =>
           solve validPieces pOrder b 0
                 (Search (bestScore st) (bestSequence st) []))
        (getPermutations (seq 0 (length validPieces)))
        (Search None None []).

(** The part of the page that [renderSuggestions] writes. *)
Inductive listView :=
| Blank
| StepItems (items : list step)
| NoSolutionFound.

Record page := Page { panelHidden : bool; suggestionsList : listView }.

(** The page after [resetAppUI]. *)
Definition resetPage : page := Page true Blank.

Definition renderSuggestions (sequence : option (list step)) (piecesCount : nat)
    (ui : page) : page :=
  match sequence with
  | Some steps =>
      if (length steps =? piecesCount)%nat
      then Page false (StepItems steps)
      else Page false NoSolutionFound
  | None => Page false NoSolutionFound
  end.

Definition suggestMoves (b : board) (pieces : list pattern) (ui : page)
  : result page :=
  let validPieces := validPiecesOf pieces in
  if (length validPieces =? 0)%nat then Ok ui
  else
    let* st := runSearch b validPieces in
    Ok (renderSuggestions (bestSequence st) (length validPieces) ui).

(** *** Normal form of a piece *)

Definition minimum (l : list Z) : option Z :=
  match l with
  | [] => None
  | x :: l' => Some (foldl Z.min x l')
  end.

Definition minRowOffset (offs : list offset) : option Z := minimum (dr <$> offs).
Definition minColOffset (offs : list offset) : option Z := minimum (dc <$> offs).

(** The smallest row offset and the smallest column offset are both 0. *)
Definition normalized (offs : list offset) : Prop :=
  minRowOffset offs = Some 0 /\ minColOffset offs = Some 0.

(** [p[r][c] === 1] for in-range indices. *)
Definition occupiedAt (p : pattern) (r c : nat) : Prop :=
  exists row, p !! r = Some row /\ row !! c = Some 1.

(** *** Complete legal placement sequences *)

Definition inGrid (r c : Z) : bool :=
  (0 <=? r) && (r <? 8) && (0 <=? c) && (c <? 8).

(** Placing the pieces [order] one after the other at the anchors
    [anchors]: each anchor is a board position at which [canFit] holds,
    and the board and the cleared-line total are carried on with
    [applyMove].  The result is the final board and the cumulative
    count, or [None] when some placement is not legal. *)
Fixpoint replay (validPieces : list (list offset)) (order : list nat)
    (anchors : list (Z * Z)) (b : board) (total : Z) : option (board * Z) :=
  match order, anchors with
  | [], [] => Some (b, total)
  | pIdx :: order', (r, c) :: anchors' =>
      match validPieces !! pIdx with
      | Some offs =>
          if inGrid r c then
            match canFit b offs r c with
            | Ok true =>
                match applyMove b offs r c with
                | Ok mv => replay validPieces order' anchors' (mv_board mv)
                                  (total + mv_cleared mv)
                | Raise _ => None
                end
            | _ => None
            end
          else None
      | None => None
      end
  | _, _ => None
  end.

(** [a] is at most [b], with [None] standing for [-Infinity]. *)
Definition le_best (a b : option Z) : Prop :=
  match a, b with
  | None, _ => True
  | Some x, Some y => x <= y
  | Some _, None => False
  end.

(** ** [kMeansCluster] and [avgPoint] *)

(** The colour samples are JavaScript doubles.  The classifier is embedded
    over an interface of the operations it applies to them, so that what is
    proved holds for every implementation of the arithmetic, IEEE doubles
    included: [nsub], [nadd] and [ndiv] are [-], [+] and [/ count]; [hypot]
    is [Math.hypot], whose results are only ever compared, with [dlt] for
    [<]; [nneg] is the sign test that [sort] applies to the comparator's
    result. *)
Class Arith (num dist : Type) := {
  nzero : num;
  nadd : num -> num -> num;
  nsub : num -> num -> num;
  ndiv : num -> nat -> num;
  hypot : num -> num -> num -> dist;
  dlt : dist -> dist -> bool;
  nneg : num -> bool
}.

Section Classifier.
Context {num dist : Type} `{Arith num dist}.

Record point := Point { pr : num; pg : num; pb : num }.

(** One entry of [cellsData]. *)
Record cell := Cell {
  cellRow : Z;
  cellCol : Z;
  color : point;
  brightness : num
}.

(** [{ ...c, groupId }]; [None] is [undefined]. *)
Record classified := Classified { sample : cell; groupId : option Z }.

(** [[...cells].sort((a, b) => a.brightness - b.brightness)]: the sort
    is stable, so it is the insertion sort that puts a cell in front of
    the first cell that does not compare strictly before it. *)
Fixpoint insertCell (x : cell) (l : list cell) : list cell :=
  match l with
  | [] => [x]
  | y :: l' =>
      if nneg (nsub (brightness y) (brightness x))
      then y :: insertCell x l'
      else x :: l
  end.

Definition sortCells (cells : list cell) : list cell :=
  foldr insertCell [] cells.

(** [cA] and [cB]: the colours of [sorted[0]] and of
    [sorted[sorted.length - 1]]; reading [.color] of [undefined] throws. *)
Definition seeds (cells : list cell) : result (point * point) :=
  let sorted := sortCells cells in
  match head sorted, last sorted with
  | Some a, Some b => Ok (color a, color b)
  | _, _ => Raise TypeError
  end.

Definition distance (p c : point) : dist :=
  hypot (nsub (pr p) (pr c)) (nsub (pg p) (pg c)) (nsub (pb p) (pb c)).

(** [dA < dB ? 0 : 1]. *)
Definition nextLabel (cA cB p : point) : Z :=
  if dlt (distance p cA) (distance p cB) then 0 else 1.

(** The body of the assignment loop at index [j]; the state is [assign]
    and [changed]. *)
Definition assignStep (points : list point) (cA cB : point)
    (st : list Z * bool) (j : nat) : list Z * bool :=
  match points !! j with
  | Some p =>
      let next := nextLabel cA cB p in
      if decide (fst st !! j = Some next) then st
      else (<[j := next]> (fst st), true)
  | None => st
  end.

Definition assignRound (points : list point) (cA cB : point)
    (assign : list Z) : list Z * bool :=
  foldl (assignStep points cA cB) (assign, false) (seq 0 (length points)).

Definition padd (s p : point) : point :=
  Point (nadd (pr s) (pr p)) (nadd (pg s) (pg p)) (nadd (pb s) (pb p)).

Definition avgPoint (pts : list point) (assign : list Z) (group : Z) : point :=
  let acc :=
    foldl (fun acc ip =>
             if decide (assign !! fst ip = Some group)
             then (padd (fst acc) (snd ip), S (snd acc))
             else acc)
          (Point nzero nzero nzero, O) (imap pair pts) in
  if (snd acc =? 0)%nat then Point nzero nzero nzero
  else Point (ndiv (pr (fst acc)) (snd acc)) (ndiv (pg (fst acc)) (snd acc))
             (ndiv (pb (fst acc)) (snd acc)).

(** The loop [for (i = 0; i < 10; i++)] with its [break]. *)
Fixpoint rounds (iters : nat) (points : list point) (cA cB : point)
    (assign : list Z) : list Z :=
  match iters with
  | O => assign
  | S iters' =>
      let (assign', changed) := assignRound points cA cB assign in
      if changed
      then rounds iters' points (avgPoint points assign' 0)
                  (avgPoint points assign' 1) assign'
      else assign'
  end.

Definition kMeansCluster (cells : list cell) : result (list classified) :=
  let points := color <$> cells in
  let* cAB := seeds cells in
  let assign := replicate (length cells) 0 in
  let assign' := rounds 10 points (fst cAB) (snd cAB) assign in
  Ok (imap (fun i c => Classified c (assign' !! i)) cells).

(** The labels of a run: [groupId] of every classified cell. *)
Definition labels (cells : list cell) : result (list (option Z)) :=
  let* out := kMeansCluster cells in Ok (groupId <$> out).

(** What the classifier reads of a cell. *)
Definition sampleOf (c : cell) : point * num := (color c, brightness c).

(** [x] may stand before [y] in brightness order: [y] does not compare
    strictly before [x]. *)
Definition notAfter (x y : cell) : Prop :=
  nneg (nsub (brightness y) (brightness x)) = false.
End Classifier.

Arguments point : clear implicits.
Arguments cell : clear implicits.
Arguments classified : clear implicits.

(** *** Exact arithmetic *)

(** Rational numbers in lowest terms, so that equal numbers are equal
    terms.  A distance is represented by its square, which orders
    distances as their values do. *)
#[export] Instance exactArith : Arith Q Q := {|
  nzero := 0%Q;
  nadd x y := Qred (x + y);
  nsub x y := Qred (x - y);
  ndiv x n := Qred (x / inject_Z (Z.of_nat n));
  hypot x y z := Qred (x * x + y * y + z * z);
  dlt x y := negb (Qle_bool y x);
  nneg x := negb (Qle_bool 0 x)
|}.

(** The sample [analyzeGrid] builds for the cell at [(r, c)] from the mean
    colour of its region. *)
Definition gridCell (r c : Z) (red green blue : Q) : cell Q :=
  Cell r c (Point red green blue)
       (Qred ((red * inject_Z 299 + green * inject_Z 587 + blue * inject_Z 114)
              / inject_Z 1000)).

(** A grey board in row-major order, one grey level per cell. *)
Definition greyCells (levels : list Z) : list (cell Q) :=
  imap (fun i v => gridCell (Z.of_nat i / 8) (Z.of_nat i mod 8)
                            (inject_Z v) (inject_Z v) (inject_Z v)) levels.

(** 59 cells of level 0, four of level 10 and one of level 5, which is as
    far from level 0 as from level 10. *)
Definition tieLevels : list Z := replicate 59 0 ++ replicate 4 10 ++ [5].
Definition tieCells : list (cell Q) := greyCells tieLevels.

(** ** [processFigureSlot]: the geometry of a slot *)

(** A contour as [processFigureSlot] reads it: [cv.boundingRect] and
    [cv.contourArea].  Pixel coordinates are integers; areas and the unit
    size are rational, and division and rounding are exact. *)
Record blob := Blob {
  bx : Z;
  by_ : Z;
  bwidth : Z;
  bheight : Z;
  barea : Q
}.

(** [x > y] on numbers. *)
Definition Qgtb (x y : Q) : bool := negb (Qle_bool x y).

(** [Math.round]: the nearest integer, halves upwards. *)
Definition jsRound (x : Q) : Z := Qfloor (x + (1 # 2)).

Record box := Box {
  minX : Z; minY : Z; maxX : Z; maxY : Z;
  foundAny : bool
}.

(** Step 1, the collective bounding box of the contours of area above 40. *)
Definition unionStep (bb : box) (c : blob) : box :=
  if Qgtb (barea c) (inject_Z 40)
  then Box (Z.min (minX bb) (bx c)) (Z.min (minY bb) (by_ c))
           (Z.max (maxX bb) (bx c + bwidth c))
           (Z.max (maxY bb) (by_ c + bheight c)) true
  else bb.

Definition unionBox (contours : list blob) (w h : Z) : box :=
  foldl unionStep (Box w h 0 0 false) contours.

(** Step 2: [dims], with the lower gate of 20. *)
Definition dimsOf (contours : list blob) : list Z :=
  concat ((fun c => if Qgtb (barea c) (inject_Z 20)
                    then [bwidth c; bheight c] else []) <$> contours).

(** [dims.sort((a, b) => a - b)]. *)
Fixpoint insertZ (x : Z) (l : list Z) : list Z :=
  match l with
  | [] => [x]
  | y :: l' => if y <? x then y :: insertZ x l' else x :: l
  end.

Definition sortZ (l : list Z) : list Z := foldr insertZ [] l.

Definition candidatesOf (contours : list blob) : list Z :=
  List.filter (fun d => 12 <? d) (sortZ (dimsOf contours)).

Definition baseUnitOf (contours : list blob) : Q :=
  match candidatesOf contours with
  | [] => inject_Z 50
  | smallest :: _ =>
      if 80 <? smallest
      then inject_Z smallest
           / inject_Z (Z.max 1 (jsRound (inject_Z smallest / inject_Z 50)))
      else inject_Z smallest
  end.

(** Step 3: [Math.max(1, Math.min(5, Math.round(fig / baseUnit)))]. *)
Definition gridDim (fig : Z) (baseUnit : Q) : Z :=
  Z.max 1 (Z.min 5 (jsRound (inject_Z fig / baseUnit))).

(** The record [processFigureSlot] returns, without the sampled
    [pattern]: filling the pattern reads the thresholded bitmap through
    OpenCV, which is outside this embedding. *)
Record slot := Slot {
  rows : Z;
  cols : Z;
  cellSize : Q;
  originX : Z;
  originY : Z
}.

Definition processFigureSlot (contours : list blob) (slotX yStart w h : Z) : slot :=
  let bb := unionBox contours w h in
  if foundAny bb then
    let figW := maxX bb - minX bb in
    let figH := maxY bb - minY bb in
    let baseUnit := baseUnitOf contours in
    let finalCols := gridDim figW baseUnit in
    let finalRows := gridDim figH baseUnit in
    Slot finalRows finalCols
         ((inject_Z figW / inject_Z finalCols + inject_Z figH / inject_Z finalRows)
          / inject_Z 2)
         (slotX + minX bb) (yStart + minY bb)
  else
    Slot 1 1 (inject_Z 50)
         (slotX + Qfloor ((inject_Z w - inject_Z 50) / inject_Z 2))
         (yStart + Qfloor ((inject_Z h - inject_Z 50) / inject_Z 2)).

(** The footprint of a slot: width and height of the collective box. *)
Definition figW (contours : list blob) (w h : Z) : Z :=
  maxX (unionBox contours w h) - minX (unionBox contours w h).
Definition figH (contours : list blob) (w h : Z) : Z :=
  maxY (unionBox contours w h) - minY (unionBox contours w h).

(** [x] clamped to [1 .. 5]. *)
Definition clamp15 (x : Z) : Z := Z.max 1 (Z.min 5 x).

(** ** Auxiliary definitions used in the proofs *)

Definition binaryTab (f : nat -> nat -> Z) : Prop :=
  forall i j, (i < 8)%nat -> (j < 8)%nat -> f i j = 0 \/ f i j = 1.

Definition fitsb (f : nat -> nat -> Z) (r c : Z) (off : offset) : bool :=
  (r + dr off <? 8) && (c + dc off <? 8) &&
  negb (f (Z.to_nat (r + dr off)) (Z.to_nat (c + dc off)) =? 1).

(** Writing one cell of a table. *)
Definition upd (f : nat -> nat -> Z) (i j : nat) (v : Z) : nat -> nat -> Z :=
  fun i' j' => if (i' =? i)%nat && (j' =? j)%nat then v else f i' j'.

Definition onBoard (r c : Z) (off : offset) : Prop :=
  0 <= r + dr off < 8 /\ 0 <= c + dc off < 8.

(** Full rows and columns of a table. *)
Definition rowFullF (f : nat -> nat -> Z) (i : nat) : bool :=
  forallb (fun j => f i j =? 1) (seq 0 8).
Definition colFullF (f : nat -> nat -> Z) (j : nat) : bool :=
  forallb (fun i => f i j =? 1) (seq 0 8).

(** Membership of a row or column index in a list of cleared lines. *)
Definition inb (l : list Z) (k : nat) : bool :=
  existsb (fun z => z =? Z.of_nat k) l.

Definition placedF (f : nat -> nat -> Z) (offs : list offset) (r c : Z)
  : nat -> nat -> Z :=
  fun i j => if covers offs r c i j then 1 else f i j.

Definition clearedF (p : nat -> nat -> Z) : nat -> nat -> Z :=
  fun i j => if rowFullF p i || colFullF p j then 0 else p i j.

Definition sumZ (l : list Z) : Z := foldr Z.add 0 l.

(** One line scanned on its own: the running maximum and the current run. *)
Definition scanStep (st : Z * Z) (v : Z) : Z * Z :=
  if v =? 0 then (fst st, snd st + 1) else (Z.max (fst st) (snd st), 0).

Definition scan (cells : list Z) (st : Z * Z) : Z * Z := foldl scanStep st cells.

Definition scanRun (cells : list Z) : Z :=
  Z.max (fst (scan cells (0, 0))) (snd (scan cells (0, 0))).

(** All lines of [n] binary cells. *)
Fixpoint binaryLines (n : nat) : list (list Z) :=
  match n with
  | O => [[]]
  | S n' => (cons 0 <$> binaryLines n') ++ (cons 1 <$> binaryLines n')
  end.

(** The best score does not go down. *)
Definition scoreUp (st st' : search) : Prop :=
  le_best (bestScore st) (bestScore st').

(** What a call of [solve] does to the state: the best score does not go
    down, and [currentPath] is back to what it was (every [push] is
    matched by a [pop]). *)
Definition improves (st st' : search) : Prop :=
  scoreUp st st' /\ currentPath st' = currentPath st.

(** Every complete sequence that starts from [b] with [total] lines
    cleared scores at most the best score of [st]. *)
Definition covered (vp : list (list offset)) (order : list nat)
    (b : board) (total : Z) (st : search) : Prop :=
  forall anchors bf tc sc,
    replay vp order anchors b total = Some (bf, tc) ->
    calculateStrategyScore bf tc = Ok sc ->
    le_best (Some sc) (bestScore st).

(** *** Sequences of placement steps *)

(** The steps, read as [PlacementStep] records, describe a legal play from
    the board [b] with [t] lines cleared so far to the board [bf] with
    [tc] lines cleared: every step names a valid piece and carries its
    offsets, its [boardBefore] is the board it is played on, its anchor
    lies in the grid and passes [canFit], and its [cleared] is what
    [applyMove] reports. *)
Inductive legalSteps (vp : list (list offset))
  : board -> Z -> list step -> board -> Z -> Prop :=
| legal_nil b t : legalSteps vp b t [] b t
| legal_cons b t s steps mv bf tc :
    vp !! pieceIdx s = Some (offsets s) ->
    boardBefore s = b ->
    inGrid (row s) (col s) = true ->
    canFit b (offsets s) (row s) (col s) = Ok true ->
    applyMove b (offsets s) (row s) (col s) = Ok mv ->
    cleared s = mv_cleared mv ->
    legalSteps vp (mv_board mv) (t + mv_cleared mv) steps bf tc ->
    legalSteps vp b t (s :: steps) bf tc.

Definition anchorOf (s : step) : Z * Z := (row s, col s).

(** What the search has found so far is either nothing, or a complete
    legal play from [b0] whose score is the best score. *)
Definition soundBest (vp : list (list offset)) (b0 : board) (st : search) : Prop :=
  (bestScore st = None /\ bestSequence st = None) \/
  exists steps bf tc sc,
    bestSequence st = Some steps /\ bestScore st = Some sc /\
    legalSteps vp b0 0 steps bf tc /\
    calculateStrategyScore bf tc = Ok sc /\
    pieceIdx <$> steps ≡ₚ seq 0 (length vp).

(** *** The mini grid of a suggestion *)

Inductive sugClass := NewPiece | Existing | EmptyCell.

(** The class [renderSuggestions] gives the mini-grid cell [(r, c)] of a
    step; reading a cell of a missing row of [boardBefore] throws. *)
Definition sugCell (s : step) (r c : Z) : result sugClass :=
  if existsb (fun off => (row s + dr off =? r) && (col s + dc off =? c)) (offsets s)
  then Ok NewPiece
  else
    let* line := getRow (boardBefore s) r in
    Ok (match idx line c with
        | Some v => if v =? 0 then EmptyCell else Existing
        | None => EmptyCell
        end).

(** The best sequence for [crossBoard] with the pieces [[1]] and [[1, 1]]. *)
Definition crossPieces : list pattern := [[[1]]; [[1; 1]]].
Definition crossSteps : list step :=
  [Step 0 0 0 2 crossBoard [Off 0 0];
   Step 1 0 0 0 emptyBoard [Off 0 0; Off 0 1]].

(** A score result moved by [k], an exception left as it is. *)
Definition shiftR (k : Z) (r : result Z) : result Z :=
  match r with
  | Ok s => Ok (s + k)
  | Raise e => Raise e
  end.

(** ** [analyzeGrid] *)

Section Grid.
Context {num dist : Type} `{Arith num dist}.

(** [luma r g b] is [(r * 299 + g * 587 + b * 114) / 1000] computed on the
    samples; [mean r c] is [cv.mean] of the sampled region of the cell at
    row [r] and column [c]. *)
Variable luma : num -> num -> num -> num.
Variable mean : Z -> Z -> point num.

(** [cellsData], pushed row by row. *)
Definition cellsData : list (cell num) :=
  (fun rc => Cell (fst rc) (snd rc) (mean (fst rc) (snd rc))
                  (luma (pr (mean (fst rc) (snd rc))) (pg (mean (fst rc) (snd rc)))
                        (pb (mean (fst rc) (snd rc)))))
  <$> boardCells.

(** [if (c.groupId === 1) pattern[c.row][c.col] = 1]. *)
Definition markCell (pat : board) (c : classified num) : result board :=
  if is1 (groupId c) then setCell pat (cellRow (sample c)) (cellCol (sample c)) 1
  else Ok pat.

(** Does a classified cell with label 1 sit at [(i, j)]? *)
Definition marked (out : list (classified num)) (i j : nat) : bool :=
  existsb (fun o => is1 (groupId o) &&
                    (cellRow (sample o) =? Z.of_nat i) &&
                    (cellCol (sample o) =? Z.of_nat j)) out.

(** [analyzeGrid] without the drawing of [renderBoardGrid]: the pattern
    starts as eight rows of eight zeros. *)
Definition analyzeGrid : result board :=
  let* classifiedCells := kMeansCluster cellsData in
  foldM markCell classifiedCells emptyBoard.
End Grid.

(** ** [findBoardContour] *)

(** A contour as [findBoardContour] reads it: [cv.contourArea] and the
    number of vertices ([approx.rows]) that [cv.approxPolyDP] leaves. *)
Record outline := Outline { oArea : Q; oVertices : Z }.

(** The loop body; the state is [maxArea] and [bestContour] ([None] is
    [null]). *)
Definition boardStep (st : Q * option outline) (c : outline)
  : Q * option outline :=
  if Qgtb (inject_Z 1000) (oArea c) then st
  else if (oVertices c =? 4) && Qgtb (oArea c) (fst st) then (oArea c, Some c)
  else st.

Definition findBoardContour (contours : list outline) : option outline :=
  snd (foldl boardStep (inject_Z 0, None) contours).

(** A contour that can be the board: area at least 1000 and four vertices. *)
Definition boardLike (c : outline) : Prop :=
  (inject_Z 1000 <= oArea c)%Q /\ oVertices c = 4.

(** ** [warpPerspective]: the order of the corners *)

Record pt := Pt { ptx : Z; pty : Z }.

(** [l.sort((a, b) => key(a) - key(b))], a stable sort. *)
Fixpoint insertBy (key : pt -> Z) (x : pt) (l : list pt) : list pt :=
  match l with
  | [] => [x]
  | y :: l' => if key y <? key x then y :: insertBy key x l' else x :: l
  end.

Definition sortBy (key : pt -> Z) (l : list pt) : list pt :=
  foldr (insertBy key) [] l.

(** [orderedPts] for the four vertices of the board contour; an entry is
    [None] where the source would read past the end of [top] or
    [bottom]. *)
Definition orderedPts (p0 p1 p2 p3 : pt) : list (option pt) :=
  let pts := sortBy pty [p0; p1; p2; p3] in
  let top := sortBy ptx (take 2 pts) in
  let bottom := sortBy ptx (take 2 (drop 2 pts)) in
  [top !! 0%nat; top !! 1%nat; bottom !! 1%nat; bottom !! 0%nat].

(** ** [detectFigures]: the band below the board and its three slots *)

(** [yStart] and [yEnd] of the band, or [None] where [detectFigures]
    returns [[]].  [srcRows] is the height of the image, [boardY] and
    [boardH] the top and height of the board rectangle. *)
Definition figureBand (srcRows boardY boardH : Z) : option (Z * Z) :=
  let yStart := boardY + boardH + 10 in
  let yEnd := srcRows - Qfloor (inject_Z srcRows * (15 # 100)) in
  if yStart >=? yEnd then
    if srcRows - yStart >? 40 then Some (yStart, srcRows - 5) else None
  else Some (yStart, yEnd).

(** [slotX] and [w] of the three slots of a band [width] pixels wide. *)
Definition figureSlots (width : Z) : list (Z * Z) :=
  (fun i => let slotX := i * (width / 3) in
            (slotX, if i =? 2 then width - slotX else width / 3))
  <$> seqZ 0 3.

(** [detectFigures] up to the list [results]; [slotContours slotX w]
    stands for the contours OpenCV finds in the slot that starts at
    [slotX] and is [w] pixels wide. *)
Definition detectFigures (srcRows srcCols boardY boardH : Z)
    (slotContours : Z -> Z -> list blob) : list slot :=
  match figureBand srcRows boardY boardH with
  | None => []
  | Some (yStart, yEnd) =>
      (fun sw => processFigureSlot (slotContours (fst sw) (snd sw)) (fst sw)
                                   yStart (snd sw) (yEnd - yStart))
      <$> figureSlots srcCols
  end.

(** What the loop of [findBoardContour] holds after the contours [l]. *)
Definition boardInv (l : list outline) (st : Q * option outline) : Prop :=
  match snd st with
  | None => fst st = inject_Z 0 /\ forall c, c ∈ l -> ~ boardLike c
  | Some b =>
      b ∈ l /\ boardLike b /\ fst st = oArea b /\
      forall c, c ∈ l -> boardLike c -> (oArea c <= oArea b)%Q
  end.

(** Row-major order on offsets: by row, then by column. *)
Definition offLt (a b : offset) : Prop :=
  dr a < dr b \/ (dr a = dr b /\ dc a < dc b).

(** * Properties *)

(** ** Boards as tables *)

Lemma board8b_sound b : board8b b = true -> board8 b.
Proof.
  unfold board8b, board8, binaryRow. rewrite andb_true_iff, Nat.eqb_eq.
  intros [Hl Hrows]. split; [done|].
  rewrite forallb_forall in Hrows. rewrite Forall_forall. intros row Hin.
  apply list_elem_of_In, Hrows in Hin.
  rewrite andb_true_iff, Nat.eqb_eq, forallb_forall in Hin.
  destruct Hin as [Hlr Hcells]. split; [done|].
  rewrite Forall_forall. intros v Hv. apply list_elem_of_In, Hcells in Hv.
  rewrite orb_true_iff, !Z.eqb_eq in Hv. done.
Qed.

Lemma seq8_lookup i : (i < 8)%nat -> seq 0 8 !! i = Some i.
Proof. intros H. rewrite lookup_seq_lt by lia. reflexivity. Qed.

Lemma seq8_lookup_inv i x : seq 0 8 !! i = Some x -> x = i /\ (i < 8)%nat.
Proof. intros H. apply lookup_seq in H. lia. Qed.

Lemma tab_row f i :
  (i < 8)%nat -> tab f !! i = Some (f i <$> seq 0 8).
Proof.
  intros H. unfold tab. rewrite list_lookup_fmap, seq8_lookup by done.
  reflexivity.
Qed.

Lemma row_cell {A} (g : nat -> A) j :
  (j < 8)%nat -> (g <$> seq 0 8) !! j = Some (g j).
Proof.
  intros H. rewrite list_lookup_fmap, seq8_lookup by done. reflexivity.
Qed.

Lemma tab_cell f i j :
  (i < 8)%nat -> (j < 8)%nat -> cellAt (tab f) i j = f i j.
Proof.
  intros Hi Hj. unfold cellAt. rewrite tab_row by done.
  rewrite row_cell by done. reflexivity.
Qed.

Lemma row_ext {A} (g h : nat -> A) :
  (forall j, (j < 8)%nat -> g j = h j) -> g <$> seq 0 8 = h <$> seq 0 8.
Proof.
  intros H. apply list_fmap_ext. intros k j Hj.
  apply seq8_lookup_inv in Hj as [-> Hj]. by apply H.
Qed.

Lemma tab_ext f g :
  (forall i j, (i < 8)%nat -> (j < 8)%nat -> f i j = g i j) -> tab f = tab g.
Proof.
  intros H. unfold tab. apply row_ext. intros i Hi.
  apply row_ext. intros j Hj. by apply H.
Qed.

Lemma list8_fmap {A} (l : list A) (d : A) :
  length l = 8%nat -> l = (fun i => default d (l !! i)) <$> seq 0 8.
Proof.
  intros H. apply list_eq. intros i.
  rewrite list_lookup_fmap.
  destruct (decide (i < 8)%nat) as [Hi|Hi].
  - rewrite seq8_lookup by done. simpl.
    destruct (lookup_lt_is_Some_2 l i) as [x Hx]; [lia|]. rewrite Hx. done.
  - rewrite (lookup_ge_None_2 l) by lia.
    rewrite (lookup_ge_None_2 (seq 0 8)) by (rewrite length_seq; lia). done.
Qed.

Lemma board8_row b i :
  board8 b -> (i < 8)%nat -> exists row, b !! i = Some row /\ binaryRow row.
Proof.
  intros [Hlen Hrows] Hi.
  destruct (lookup_lt_is_Some_2 b i) as [row Hrow]; [lia|].
  exists row. split; [done|].
  rewrite Forall_forall in Hrows. apply Hrows.
  eapply list_elem_of_lookup_2; eauto.
Qed.

Lemma board8_tab b : board8 b -> b = tab (cellAt b).
Proof.
  intros Hb. pose proof Hb as [Hlen _]. rewrite (list8_fmap b [] Hlen) at 1.
  unfold tab. apply row_ext. intros i Hi.
  destruct (board8_row b i Hb Hi) as [row [Hrow [Hl _]]].
  rewrite Hrow. simpl. rewrite (list8_fmap row 0 Hl) at 1.
  apply row_ext. intros j Hj. unfold cellAt. rewrite Hrow. reflexivity.
Qed.

Lemma board8_cell b i j :
  board8 b -> (i < 8)%nat -> (j < 8)%nat -> cellAt b i j = 0 \/ cellAt b i j = 1.
Proof.
  intros Hb Hi Hj. unfold cellAt.
  destruct (board8_row b i Hb Hi) as [row [Hrow [Hl Hbin]]].
  rewrite Hrow.
  destruct (lookup_lt_is_Some_2 row j) as [v Hv]; [lia|].
  rewrite Hv. simpl. rewrite Forall_forall in Hbin. apply Hbin.
  eapply list_elem_of_lookup_2; eauto.
Qed.

Lemma tab_board8 f : binaryTab f -> board8 (tab f).
Proof.
  intros H. split.
  - unfold tab. rewrite length_fmap, length_seq. done.
  - unfold tab. rewrite Forall_forall. intros row Hrow.
    apply list_elem_of_fmap in Hrow as [i [-> Hi]].
    apply elem_of_seq in Hi.
    split.
    + rewrite length_fmap, length_seq. done.
    + rewrite Forall_forall. intros v Hv.
      apply list_elem_of_fmap in Hv as [j [-> Hj]].
      apply elem_of_seq in Hj. apply H; lia.
Qed.

Lemma board8_binaryTab b : board8 b -> binaryTab (cellAt b).
Proof. intros H i j Hi Hj. by apply board8_cell. Qed.

(** Array reads on a table. *)

Lemma idx_tab f z :
  0 <= z < 8 -> idx (tab f) z = Some (f (Z.to_nat z) <$> seq 0 8).
Proof.
  intros H. unfold idx. destruct (Z.ltb_spec z 0); [lia|].
  apply tab_row. lia.
Qed.

Lemma idx_row (g : nat -> Z) z :
  0 <= z < 8 -> idx (g <$> seq 0 8) z = Some (g (Z.to_nat z)).
Proof.
  intros H. unfold idx. destruct (Z.ltb_spec z 0); [lia|].
  apply row_cell. lia.
Qed.

Lemma getRow_tab f z :
  0 <= z < 8 -> getRow (tab f) z = Ok (f (Z.to_nat z) <$> seq 0 8).
Proof. intros H. unfold getRow. rewrite idx_tab by done. reflexivity. Qed.

(** ** [canFit] *)

Lemma canFit_tab f offs r c :
  Forall nonneg offs -> 0 <= r -> 0 <= c ->
  canFit (tab f) offs r c = Ok (forallb (fitsb f r c) offs).
Proof.
  intros Hoff Hr Hc. induction Hoff as [|off rest [Hdr Hdc] _ IH]; [reflexivity|].
  cbn [canFit forallb]. unfold fitsb at 1.
  destruct (Z.geb_spec (r + dr off) 8) as [H1|H1].
  { destruct (Z.ltb_spec (r + dr off) 8); [lia|]. reflexivity. }
  destruct (Z.ltb_spec (r + dr off) 8); [|lia].
  destruct (Z.geb_spec (c + dc off) 8) as [H2|H2].
  { destruct (Z.ltb_spec (c + dc off) 8); [lia|]. reflexivity. }
  destruct (Z.ltb_spec (c + dc off) 8); [|lia].
  rewrite getRow_tab by lia. cbn [bind].
  rewrite idx_row by lia. rewrite IH. cbn [andb].
  unfold is1.
  destruct (Z.eqb_spec (f (Z.to_nat (r + dr off)) (Z.to_nat (c + dc off))) 1) as [->|Hne];
    [reflexivity|].
  destruct (f _ _) as [|[]|]; try reflexivity. congruence.
Qed.

Lemma fitsb_legal b r c off :
  board8 b -> nonneg off -> 0 <= r -> 0 <= c ->
  fitsb (cellAt b) r c off = true <-> cellLegal (tab (cellAt b)) r c off.
Proof.
  intros Hb [Hdr Hdc] Hr Hc. unfold fitsb, cellLegal.
  rewrite !andb_true_iff, !Z.ltb_lt, negb_true_iff, Z.eqb_neq.
  split.
  - intros [[H1 H2] H3]. repeat split; try lia.
    eexists. split; [apply idx_tab; lia|].
    rewrite idx_row by lia. f_equal.
    destruct (board8_cell b (Z.to_nat (r + dr off)) (Z.to_nat (c + dc off)) Hb);
      [lia | lia | done | done].
  - intros [H1 [H2 [row [Hrow Hcell]]]].
    rewrite idx_tab in Hrow by lia. apply (inj Some) in Hrow. subst row.
    rewrite idx_row in Hcell by lia. apply (inj Some) in Hcell.
    repeat split; try lia.
Qed.

(** C4.  On an 8x8 binary board, for non-negative offsets and an anchor
    inside the grid, [canFit] returns normally, and it returns [true]
    exactly when every offset cell is inside the grid and empty. *)
Theorem canFit_iff_legal (b : board) (offs : list offset) (r c : Z) :
  board8 b -> Forall nonneg offs -> 0 <= r < 8 -> 0 <= c < 8 ->
  exists v, canFit b offs r c = Ok v /\
            (v = true <-> Forall (cellLegal b r c) offs).
Proof.
  intros Hb Hoff Hr Hc.
  exists (forallb (fitsb (cellAt b) r c) offs). split.
  - rewrite (board8_tab b Hb) at 1. apply canFit_tab; [done | lia | lia].
  - rewrite forallb_forall, Forall_forall.
    split; intros H off Hin.
    + rewrite (board8_tab b Hb).
      apply fitsb_legal; [done | | lia | lia | ].
      * rewrite Forall_forall in Hoff. by apply Hoff.
      * apply H. by apply list_elem_of_In.
    + apply list_elem_of_In in Hin.
      apply fitsb_legal; [done | | lia | lia | ].
      * rewrite Forall_forall in Hoff. by apply Hoff.
      * rewrite <- (board8_tab b Hb). by apply H.
Qed.

Lemma canFit_iff_legal_witness :
  exists v, canFit emptyBoard [Off 0 0; Off 0 1; Off 1 0] 6 6 = Ok v /\
            (v = true <-> Forall (cellLegal emptyBoard 6 6) [Off 0 0; Off 0 1; Off 1 0]).
Proof.
  apply canFit_iff_legal.
  - by apply board8b_sound.
  - repeat constructor; simpl; lia.
  - lia.
  - lia.
Defined.

(** ** [applyMove] *)

Lemma insert_fmap_seq8 {A} (g : nat -> A) i v :
  (i < 8)%nat ->
  <[i := v]> (g <$> seq 0 8) = (fun k => if (k =? i)%nat then v else g k) <$> seq 0 8.
Proof.
  intros Hi. apply list_eq. intros k.
  destruct (decide (k < 8)%nat) as [Hk|Hk].
  - rewrite row_cell by done.
    destruct (Nat.eqb_spec k i) as [->|Hne].
    + rewrite list_lookup_insert_eq; [done|]. rewrite length_fmap, length_seq. done.
    + rewrite list_lookup_insert_ne by done.
      rewrite list_lookup_fmap, seq8_lookup by done. done.
  - rewrite !lookup_ge_None_2; [done | |].
    + rewrite length_fmap, length_seq. lia.
    + rewrite length_insert, length_fmap, length_seq. lia.
Qed.

Lemma setCell_tab f rr cc v :
  0 <= rr < 8 -> 0 <= cc < 8 ->
  setCell (tab f) rr cc v = Ok (tab (upd f (Z.to_nat rr) (Z.to_nat cc) v)).
Proof.
  intros Hr Hc. unfold setCell. rewrite getRow_tab by done. cbn [bind].
  rewrite length_fmap, length_seq.
  destruct (Z.leb_spec 0 cc); [|lia].
  destruct (Z.ltb_spec cc (Z.of_nat 8)); [|lia]. cbn [andb]. f_equal.
  rewrite insert_fmap_seq8 by lia. unfold tab at 1.
  rewrite insert_fmap_seq8 by lia. unfold tab.
  apply row_ext. intros i Hi. unfold upd.
  destruct (Nat.eqb_spec i (Z.to_nat rr)) as [->|Hne]; cbn [andb]; [|done].
  apply row_ext. intros j Hj. done.
Qed.

Lemma covers_cons off rest r c i j :
  covers (off :: rest) r c i j =
  ((r + dr off =? Z.of_nat i) && (c + dc off =? Z.of_nat j)) || covers rest r c i j.
Proof. reflexivity. Qed.

(** The [forEach] that marks the piece cells. *)
Lemma place_tab offs : forall f r c,
  Forall (onBoard r c) offs ->
  foldM (fun nb off => setCell nb (r + dr off) (c + dc off) 1) offs (tab f)
  = Ok (tab (fun i j => if covers offs r c i j then 1 else f i j)).
Proof.
  induction offs as [|off rest IH]; intros f r c Hon.
  - reflexivity.
  - inversion Hon as [|? ? [Hr Hc] Hrest]; subst.
    cbn [foldM]. rewrite setCell_tab by done. cbn [bind].
    rewrite IH by done. f_equal. apply tab_ext. intros i j Hi Hj.
    rewrite covers_cons. unfold upd.
    destruct (covers rest r c i j); [by rewrite orb_true_r|].
    rewrite orb_false_r.
    destruct (Nat.eqb_spec i (Z.to_nat (r + dr off)));
      destruct (Nat.eqb_spec j (Z.to_nat (c + dc off)));
      destruct (Z.eqb_spec (r + dr off) (Z.of_nat i));
      destruct (Z.eqb_spec (c + dc off) (Z.of_nat j)); cbn [andb]; try done; lia.
Qed.

Lemma forallb_seq8_ext (g h : nat -> bool) :
  (forall k, (k < 8)%nat -> g k = h k) -> forallb g (seq 0 8) = forallb h (seq 0 8).
Proof.
  intros H. cbn [seq forallb]. rewrite !H by lia. reflexivity.
Qed.

Lemma fullRowAt_tab f i : (i < 8)%nat -> fullRowAt (tab f) i = rowFullF f i.
Proof.
  intros Hi. apply forallb_seq8_ext. intros j Hj. by rewrite tab_cell.
Qed.

Lemma fullColAt_tab f j : (j < 8)%nat -> fullColAt (tab f) j = colFullF f j.
Proof.
  intros Hj. apply forallb_seq8_ext. intros i Hi. by rewrite tab_cell.
Qed.

Lemma rowFull_tab f i :
  0 <= i < 8 -> rowFull (tab f) i = Ok (rowFullF f (Z.to_nat i)).
Proof.
  intros Hi. unfold rowFull. rewrite getRow_tab by done. reflexivity.
Qed.

Lemma seqZ8 : seqZ 0 8 = [0; 1; 2; 3; 4; 5; 6; 7].
Proof. reflexivity. Qed.

Lemma binary_not0 v : v = 0 \/ v = 1 -> negb (is0 (Some v)) = (v =? 1).
Proof. intros [-> | ->]; reflexivity. Qed.

Lemma colFull_steps f i js :
  0 <= i < 8 -> Forall (fun j => 0 <= j < 8) js ->
  colFull (tab f) i js
  = Ok (forallb (fun j => negb (is0 (Some (f (Z.to_nat j) (Z.to_nat i))))) js).
Proof.
  intros Hi Hjs. induction Hjs as [|j js Hj _ IH]; [reflexivity|].
  cbn [colFull forallb]. rewrite getRow_tab by done. cbn [bind].
  rewrite idx_row by done.
  destruct (is0 (Some (f (Z.to_nat j) (Z.to_nat i)))); [reflexivity|].
  rewrite IH. reflexivity.
Qed.

Lemma colFull_tab f i :
  binaryTab f -> 0 <= i < 8 ->
  colFull (tab f) i (seqZ 0 8) = Ok (colFullF f (Z.to_nat i)).
Proof.
  intros Hf Hi. rewrite colFull_steps.
  - f_equal. rewrite seqZ8. unfold colFullF. cbn [forallb seq].
    rewrite !binary_not0 by (apply Hf; lia). reflexivity.
  - done.
  - rewrite seqZ8. repeat constructor; lia.
Qed.

Lemma fullLines_fold nb (fr fc : Z -> bool) l : forall rows cols,
  Forall (fun i => rowFull nb i = Ok (fr i) /\
                   colFull nb i (seqZ 0 8) = Ok (fc i)) l ->
  foldM (fun '(rows, cols) i =>
           let* rf := rowFull nb i in
           let rows' := if rf then rows ++ [i] else rows in
           let* cf := colFull nb i (seqZ 0 8) in
           let cols' := if cf then cols ++ [i] else cols in
           Ok (rows', cols'))
        l (rows, cols)
  = Ok (rows ++ List.filter fr l, cols ++ List.filter fc l).
Proof.
  induction l as [|i l IH]; intros rows cols Hl.
  - cbn. by rewrite !app_nil_r.
  - inversion Hl as [|? ? [Hr Hc] Hl']; subst.
    cbn [foldM]. rewrite Hr. cbn [bind]. rewrite Hc. cbn [bind].
    rewrite IH by done. cbn [List.filter].
    destruct (fr i), (fc i); by rewrite <- ?app_assoc.
Qed.

Lemma fullLines_tab f :
  binaryTab f ->
  fullLines (tab f)
  = Ok (List.filter (fun i => rowFullF f (Z.to_nat i)) (seqZ 0 8),
        List.filter (fun i => colFullF f (Z.to_nat i)) (seqZ 0 8)).
Proof.
  intros Hf. unfold fullLines.
  rewrite (fullLines_fold _ (fun i => rowFullF f (Z.to_nat i))
                            (fun i => colFullF f (Z.to_nat i))).
  - reflexivity.
  - rewrite Forall_forall. intros i Hi. apply elem_of_seqZ in Hi.
    split; [apply rowFull_tab | apply colFull_tab]; done || lia.
Qed.

Lemma fillRow_tab f ri :
  0 <= ri < 8 ->
  fillRow (tab f) ri
  = Ok (tab (fun i j => if (i =? Z.to_nat ri)%nat then 0 else f i j)).
Proof.
  intros Hr. unfold fillRow. rewrite getRow_tab by done. cbn [bind].
  rewrite length_fmap, length_seq. f_equal. unfold tab at 1.
  rewrite insert_fmap_seq8 by lia. unfold tab.
  apply row_ext. intros i Hi.
  destruct (Nat.eqb_spec i (Z.to_nat ri)); reflexivity.
Qed.

Lemma fillRows_tab rows : forall f,
  Forall (fun i => 0 <= i < 8) rows ->
  foldM fillRow rows (tab f)
  = Ok (tab (fun i j => if inb rows i then 0 else f i j)).
Proof.
  induction rows as [|ri rows IH]; intros f Hrows; [reflexivity|].
  inversion Hrows as [|? ? Hr Hrows']; subst.
  cbn [foldM]. rewrite fillRow_tab by done. cbn [bind].
  rewrite IH by done. f_equal. apply tab_ext. intros i j Hi Hj.
  unfold inb. cbn [existsb]. fold (inb rows i).
  destruct (inb rows i); [by rewrite orb_true_r|]. rewrite orb_false_r.
  destruct (Nat.eqb_spec i (Z.to_nat ri)), (Z.eqb_spec ri (Z.of_nat i));
    try done; lia.
Qed.

Lemma clearCol_steps ris : forall f ci,
  0 <= ci < 8 -> Forall (fun i => 0 <= i < 8) ris ->
  foldM (fun nb' ri => setCell nb' ri ci 0) ris (tab f)
  = Ok (tab (fun i j => if inb ris i && (j =? Z.to_nat ci)%nat then 0 else f i j)).
Proof.
  induction ris as [|ri ris IH]; intros f ci Hc Hris; [reflexivity|].
  inversion Hris as [|? ? Hr Hris']; subst.
  cbn [foldM]. rewrite setCell_tab by done. cbn [bind].
  rewrite IH by done. f_equal. apply tab_ext. intros i j Hi Hj.
  unfold inb, upd. cbn [existsb]. fold (inb ris i).
  destruct (inb ris i), (Nat.eqb_spec j (Z.to_nat ci)),
    (Nat.eqb_spec i (Z.to_nat ri)), (Z.eqb_spec ri (Z.of_nat i));
    cbn [andb orb]; try done; lia.
Qed.

Lemma clearCol_tab f ci :
  0 <= ci < 8 ->
  clearCol (tab f) ci
  = Ok (tab (fun i j => if (j =? Z.to_nat ci)%nat then 0 else f i j)).
Proof.
  intros Hc. unfold clearCol. rewrite clearCol_steps.
  - reflexivity.
  - done.
  - rewrite Forall_forall. intros i Hi. by apply elem_of_seqZ in Hi.
Qed.

Lemma clearCols_tab cols : forall f,
  Forall (fun i => 0 <= i < 8) cols ->
  foldM clearCol cols (tab f)
  = Ok (tab (fun i j => if inb cols j then 0 else f i j)).
Proof.
  induction cols as [|ci cols IH]; intros f Hcols; [reflexivity|].
  inversion Hcols as [|? ? Hc Hcols']; subst.
  cbn [foldM]. rewrite clearCol_tab by done. cbn [bind].
  rewrite IH by done. f_equal. apply tab_ext. intros i j Hi Hj.
  unfold inb. cbn [existsb]. fold (inb cols j).
  destruct (inb cols j); [by rewrite orb_true_r|]. rewrite orb_false_r.
  destruct (Nat.eqb_spec j (Z.to_nat ci)), (Z.eqb_spec ci (Z.of_nat j));
    try done; lia.
Qed.

Lemma filter_seqZ8_range (p : Z -> bool) :
  Forall (fun i => 0 <= i < 8) (List.filter p (seqZ 0 8)).
Proof.
  rewrite Forall_forall. intros i Hi.
  apply list_elem_of_In, filter_In in Hi as [Hi _].
  by apply list_elem_of_In, elem_of_seqZ in Hi.
Qed.

Lemma inb_filter (g : nat -> bool) k :
  (k < 8)%nat ->
  inb (List.filter (fun i => g (Z.to_nat i)) (seqZ 0 8)) k = g k.
Proof.
  intros Hk. unfold inb.
  destruct (g k) eqn:Hg.
  - apply existsb_exists. exists (Z.of_nat k). split; [|apply Z.eqb_refl].
    apply filter_In. split.
    + apply list_elem_of_In, elem_of_seqZ. lia.
    + by rewrite Nat2Z.id.
  - apply not_true_is_false. intros H.
    apply existsb_exists in H as [z [Hz Heq]]. apply Z.eqb_eq in Heq. subst z.
    apply filter_In in Hz as [_ Hz]. rewrite Nat2Z.id in Hz. congruence.
Qed.

Lemma count_filter_seqZ8 (g : nat -> bool) :
  Z.of_nat (length (List.filter (fun i => g (Z.to_nat i)) (seqZ 0 8)))
  = countb g (seq 0 8).
Proof.
  unfold countb. f_equal.
  change (seqZ 0 8) with (Z.of_nat <$> seq 0 8).
  induction (seq 0 8) as [|k l IH]; [reflexivity|].
  cbn [fmap list_fmap List.filter]. rewrite Nat2Z.id.
  destruct (g k); cbn [length]; by rewrite <- IH.
Qed.

Lemma countb_seq8_ext (g h : nat -> bool) :
  (forall k, (k < 8)%nat -> g k = h k) -> countb g (seq 0 8) = countb h (seq 0 8).
Proof.
  intros H. unfold countb. f_equal. f_equal.
  apply filter_ext_in. intros k Hk. apply in_seq in Hk. apply H. lia.
Qed.

Lemma placedF_binary f offs r c : binaryTab f -> binaryTab (placedF f offs r c).
Proof.
  intros Hf i j Hi Hj. unfold placedF.
  destruct (covers offs r c i j); [by right | by apply Hf].
Qed.

Lemma clearedF_binary p : binaryTab p -> binaryTab (clearedF p).
Proof.
  intros Hp i j Hi Hj. unfold clearedF.
  destruct (rowFullF p i || colFullF p j); [by left | by apply Hp].
Qed.

Lemma applyMove_tab f offs r c :
  binaryTab f -> Forall (onBoard r c) offs ->
  applyMove (tab f) offs r c
  = Ok (Moved (tab (clearedF (placedF f offs r c)))
              (countb (rowFullF (placedF f offs r c)) (seq 0 8) +
               countb (colFullF (placedF f offs r c)) (seq 0 8))).
Proof.
  intros Hf Hon. unfold applyMove.
  change ((fun row : list Z => row) <$> tab f) with (id <$> tab f).
  rewrite list_fmap_id.
  rewrite place_tab by done. cbn [bind]. fold (placedF f offs r c).
  set (p := placedF f offs r c).
  assert (Hp : binaryTab p) by by apply placedF_binary.
  rewrite fullLines_tab by done. cbn [bind].
  rewrite fillRows_tab by apply filter_seqZ8_range. cbn [bind].
  rewrite clearCols_tab by apply filter_seqZ8_range. cbn [bind].
  rewrite !count_filter_seqZ8. f_equal. f_equal.
  apply tab_ext. intros i j Hi Hj. unfold clearedF.
  rewrite (inb_filter (colFullF p)), (inb_filter (rowFullF p)) by done.
  destruct (rowFullF p i), (colFullF p j); reflexivity.
Qed.

Lemma placed_tab b offs r c :
  placed b offs r c = tab (placedF (cellAt b) offs r c).
Proof. reflexivity. Qed.

Lemma clearedBoard_tab p :
  clearedBoard (tab p) = tab (clearedF p).
Proof.
  unfold clearedBoard. apply tab_ext. intros i j Hi Hj. unfold clearedF.
  by rewrite fullRowAt_tab, fullColAt_tab, tab_cell.
Qed.

Lemma fullRowCount_tab p : fullRowCount (tab p) = countb (rowFullF p) (seq 0 8).
Proof. apply countb_seq8_ext. intros k Hk. by apply fullRowAt_tab. Qed.

Lemma fullColCount_tab p : fullColCount (tab p) = countb (colFullF p) (seq 0 8).
Proof. apply countb_seq8_ext. intros k Hk. by apply fullColAt_tab. Qed.

(** A legal placement keeps every piece cell on the board. *)
Lemma fits_onBoard f offs r c :
  Forall nonneg offs -> 0 <= r -> 0 <= c ->
  forallb (fitsb f r c) offs = true -> Forall (onBoard r c) offs.
Proof.
  intros Hoff Hr Hc H. rewrite forallb_forall in H.
  rewrite Forall_forall in Hoff |- *. intros off Hin.
  specialize (Hoff off Hin) as [Hdr Hdc].
  apply list_elem_of_In in Hin. specialize (H off Hin). unfold fitsb in H.
  rewrite !andb_true_iff, !Z.ltb_lt in H. unfold onBoard. lia.
Qed.

Lemma canFit_onBoard b offs r c :
  board8 b -> Forall nonneg offs -> 0 <= r -> 0 <= c ->
  canFit b offs r c = Ok true -> Forall (onBoard r c) offs.
Proof.
  intros Hb Hoff Hr Hc Hfit.
  rewrite (board8_tab b Hb), canFit_tab in Hfit by done.
  apply fits_onBoard with (f := cellAt b); [done.. | congruence].
Qed.

(** The board and the count that [applyMove] returns. *)
Lemma applyMove_spec b offs r c :
  board8 b -> Forall (onBoard r c) offs ->
  applyMove b offs r c
  = Ok (Moved (clearedBoard (placed b offs r c))
              (fullRowCount (placed b offs r c) + fullColCount (placed b offs r c))).
Proof.
  intros Hb Hon. rewrite placed_tab, clearedBoard_tab, fullRowCount_tab, fullColCount_tab.
  rewrite (board8_tab b Hb) at 1.
  apply applyMove_tab; [by apply board8_binaryTab | done].
Qed.

Lemma countb_pos (g : nat -> bool) k :
  (k < 8)%nat -> g k = true -> 1 <= countb g (seq 0 8).
Proof.
  intros Hk Hg. unfold countb.
  assert (Hin : In k (List.filter g (seq 0 8))).
  { apply filter_In. split; [apply in_seq; lia | done]. }
  destruct (List.filter g (seq 0 8)); [destruct Hin | cbn [length]; lia].
Qed.

(** C1.  On an 8x8 binary board, for non-negative offsets and an anchor
    (a position of the grid) where [canFit] holds, [applyMove] returns the
    board obtained by first marking every offset cell occupied ([placed]) and
    then resetting every full row and every full column ([clearedBoard]);
    [cleared] is the number of full rows plus the number of full columns.
    A cell where a full row meets a full column ends at 0, and its row and
    its column are each counted. *)
Theorem applyMove_fills_then_clears (b : board) (offs : list offset) (r c : Z) :
  board8 b -> offs <> [] -> Forall nonneg offs ->
  0 <= r < 8 -> 0 <= c < 8 ->
  canFit b offs r c = Ok true ->
  let p := placed b offs r c in
  applyMove b offs r c
    = Ok (Moved (clearedBoard p) (fullRowCount p + fullColCount p)) /\
  (forall off, In off offs ->
     cellAt p (Z.to_nat (r + dr off)) (Z.to_nat (c + dc off)) = 1) /\
  (forall i j, (i < 8)%nat -> (j < 8)%nat ->
     cellAt (clearedBoard p) i j
     = if fullRowAt p i || fullColAt p j then 0 else cellAt p i j) /\
  (forall i j, (i < 8)%nat -> (j < 8)%nat ->
     fullRowAt p i = true -> fullColAt p j = true ->
     cellAt (clearedBoard p) i j = 0 /\
     1 <= fullRowCount p /\ 1 <= fullColCount p).
Proof.
  intros Hb _ Hoff Hr Hc Hfit p.
  assert (Hon : Forall (onBoard r c) offs).
  { apply (canFit_onBoard b); [done | done | lia | lia | done]. }
  split; [by apply applyMove_spec|].
  assert (Hcell : forall i j, (i < 8)%nat -> (j < 8)%nat ->
     cellAt (clearedBoard p) i j
     = if fullRowAt p i || fullColAt p j then 0 else cellAt p i j).
  { intros i j Hi Hj. unfold clearedBoard. by rewrite tab_cell. }
  split; [|split; [exact Hcell|]].
  - intros off Hin. rewrite Forall_forall in Hon.
    destruct (Hon off) as [H1 H2]; [by apply list_elem_of_In|].
    unfold p, placed. rewrite tab_cell by lia.
    assert (Hcov : covers offs r c (Z.to_nat (r + dr off)) (Z.to_nat (c + dc off)) = true).
    { apply existsb_exists. exists off. split; [done|].
      rewrite !Z2Nat.id by lia. by rewrite !Z.eqb_refl. }
    by rewrite Hcov.
  - intros i j Hi Hj Hrow Hcol. rewrite Hcell, Hrow by done.
    split; [reflexivity|].
    split; [by apply (countb_pos _ i) | by apply (countb_pos _ j)].
Qed.

(** Left of the grid [canFit] is no guide: the read at column -1 yields
    [undefined], which is not 1, so [canFit] holds there, while the write
    of [applyMove] falls outside the row.  The loops of [solve] only offer
    anchors inside the grid. *)
Lemma canFit_left_of_grid :
  canFit emptyBoard [Off 0 0] 0 (-1) = Ok true /\
  applyMove emptyBoard [Off 0 0] 0 (-1) = Raise SparseWrite.
Proof. split; reflexivity. Qed.

Lemma applyMove_fills_then_clears_witness :
  applyMove crossBoard [Off 0 0] 0 0 = Ok (Moved emptyBoard 2) /\
  cellAt (placed crossBoard [Off 0 0] 0 0) 0 0 = 1.
Proof.
  assert (Hb : board8 crossBoard) by (by apply board8b_sound).
  assert (Hoff : Forall nonneg [Off 0 0]).
  { repeat constructor; simpl; lia. }
  destruct (applyMove_fills_then_clears crossBoard [Off 0 0] 0 0 Hb
              ltac:(discriminate) Hoff ltac:(lia) ltac:(lia) eq_refl)
    as [Hmove [Hfill _]].
  split.
  - exact Hmove.
  - apply (Hfill (Off 0 0)). left. reflexivity.
Defined.

(** ** Loops that accumulate a score *)

Lemma foldM_add {A} (body : Z -> A -> result Z) (h : A -> Z) l : forall s,
  Forall (fun x => forall s', body s' x = Ok (s' + h x)) l ->
  foldM body l s = Ok (s + sumZ (h <$> l)).
Proof.
  induction l as [|x l IH]; intros s Hl.
  - cbn. f_equal. lia.
  - inversion Hl as [|? ? Hx Hl']; subst.
    cbn [foldM]. rewrite Hx. cbn [bind]. rewrite IH by done.
    cbn. f_equal. unfold sumZ. lia.
Qed.

Lemma countZ_cons {A} (p : A -> bool) x l :
  countZ p (x :: l) = (if p x then 1 else 0) + countZ p l.
Proof.
  unfold countZ. cbn [List.filter]. destruct (p x); cbn [length]; lia.
Qed.

Lemma countZ_app {A} (p : A -> bool) l1 l2 :
  countZ p (l1 ++ l2) = countZ p l1 + countZ p l2.
Proof.
  unfold countZ. rewrite List.filter_app, length_app. lia.
Qed.

Lemma countZ_map {A B} (p : B -> bool) (g : A -> B) l :
  countZ p (List.map g l) = countZ (fun x => p (g x)) l.
Proof.
  induction l as [|x l IH]; [reflexivity|].
  cbn [List.map]. by rewrite !countZ_cons, IH.
Qed.

Lemma countZ_ext {A} (p q : A -> bool) l :
  Forall (fun x => p x = q x) l -> countZ p l = countZ q l.
Proof.
  induction 1 as [|x l Hx _ IH]; [reflexivity|].
  by rewrite !countZ_cons, Hx, IH.
Qed.

Lemma sum_bonus {A} (p : A -> bool) (k : Z) l :
  sumZ ((fun x => if p x then k else 0) <$> l) = k * countZ p l.
Proof.
  induction l as [|x l IH]; [unfold countZ; cbn; lia|].
  rewrite countZ_cons. cbn [fmap list_fmap sumZ foldr].
  fold (sumZ ((fun x => if p x then k else 0) <$> l)). rewrite IH.
  destruct (p x); lia.
Qed.

Lemma sumZ_plus {A} (g h : A -> Z) l :
  sumZ ((fun x => g x + h x) <$> l) = sumZ (g <$> l) + sumZ (h <$> l).
Proof.
  induction l as [|x l IH]; [reflexivity|].
  cbn [fmap list_fmap sumZ foldr].
  fold (sumZ ((fun x => g x + h x) <$> l)) (sumZ (g <$> l)) (sumZ (h <$> l)).
  rewrite IH. lia.
Qed.

Lemma countZ_list_prod {A B} (p : A * B -> bool) (l1 : list A) (l2 : list B) :
  countZ p (list_prod l1 l2)
  = sumZ ((fun x => countZ (fun y => p (x, y)) l2) <$> l1).
Proof.
  induction l1 as [|x l1 IH]; [reflexivity|].
  cbn [list_prod]. rewrite countZ_app, countZ_map, IH. reflexivity.
Qed.

Lemma foldM_count {A} (g : A -> result bool) (gb : A -> bool) (k : Z) l s :
  Forall (fun x => g x = Ok (gb x)) l ->
  foldM (fun s x => let* e := g x in Ok (if e then s + k else s)) l s
  = Ok (s + k * countZ gb l).
Proof.
  intros Hl. rewrite (foldM_add _ (fun x => if gb x then k else 0)).
  - by rewrite sum_bonus.
  - eapply Forall_impl; [exact Hl|]. intros x Hx s'. cbn beta. rewrite Hx. cbn [bind].
    destruct (gb x); f_equal; lia.
Qed.

(** ** The open-space bonus *)

Lemma cellZ_tab f r c :
  0 <= r < 8 -> 0 <= c < 8 -> cellZ (tab f) r c = f (Z.to_nat r) (Z.to_nat c).
Proof. intros Hr Hc. unfold cellZ. apply tab_cell; lia. Qed.

Lemma binary_not1 v : v = 0 \/ v = 1 -> negb (is1 (Some v)) = (v =? 0).
Proof. intros [-> | ->]; reflexivity. Qed.

Lemma windowRow_tab f r c rr ccs :
  binaryTab f -> 0 <= r + rr < 8 -> Forall (fun cc => 0 <= c + cc < 8) ccs ->
  windowRow (tab f) r c rr ccs
  = Ok (forallb (fun cc => cellZ (tab f) (r + rr) (c + cc) =? 0) ccs).
Proof.
  intros Hf Hr Hcs. induction Hcs as [|cc ccs Hc _ IH]; [reflexivity|].
  cbn [windowRow forallb]. rewrite getRow_tab by done. cbn [bind].
  rewrite idx_row, cellZ_tab by done.
  rewrite <- binary_not1 by (apply Hf; lia).
  destruct (is1 _); [reflexivity|]. rewrite IH. reflexivity.
Qed.

Lemma windowEmpty_tab f r c rrs :
  binaryTab f -> Forall (fun rr => 0 <= r + rr < 8) rrs -> 0 <= c < 6 ->
  windowEmpty (tab f) r c rrs
  = Ok (forallb (fun rr => forallb (fun cc => cellZ (tab f) (r + rr) (c + cc) =? 0)
                                   (seqZ 0 3)) rrs).
Proof.
  intros Hf Hrs Hc. induction Hrs as [|rr rrs Hr _ IH]; [reflexivity|].
  cbn [windowEmpty forallb]. rewrite windowRow_tab; [| done | done |].
  - cbn [bind]. destruct (forallb _ (seqZ 0 3)); [|reflexivity].
    rewrite IH. reflexivity.
  - rewrite Forall_forall. intros cc Hcc. apply elem_of_seqZ in Hcc. lia.
Qed.

Lemma windowBonus_tab f score :
  binaryTab f ->
  windowBonus (tab f) score = Ok (score + 50 * emptyWindows (tab f)).
Proof.
  intros Hf. unfold windowBonus, emptyWindows, windowAnchors.
  rewrite countZ_list_prod.
  rewrite (foldM_add _ (fun r => 50 * countZ (fun c => windowClear (tab f) (r, c)) (seqZ 0 6))).
  - f_equal. f_equal. generalize (seqZ 0 6) at 2 4. intros l.
    induction l as [|r l IH]; [reflexivity|].
    cbn [fmap list_fmap sumZ foldr]. unfold sumZ in IH. lia.
  - rewrite Forall_forall. intros r Hr s'. apply elem_of_seqZ in Hr.
    apply foldM_count. rewrite Forall_forall. intros c Hc.
    apply elem_of_seqZ in Hc. apply windowEmpty_tab; [done | | lia].
    rewrite Forall_forall. intros rr Hrr. apply elem_of_seqZ in Hrr. lia.
Qed.

(** ** The streak bonus *)

Lemma scan_cons v cells st : scan (v :: cells) st = scan cells (scanStep st v).
Proof. reflexivity. Qed.

Lemma is0_Some v : is0 (Some v) = (v =? 0).
Proof. by destruct v. Qed.

(** The interleaved loop scans row [i] and column [i] independently. *)
Lemma streak_fold f i js : forall st,
  0 <= i < 8 -> Forall (fun j => 0 <= j < 8) js ->
  foldM (streakStep (tab f) i) js st
  = Ok (let h := scan ((fun j => f (Z.to_nat i) (Z.to_nat j)) <$> js) (hMax st, hCur st) in
        let v := scan ((fun j => f (Z.to_nat j) (Z.to_nat i)) <$> js) (vMax st, vCur st) in
        Streak (fst h) (snd h) (fst v) (snd v)).
Proof.
  intros st Hi Hjs. revert st.
  induction Hjs as [|j js Hj _ IH]; intros st.
  - by destruct st.
  - cbn [foldM]. unfold streakStep at 1.
    rewrite !getRow_tab by done. cbn [bind].
    rewrite !idx_row by done. rewrite !is0_Some, IH.
    cbn [fmap list_fmap]. rewrite !scan_cons. unfold scanStep. cbn [fst snd].
    destruct (f (Z.to_nat i) (Z.to_nat j) =? 0), (f (Z.to_nat j) (Z.to_nat i) =? 0);
      reflexivity.
Qed.

Lemma binaryLines_complete l :
  Forall (fun v => v = 0 \/ v = 1) l -> l ∈ binaryLines (length l).
Proof.
  induction 1 as [|v l Hv _ IH]; [by left|].
  cbn [length binaryLines]. apply elem_of_app.
  destruct Hv as [-> | ->]; [left | right]; by apply list_elem_of_fmap_2.
Qed.

Lemma scanRun_lines8 :
  forallb (fun cells => scanRun cells =? longestRun cells) (binaryLines 8) = true.
Proof. vm_compute. reflexivity. Qed.

(** On a line of eight binary cells the scan computes the longest run of
    empty cells. *)
Lemma scanRun_longestRun cells :
  binaryRow cells -> scanRun cells = longestRun cells.
Proof.
  intros [Hl Hb]. apply Z.eqb_eq.
  pose proof scanRun_lines8 as H. rewrite forallb_forall in H. apply H.
  apply list_elem_of_In. rewrite <- Hl. by apply binaryLines_complete.
Qed.

Lemma rowCells_tab f i :
  0 <= i < 8 ->
  rowCells (tab f) i = (fun j => f (Z.to_nat i) (Z.to_nat j)) <$> seqZ 0 8.
Proof.
  intros Hi. unfold rowCells. apply list_fmap_ext. intros k j Hj.
  apply list_elem_of_lookup_2, elem_of_seqZ in Hj. by apply cellZ_tab.
Qed.

Lemma colCells_tab f j :
  0 <= j < 8 ->
  colCells (tab f) j = (fun i => f (Z.to_nat i) (Z.to_nat j)) <$> seqZ 0 8.
Proof.
  intros Hj. unfold colCells. apply list_fmap_ext. intros k i Hi.
  apply list_elem_of_lookup_2, elem_of_seqZ in Hi. by apply cellZ_tab.
Qed.

Lemma line_binaryRow (g : Z -> Z) :
  (forall j, 0 <= j < 8 -> g j = 0 \/ g j = 1) -> binaryRow (g <$> seqZ 0 8).
Proof.
  intros Hg. split; [reflexivity|].
  rewrite Forall_fmap, Forall_forall. intros j Hj.
  apply elem_of_seqZ in Hj. apply Hg. lia.
Qed.

Lemma geb_leb x y : (x >=? y) = (y <=? x).
Proof. apply Z.geb_leb. Qed.

Lemma streakBonus_tab f score :
  binaryTab f ->
  streakBonus (tab f) score
  = Ok (score + (30 * streakRows (tab f) + 30 * streakCols (tab f))).
Proof.
  intros Hf. unfold streakBonus, streakRows, streakCols.
  rewrite (foldM_add _
    (fun i => (if 5 <=? longestRun (rowCells (tab f) i) then 30 else 0) +
              (if 5 <=? longestRun (colCells (tab f) i) then 30 else 0))).
  - by rewrite sumZ_plus, !sum_bonus.
  - rewrite Forall_forall. intros i Hi s'. apply elem_of_seqZ in Hi.
    rewrite streak_fold; [| lia |].
    + cbn [bind hMax hCur vMax vCur]. rewrite !geb_leb.
      rewrite rowCells_tab, colCells_tab by lia.
      rewrite <- !scanRun_longestRun by (apply line_binaryRow; intros; apply Hf; lia).
      unfold scanRun. f_equal.
      destruct (5 <=? Z.max (fst (scan _ _)) _), (5 <=? Z.max (fst (scan _ _)) _); lia.
    + rewrite Forall_forall. intros j Hj. by apply elem_of_seqZ in Hj.
Qed.

(** ** The emptiness tiebreak *)

Lemma foldl_add_sum l : forall a, foldl Z.add a l = a + sumZ l.
Proof.
  induction l as [|x l IH]; intros a; [unfold sumZ; cbn; lia|].
  cbn [foldl sumZ foldr]. rewrite IH. unfold sumZ. lia.
Qed.

Lemma sumZ_app l1 l2 : sumZ (l1 ++ l2) = sumZ l1 + sumZ l2.
Proof.
  induction l1 as [|x l1 IH]; [reflexivity|].
  unfold sumZ in *. cbn [app foldr]. rewrite IH. lia.
Qed.

Lemma sumZ_concat ls : sumZ (concat ls) = sumZ (sumZ <$> ls).
Proof.
  induction ls as [|l ls IH]; [reflexivity|].
  cbn [concat fmap list_fmap]. rewrite sumZ_app, IH. reflexivity.
Qed.

Lemma sumZ_binary {A} (g : A -> Z) l :
  Forall (fun x => g x = 0 \/ g x = 1) l ->
  sumZ (g <$> l) = countZ (fun x => g x =? 1) l.
Proof.
  induction 1 as [|x l Hx _ IH]; [reflexivity|].
  rewrite countZ_cons. cbn [fmap list_fmap sumZ foldr].
  fold (sumZ (g <$> l)). rewrite IH. destruct Hx as [-> | ->]; reflexivity.
Qed.

Lemma countZ_fmap {A B} (p : B -> bool) (g : A -> B) l :
  countZ p (g <$> l) = countZ (fun x => p (g x)) l.
Proof. apply countZ_map. Qed.

Lemma occupied_tab f :
  binaryTab f -> foldl Z.add 0 (concat (tab f)) = occupiedCells (tab f).
Proof.
  intros Hf. rewrite foldl_add_sum, sumZ_concat, Z.add_0_l.
  unfold occupiedCells, boardCells. rewrite countZ_list_prod.
  unfold tab at 1. rewrite <- list_fmap_compose.
  change (seqZ 0 8) with (Z.of_nat <$> seq 0 8). rewrite <- list_fmap_compose.
  f_equal. apply list_fmap_ext. intros k i Hi.
  apply seq8_lookup_inv in Hi as [-> Hi]. cbn [compose fst snd].
  rewrite countZ_fmap, sumZ_binary.
  - apply countZ_ext. rewrite Forall_forall. intros j Hj.
    apply elem_of_seq in Hj. rewrite cellZ_tab by lia. by rewrite !Nat2Z.id.
  - rewrite Forall_forall. intros j Hj. apply elem_of_seq in Hj. apply Hf; lia.
Qed.

Lemma score_tab f totalCleared :
  binaryTab f ->
  calculateStrategyScore (tab f) totalCleared = Ok (scoreSpec (tab f) totalCleared).
Proof.
  intros Hf. unfold calculateStrategyScore.
  rewrite windowBonus_tab by done. cbn [bind].
  rewrite streakBonus_tab by done. cbn [bind].
  rewrite occupied_tab by done. unfold scoreSpec. f_equal. lia.
Qed.

(** C3.  On every 8x8 binary board the scoring function returns
    5000 + 200 * totalCleared + 50 * (empty 3x3 windows among the 36
    anchors) + 30 * (rows whose longest run of empty cells is at least 5)
    + 30 * (columns with such a run) + (64 - occupied cells). *)
Theorem score_formula (b : board) (totalCleared : Z) :
  board8 b -> 0 <= totalCleared ->
  calculateStrategyScore b totalCleared
  = Ok (5000 + 200 * totalCleared + 50 * emptyWindows b
        + 30 * streakRows b + 30 * streakCols b + (64 - occupiedCells b)).
Proof.
  intros Hb _. rewrite (board8_tab b Hb).
  apply score_tab. by apply board8_binaryTab.
Qed.

Lemma score_formula_witness :
  calculateStrategyScore crossBoard 2 = Ok 7120.
Proof.
  apply (score_formula crossBoard 2).
  - by apply board8b_sound.
  - lia.
Defined.

(** ** Pieces handed to the search *)

Lemma rowOffsets_elem r row off :
  off ∈ rowOffsets r row <->
  exists c, row !! c = Some 1 /\ off = Off (Z.of_nat r) (Z.of_nat c).
Proof.
  unfold rowOffsets. rewrite list_elem_of_omap. split.
  - intros [o [Ho Hid]]. cbn in Hid. subst o.
    apply elem_of_lookup_imap in Ho as [c [v [Heq Hv]]].
    destruct (v =? 1) eqn:E; [|discriminate].
    apply Z.eqb_eq in E. subst v. exists c. split; congruence.
  - intros [c [Hc ->]]. eexists. split; [|reflexivity].
    apply elem_of_lookup_imap. exists c, 1. done.
Qed.

Lemma pieceOffsets_elem p off :
  off ∈ pieceOffsets p <->
  exists r c, occupiedAt p r c /\ off = Off (Z.of_nat r) (Z.of_nat c).
Proof.
  unfold pieceOffsets, occupiedAt. rewrite list_elem_of_In, in_concat. split.
  - intros [l [Hl Hoff]].
    apply list_elem_of_In, elem_of_lookup_imap in Hl as [r [row [-> Hrow]]].
    apply list_elem_of_In, rowOffsets_elem in Hoff as [c [Hc ->]].
    exists r, c. eauto.
  - intros [r [c [[row [Hrow Hc]] ->]]].
    exists (rowOffsets r row). split; apply list_elem_of_In.
    + by apply elem_of_lookup_imap_2.
    + apply rowOffsets_elem. eauto.
Qed.

Lemma pieceOffsets_nonneg p : Forall nonneg (pieceOffsets p).
Proof.
  rewrite Forall_forall. intros off Hoff.
  apply pieceOffsets_elem in Hoff as [r [c [_ ->]]]. unfold nonneg. cbn. lia.
Qed.

Lemma foldl_min_spec l : forall x,
  (foldl Z.min x l = x \/ foldl Z.min x l ∈ l) /\
  foldl Z.min x l <= x /\ Forall (fun y => foldl Z.min x l <= y) l.
Proof.
  induction l as [|y l IH]; intros x.
  - cbn. split; [by left|]. split; [lia | constructor].
  - cbn [foldl]. destruct (IH (Z.min x y)) as [Hin [Hle Hall]].
    split; [|split].
    + destruct Hin as [Heq | Hin].
      * rewrite Heq. destruct (Z.min_spec x y) as [[_ ->] | [_ ->]];
          [by left | right; by left].
      * right. by right.
    + lia.
    + constructor; [lia | done].
Qed.

(** With non-negative entries the minimum is 0 exactly when 0 occurs. *)
Lemma minimum_zero l :
  Forall (fun x => 0 <= x) l -> minimum l = Some 0 <-> 0 ∈ l.
Proof.
  intros Hl. destruct l as [|x l]; cbn [minimum].
  - split; [discriminate | by intros ?%elem_of_nil].
  - inversion Hl as [|? ? Hx Hl']; subst.
    destruct (foldl_min_spec l x) as [Hin [Hle Hall]]. split.
    + intros [= Hm]. rewrite Hm in Hin.
      destruct Hin as [<- | Hin]; [by left | by right].
    + intros H0. f_equal.
      assert (0 <= foldl Z.min x l).
      { destruct Hin as [-> | Hin]; [done|].
        rewrite Forall_forall in Hl'. by apply Hl'. }
      apply elem_of_cons in H0 as [<- | H0]; [lia|].
      rewrite Forall_forall in Hall. specialize (Hall 0 H0). lia.
Qed.

(** C8 (amended).  The offsets of a piece are the row and column indices
    of the occupied cells of its pattern, unshifted: an offset belongs to
    the piece exactly when the pattern holds 1 there, every offset is
    non-negative, and the minimum row (column) offset is 0 exactly when
    the first row (column) of the pattern has an occupied cell. *)
Theorem pieceOffsets_unshifted (p : pattern) :
  (forall off, off ∈ pieceOffsets p <->
     exists r c, occupiedAt p r c /\ off = Off (Z.of_nat r) (Z.of_nat c)) /\
  Forall nonneg (pieceOffsets p) /\
  (minRowOffset (pieceOffsets p) = Some 0 <-> exists c, occupiedAt p 0 c) /\
  (minColOffset (pieceOffsets p) = Some 0 <-> exists r, occupiedAt p r 0).
Proof.
  split; [apply pieceOffsets_elem|]. split; [apply pieceOffsets_nonneg|].
  pose proof (pieceOffsets_nonneg p) as Hnn. rewrite Forall_forall in Hnn.
  split.
  - unfold minRowOffset. rewrite minimum_zero.
    + rewrite list_elem_of_fmap. split.
      * intros [off [Hdr Hoff]].
        apply pieceOffsets_elem in Hoff as [r [c [Hocc ->]]]. cbn in Hdr.
        exists c. by replace 0%nat with r by lia.
      * intros [c Hocc]. exists (Off 0 (Z.of_nat c)). split; [done|].
        apply pieceOffsets_elem. by exists 0%nat, c.
    + rewrite Forall_fmap, Forall_forall. intros off Hoff. by apply Hnn.
  - unfold minColOffset. rewrite minimum_zero.
    + rewrite list_elem_of_fmap. split.
      * intros [off [Hdc Hoff]].
        apply pieceOffsets_elem in Hoff as [r [c [Hocc ->]]]. cbn in Hdc.
        exists r. by replace 0%nat with c by lia.
      * intros [r Hocc]. exists (Off (Z.of_nat r) 0). split; [done|].
        apply pieceOffsets_elem. by exists r, 0%nat.
    + rewrite Forall_fmap, Forall_forall. intros off Hoff. by apply Hnn.
Qed.

(** The pattern [[0, 1]] has one occupied cell; its only offset is (0, 1),
    so the piece is not normalized. *)
Lemma pieceOffsets_not_normalized :
  validPiecesOf [[[0; 1]]] = [[Off 0 1]] /\ ~ normalized (pieceOffsets [[0; 1]]).
Proof.
  split; [reflexivity|]. intros [_ Hcol]. discriminate Hcol.
Qed.

(** ** [getPermutations] enumerates every ordering *)

Lemma Permutation_short {A} (l arr : list A) :
  (length arr <= 1)%nat -> l ≡ₚ arr -> l = arr.
Proof.
  intros Hlen Hp. destruct arr as [|x [|y arr]]; cbn in Hlen; [| |lia].
  - by apply Permutation_nil_r.
  - by apply Permutation_singleton_r.
Qed.

Lemma permsFuel_complete {A} (fuel : nat) : forall (arr l : list A),
  (length arr <= fuel)%nat -> l ≡ₚ arr -> l ∈ permsFuel fuel arr.
Proof.
  induction fuel as [|fuel IH]; intros arr l Hfuel Hp.
  - cbn. destruct (Nat.leb_spec (length arr) 1); [|lia].
    apply list_elem_of_singleton. by apply Permutation_short.
  - cbn [permsFuel]. destruct (Nat.leb_spec (length arr) 1) as [Hs|Hs].
    { apply list_elem_of_singleton. by apply Permutation_short. }
    destruct l as [|x l'].
    { apply Permutation_length in Hp. cbn in Hp. lia. }
    assert (Hx : x ∈ arr) by (rewrite <- Hp; by left).
    apply list_elem_of_lookup in Hx as [i Hi].
    assert (Hl' : l' ≡ₚ delete i arr).
    { apply (Permutation_cons_inv (a := x)). rewrite Hp.
      by apply delete_Permutation. }
    apply list_elem_of_In, in_concat.
    exists (cons x <$> permsFuel fuel (take i arr ++ drop (S i) arr)). split.
    + apply list_elem_of_In, list_elem_of_fmap. exists i. rewrite Hi. split; [done|].
      apply elem_of_seq. apply lookup_lt_Some in Hi. lia.
    + apply list_elem_of_In, list_elem_of_fmap_2. apply IH.
      * rewrite <- delete_take_drop, length_delete by eauto. lia.
      * by rewrite <- delete_take_drop.
Qed.

(** Any fuel from the length of the array on gives the same result. *)
Lemma permsFuel_enough {A} (fuel : nat) : forall (fuel' : nat) (arr : list A),
  (length arr <= fuel)%nat -> (length arr <= fuel')%nat ->
  permsFuel fuel arr = permsFuel fuel' arr.
Proof.
  induction fuel as [|fuel IH]; intros fuel' arr Hf Hf'.
  - destruct fuel'; cbn [permsFuel];
      destruct (Nat.leb_spec (length arr) 1); done || lia.
  - destruct fuel' as [|fuel']; cbn [permsFuel];
      destruct (Nat.leb_spec (length arr) 1); try (done || lia).
    f_equal. apply list_fmap_ext. intros k i Hi.
    destruct (arr !! i) as [x|] eqn:Hx; [|done]. f_equal.
    rewrite <- delete_take_drop.
    apply IH; rewrite length_delete by eauto; lia.
Qed.

Lemma getPermutations_complete {A} (arr l : list A) :
  l ≡ₚ arr -> l ∈ getPermutations arr.
Proof. intros Hp. by apply permsFuel_complete. Qed.

Lemma permsFuel_sound {A} (fuel : nat) : forall (arr l : list A),
  l ∈ permsFuel fuel arr -> l ≡ₚ arr.
Proof.
  induction fuel as [|fuel IH]; intros arr l Hin.
  - cbn in Hin. destruct (length arr <=? 1)%nat.
    + by apply list_elem_of_singleton in Hin as ->.
    + by apply elem_of_nil in Hin.
  - cbn [permsFuel] in Hin. destruct (length arr <=? 1)%nat.
    { by apply list_elem_of_singleton in Hin as ->. }
    apply list_elem_of_In, in_concat in Hin as [ls [Hls Hl]].
    apply list_elem_of_In, list_elem_of_fmap in Hls as [i [-> Hi]].
    destruct (arr !! i) as [x|] eqn:Hx; [|destruct Hl].
    apply list_elem_of_In, list_elem_of_fmap in Hl as [l' [-> Hl']].
    apply IH in Hl'. rewrite Hl', <- delete_take_drop.
    symmetry. by apply delete_Permutation.
Qed.

(** ** The search keeps the best score *)

Lemma le_best_refl a : le_best a a.
Proof. destruct a; cbn; lia. Qed.

Lemma le_best_trans a b c : le_best a b -> le_best b c -> le_best a c.
Proof. destruct a, b, c; cbn; try done; lia. Qed.

(** A loop whose body only moves the state upwards along [R] establishes,
    for every element it visits, any property that is stable upwards. *)
Lemma foldM_cover {A S} (f : S -> A -> result S) (R : S -> S -> Prop)
    (P : A -> S -> Prop) (l : list A) :
  (forall s, R s s) ->
  (forall s1 s2 s3, R s1 s2 -> R s2 s3 -> R s1 s3) ->
  (forall a s s', P a s -> R s s' -> P a s') ->
  (forall a s, a ∈ l -> exists s', f s a = Ok s' /\ R s s' /\ P a s') ->
  forall s, exists s', foldM f l s = Ok s' /\ R s s' /\ forall a, a ∈ l -> P a s'.
Proof.
  intros Hrefl Htrans Hup. induction l as [|a l IH]; intros Hbody s.
  - exists s. split; [done|]. split; [done|]. by intros a ?%elem_of_nil.
  - destruct (Hbody a s) as [s1 [Hf [HR1 HP1]]]; [by left|].
    destruct IH with (s := s1) as [s2 [Hfold [HR2 HP2]]].
    { intros a' s' Ha'. apply Hbody. by right. }
    exists s2. cbn [foldM]. rewrite Hf. cbn [bind].
    split; [done|]. split; [by eapply Htrans|].
    intros a' [-> | Ha']%elem_of_cons; [by eapply Hup | by apply HP2].
Qed.

Lemma scoreUp_refl st : scoreUp st st.
Proof. apply le_best_refl. Qed.

Lemma scoreUp_trans s1 s2 s3 : scoreUp s1 s2 -> scoreUp s2 s3 -> scoreUp s1 s3.
Proof. apply le_best_trans. Qed.

Lemma improves_refl st : improves st st.
Proof. split; [apply scoreUp_refl | reflexivity]. Qed.

Lemma improves_trans s1 s2 s3 : improves s1 s2 -> improves s2 s3 -> improves s1 s3.
Proof.
  intros [H1 P1] [H2 P2]. split; [by eapply scoreUp_trans | congruence].
Qed.

Lemma board8_score b total :
  board8 b -> calculateStrategyScore b total = Ok (scoreSpec b total).
Proof.
  intros Hb. rewrite (board8_tab b Hb). apply score_tab. by apply board8_binaryTab.
Qed.

Lemma board8_canFit b offs r c :
  board8 b -> Forall nonneg offs -> 0 <= r -> 0 <= c ->
  canFit b offs r c = Ok (forallb (fitsb (cellAt b) r c) offs).
Proof.
  intros Hb Hoff Hr Hc. rewrite (board8_tab b Hb) at 1. by apply canFit_tab.
Qed.

Lemma applyMove_board8 b offs r c :
  board8 b -> Forall (onBoard r c) offs ->
  exists mv, applyMove b offs r c = Ok mv /\ board8 (mv_board mv).
Proof.
  intros Hb Hon. eexists. split; [by apply applyMove_spec|].
  cbn [mv_board]. rewrite placed_tab, clearedBoard_tab.
  apply tab_board8, clearedF_binary, placedF_binary. by apply board8_binaryTab.
Qed.

Lemma beats_le sc best :
  le_best (Some sc)
          (if beats sc best then Some sc else best) /\
  le_best best (if beats sc best then Some sc else best).
Proof.
  destruct best as [s|]; cbn; [|lia].
  destruct (Z.ltb_spec s sc); cbn; lia.
Qed.

Lemma solve_covers vp :
  Forall (Forall nonneg) vp ->
  forall order b total st,
    board8 b -> Forall (fun i => (i < length vp)%nat) order ->
    exists st', solve vp order b total st = Ok st' /\
                improves st st' /\ covered vp order b total st'.
Proof.
  intros Hvp. induction order as [|pIdx rest IH]; intros b total st Hb Hidx.
  - cbn [solve]. rewrite board8_score by done. cbn [bind].
    destruct (beats_le (scoreSpec b total) (bestScore st)) as [H1 H2].
    eexists. split; [reflexivity|]. split.
    + split; [unfold scoreUp|]; by destruct (beats _ _).
    + intros anchors bf tc sc Hrep Hsc. destruct anchors; [|discriminate].
      cbn in Hrep. injection Hrep as <- <-.
      rewrite board8_score in Hsc by done. injection Hsc as <-.
      by destruct (beats _ _).
  - inversion Hidx as [|? ? Hp Hrest]; subst.
    destruct (lookup_lt_is_Some_2 vp pIdx Hp) as [offs Hoffs].
    assert (Hnn : Forall nonneg offs).
    { rewrite Forall_forall in Hvp. apply Hvp. by eapply list_elem_of_lookup_2. }
    cbn [solve]. rewrite Hoffs.
    set (P := fun (r c : Z) (s : search) =>
      forall anchors bf tc sc,
        replay vp (pIdx :: rest) ((r, c) :: anchors) b total = Some (bf, tc) ->
        calculateStrategyScore bf tc = Ok sc ->
        le_best (Some sc) (bestScore s)).
    assert (Hup : forall r c s s', P r c s -> improves s s' -> P r c s').
    { intros r c s s' HP Himp anchors bf tc sc Hrep Hsc.
      eapply le_best_trans; [by eapply HP | apply Himp]. }
    match goal with
    | |- exists st', ?run = Ok st' /\ _ =>
        assert (exists st', run = Ok st' /\ improves st st' /\
                  forall r, r ∈ seqZ 0 8 -> forall c, c ∈ seqZ 0 8 -> P r c st')
          as [st' [Hrun [Himp Hcov]]]
    end.
    { apply (foldM_cover _ improves (fun r s => forall c, c ∈ seqZ 0 8 -> P r c s));
        [apply improves_refl | apply improves_trans | | ].
      { intros r s s' HP Himp c Hc. eapply Hup; eauto. }
      intros r s Hr. apply elem_of_seqZ in Hr.
      apply (foldM_cover _ improves (P r));
        [apply improves_refl | apply improves_trans | apply Hup | ].
      intros c s1 Hc. apply elem_of_seqZ in Hc.
      rewrite board8_canFit by (done || lia). cbn [bind].
      destruct (forallb (fitsb (cellAt b) r c) offs) eqn:Hfit.
      * assert (Hon : Forall (onBoard r c) offs).
        { apply fits_onBoard with (f := cellAt b); done || lia. }
        destruct (applyMove_board8 b offs r c Hb Hon) as [mv [Hmv Hb']].
        rewrite Hmv. cbn [bind].
        edestruct (IH (mv_board mv) (total + mv_cleared mv)) as [st2 [Hs [Hi2 Hc2]]];
          [exact Hb' | exact Hrest |].
        rewrite Hs. cbn [bind]. eexists. split; [reflexivity|].
        split.
        { destruct Hi2 as [Hup2 Hpath2]. split; [exact Hup2|].
          cbn [currentPath] in *. rewrite Hpath2. apply removelast_last. }
        intros anchors bf tc sc Hrep Hsc. cbn [replay] in Hrep.
        rewrite Hoffs in Hrep. destruct (inGrid r c); [|discriminate].
        rewrite board8_canFit, Hfit, Hmv in Hrep by (done || lia).
        cbn [bestScore]. by eapply Hc2.
      * exists s1. split; [reflexivity|]. split; [apply improves_refl|].
        intros anchors bf tc sc Hrep Hsc. cbn [replay] in Hrep.
        rewrite Hoffs in Hrep. destruct (inGrid r c); [|discriminate].
        rewrite board8_canFit, Hfit in Hrep by (done || lia). discriminate. }
    exists st'. split; [exact Hrun|]. split; [exact Himp|].
    intros anchors bf tc sc Hrep Hsc.
    destruct anchors as [|[r c] anchors]; [discriminate|].
    assert (Hg : inGrid r c = true).
    { cbn [replay] in Hrep. rewrite Hoffs in Hrep.
      by destruct (inGrid r c). }
    unfold inGrid in Hg.
    rewrite !andb_true_iff, !Z.leb_le, !Z.ltb_lt in Hg.
    eapply (Hcov r); [| | exact Hrep | exact Hsc]; apply elem_of_seqZ; lia.
Qed.

Lemma covered_up vp order b total s s' :
  covered vp order b total s -> scoreUp s s' -> covered vp order b total s'.
Proof.
  intros Hc Hi anchors bf tc sc Hrep Hsc.
  eapply le_best_trans; [by eapply Hc | exact Hi].
Qed.

Lemma perm_indices (n : nat) (order : list nat) :
  order ≡ₚ seq 0 n -> Forall (fun i => (i < n)%nat) order.
Proof.
  intros Hp. rewrite Forall_forall. intros i Hi.
  rewrite Hp in Hi. apply elem_of_seq in Hi. lia.
Qed.

Lemma runSearch_covers b vp :
  board8 b -> Forall (Forall nonneg) vp ->
  exists st, runSearch b vp = Ok st /\
             forall order, order ≡ₚ seq 0 (length vp) -> covered vp order b 0 st.
Proof.
  intros Hb Hvp. unfold runSearch.
  destruct (foldM_cover
    (fun st pOrder => solve vp pOrder b 0 (Search (bestScore st) (bestSequence st) []))
    scoreUp (fun order s => covered vp order b 0 s)
    (getPermutations (seq 0 (length vp))) scoreUp_refl scoreUp_trans)
    with (s := Search None None []) as [st [Hrun [_ Hcov]]].
  - intros order s s'. apply covered_up.
  - intros order s Hin. apply permsFuel_sound in Hin.
    destruct (solve_covers vp Hvp order b 0
                (Search (bestScore s) (bestSequence s) []) Hb)
      as [st' [Hs [[Hi _] Hc]]]; [by apply perm_indices|].
    exists st'. done.
  - exists st. split; [done|]. intros order Hp. apply Hcov.
    by apply getPermutations_complete.
Qed.

Lemma validPiecesOf_elem pieces offs :
  offs ∈ validPiecesOf pieces <->
  offs <> [] /\ exists p, p ∈ pieces /\ offs = pieceOffsets p.
Proof.
  unfold validPiecesOf. rewrite list_elem_of_In, filter_In, <- list_elem_of_In.
  rewrite list_elem_of_fmap, Nat.ltb_lt. split.
  - intros [[p [-> Hp]] Hlen]. split; [|eauto].
    intros Heq. rewrite Heq in Hlen. cbn in Hlen. lia.
  - intros [Hne [p [Hp ->]]]. split; [eauto|].
    destruct (pieceOffsets p); [done | cbn; lia].
Qed.

Lemma validPiecesOf_nonneg pieces : Forall (Forall nonneg) (validPiecesOf pieces).
Proof.
  rewrite Forall_forall. intros offs Hin.
  apply validPiecesOf_elem in Hin as [_ [p [_ ->]]]. apply pieceOffsets_nonneg.
Qed.




(** ** Scenarios *)

(** C5 (amended).  On the empty board with the single piece [[1]] the
    solver shows one placement step, piece 0 at anchor (0, 0) with 0 lines
    cleared, and the best score is 7293 = 5000 + 1750 (35 empty windows at
    50 each: the placed cell always lies in at least one window) + 480
    (all sixteen lines keep a run of at least five empty cells) + 63. *)
Theorem scenario_single_cell :
  runSearch emptyBoard (validPiecesOf [[[1]]])
    = Ok (Search (Some 7293) (Some [Step 0 0 0 0 emptyBoard [Off 0 0]]) []) /\
  suggestMoves emptyBoard [[[1]]] resetPage
    = Ok (Page false (StepItems [Step 0 0 0 0 emptyBoard [Off 0 0]])) /\
  (exists mv, applyMove emptyBoard [Off 0 0] 0 0 = Ok mv /\
     mv_cleared mv = 0 /\
     emptyWindows (mv_board mv) = 35 /\
     streakRows (mv_board mv) + streakCols (mv_board mv) = 16 /\
     occupiedCells (mv_board mv) = 1) /\
  7293 = 5000 + 50 * 35 + 30 * 16 + 63.
Proof.
  split; [by vm_compute|]. split; [by vm_compute|].
  split; [|reflexivity].
  eexists. split; [by vm_compute|]. by vm_compute.
Qed.

(** The claimed value, 5000 + 1800 + streak bonuses + 63, is not the best
    score, whatever the number of lines that earn the streak bonus. *)
Lemma single_cell_score_is_not_7343 :
  exists st,
    runSearch emptyBoard (validPiecesOf [[[1]]]) = Ok st /\
    forall lines : Z, bestScore st <> Some (5000 + 1800 + 30 * lines + 63).
Proof.
  eexists. split; [by vm_compute|].
  cbn [bestScore]. intros lines [= H]. lia.
Qed.

Lemma validPiecesOf_app l1 l2 :
  validPiecesOf (l1 ++ l2) = validPiecesOf l1 ++ validPiecesOf l2.
Proof. unfold validPiecesOf. by rewrite fmap_app, List.filter_app. Qed.

(** C6 (amended).  For every input, pieces without an occupied cell never
    reach the search.  The list the filter keeps holds exactly the
    non-empty offset lists of the input patterns: a pattern without
    offsets contributes nothing to it and a pattern with offsets
    contributes its offsets, in its place between the pieces kept before
    it and those kept after it.  When some piece is kept, the search runs
    on the kept pieces only and the page is rendered for their number.  No
    piece is kept exactly when every input pattern is without an occupied
    cell; [suggestMoves] then returns at once, with no search and without
    touching the page: neither the steps nor the "No solution found."
    message is rendered. *)
Theorem empty_pieces_return_silently (b : board) (pieces : list pattern) (ui : page) :
  (forall offs, offs ∈ validPiecesOf pieces <->
     offs <> [] /\ exists p, p ∈ pieces /\ offs = pieceOffsets p) /\
  (forall front p back, pieces = front ++ p :: back ->
     validPiecesOf pieces
     = validPiecesOf front
       ++ match pieceOffsets p with [] => [] | _ :: _ => [pieceOffsets p] end
       ++ validPiecesOf back) /\
  (validPiecesOf pieces <> [] ->
   suggestMoves b pieces ui
   = (let* st := runSearch b (validPiecesOf pieces) in
      Ok (renderSuggestions (bestSequence st) (length (validPiecesOf pieces)) ui))) /\
  (Forall (fun p => pieceOffsets p = []) pieces <-> validPiecesOf pieces = []) /\
  (validPiecesOf pieces = [] -> suggestMoves b pieces ui = Ok ui).
Proof.
  split; [apply validPiecesOf_elem|].
  split.
  { intros front p back ->. rewrite validPiecesOf_app. f_equal.
    change (p :: back) with ([p] ++ back). rewrite validPiecesOf_app. f_equal.
    unfold validPiecesOf. cbn [fmap list_fmap List.filter].
    by destruct (pieceOffsets p). }
  split.
  { intros Hsome. unfold suggestMoves.
    destruct (validPiecesOf pieces) as [|offs vp]; [done | reflexivity]. }
  split.
  - split.
    + intros Hall.
      destruct (validPiecesOf pieces) as [|offs vp] eqn:E; [done|].
      assert (Hin : offs ∈ validPiecesOf pieces) by (rewrite E; by left).
      apply validPiecesOf_elem in Hin as [Hne [p [Hp ->]]].
      rewrite Forall_forall in Hall. by specialize (Hall p Hp).
    + intros Hnil. rewrite Forall_forall. intros p Hp.
      destruct (pieceOffsets p) as [|off l] eqn:E; [done|].
      assert (Hin : pieceOffsets p ∈ validPiecesOf pieces).
      { apply validPiecesOf_elem. split; [by rewrite E | eauto]. }
      rewrite Hnil in Hin. by apply elem_of_nil in Hin.
  - intros Hnil. unfold suggestMoves. by rewrite Hnil.
Qed.

Lemma empty_pieces_return_silently_witness :
  validPiecesOf [[[0; 0]; [0; 0]]; []] = [] /\
  suggestMoves fullBoard [[[0; 0]; [0; 0]]; []] resetPage = Ok resetPage /\
  validPiecesOf [[[0; 0]]; [[0; 1]]; []; [[1]]]
  = [[Off 0 1]; [Off 0 0]].
Proof.
  destruct (empty_pieces_return_silently fullBoard [[[0; 0]; [0; 0]]; []] resetPage)
    as [_ [_ [_ [Hnone Hsilent]]]].
  assert (Hnil : validPiecesOf [[[0; 0]; [0; 0]]; []] = [])
    by (apply Hnone; repeat constructor).
  split; [exact Hnil|]. split; [exact (Hsilent Hnil)|].
  destruct (empty_pieces_return_silently
              emptyBoard [[[0; 0]]; [[0; 1]]; []; [[1]]] resetPage)
    as [_ [Hsplit _]].
  rewrite (Hsplit [] [[0; 0]] [[[0; 1]]; []; [[1]]] eq_refl). reflexivity.
Defined.

(** With an empty piece as the only piece the page keeps its state after
    [resetAppUI] (panel hidden, list blank), whereas a search without a
    complete assignment shows the "No solution found." message. *)
Lemma empty_piece_is_not_no_solution :
  suggestMoves emptyBoard [[[0]]] resetPage = Ok resetPage /\
  suggestionsList resetPage <> NoSolutionFound /\
  suggestMoves fullBoard [[[1]]] resetPage = Ok (Page false NoSolutionFound).
Proof.
  split; [reflexivity|]. split; [discriminate|]. by vm_compute.
Qed.

(** ** The colour classifier *)

Section ClassifierFacts.
Context {num dist : Type} `{Arith num dist}.

Implicit Types (cells : list (cell num)) (points : list (point num)).

Lemma cons_eq_inv {A} (a b : A) (l k : list A) :
  a :: l = b :: k -> a = b /\ l = k.
Proof. by intros [= -> ->]. Qed.

(** *** One assignment round relabels every sample *)

Lemma assignRound_prefix points cA cB assign k :
  length assign = length points -> (k <= length points)%nat ->
  fst (foldl (assignStep points cA cB) (assign, false) (seq 0 k))
  = (nextLabel cA cB <$> take k points) ++ drop k assign.
Proof.
  intros Hlen. induction k as [|k IH]; intros Hk.
  - cbn. by rewrite take_0, drop_0.
  - rewrite seq_S, foldl_snoc. cbn [Nat.add].
    destruct (foldl _ _ (seq 0 k)) as [cur ch] eqn:Hfold.
    cbn [fst] in IH. specialize (IH ltac:(lia)). subst cur.
    destruct (lookup_lt_is_Some_2 points k) as [p Hp]; [lia|].
    destruct (lookup_lt_is_Some_2 assign k) as [a Ha]; [lia|].
    assert (Hl : length (nextLabel cA cB <$> take k points) = k).
    { rewrite length_fmap, length_take. lia. }
    unfold assignStep. rewrite Hp. cbn [fst].
    rewrite (take_S_r _ _ _ Hp), fmap_app, <- app_assoc. cbn [fmap list_fmap app].
    rewrite (drop_S _ _ _ Ha).
    destruct (decide _) as [Heq|Hne].
    + cbn [fst]. rewrite lookup_app_r, Hl, Nat.sub_diag in Heq by lia.
      cbn in Heq. congruence.
    + cbn [fst]. rewrite insert_app_r_alt, Hl, Nat.sub_diag by lia. reflexivity.
Qed.

Lemma assignRound_labels points cA cB assign :
  length assign = length points ->
  fst (assignRound points cA cB assign) = nextLabel cA cB <$> points.
Proof.
  intros Hlen. unfold assignRound.
  rewrite assignRound_prefix by (done || lia).
  rewrite firstn_all, drop_ge by lia. by rewrite app_nil_r.
Qed.

Lemma nextLabel_binary cA cB p : nextLabel cA cB p = 0 \/ nextLabel cA cB p = 1.
Proof. unfold nextLabel. destruct (dlt _ _); [by left | by right]. Qed.

(** After at least one round the labels are those of the last round's
    centres. *)
Lemma rounds_labels iters : forall points cA cB assign,
  length assign = length points -> (0 < iters)%nat ->
  exists cA' cB', rounds iters points cA cB assign = nextLabel cA' cB' <$> points.
Proof.
  induction iters as [|n IH]; intros points cA cB assign Hlen Hpos; [lia|].
  cbn [rounds].
  pose proof (assignRound_labels points cA cB assign Hlen) as Hl.
  destruct (assignRound points cA cB assign) as [assign' changed].
  cbn [fst] in Hl. subst assign'. destruct changed; [|eauto].
  destruct n as [|n]; [cbn; eauto|].
  apply IH; [by rewrite length_fmap | lia].
Qed.

(** *** The seeds *)

Lemma insertCell_perm x l : insertCell x l ≡ₚ x :: l.
Proof.
  induction l as [|y l IH]; [done|]. cbn [insertCell].
  destruct (nneg _); [|done]. rewrite IH. apply perm_swap.
Qed.

Lemma sortCells_perm cells : sortCells cells ≡ₚ cells.
Proof.
  induction cells as [|x l IH]; [done|].
  cbn [sortCells foldr]. fold (sortCells l).
  by rewrite insertCell_perm, IH.
Qed.

Lemma seeds_Ok cells :
  cells <> [] ->
  exists a b, head (sortCells cells) = Some a /\ last (sortCells cells) = Some b /\
              seeds cells = Ok (color a, color b).
Proof.
  intros Hne.
  assert (Hs : sortCells cells <> []).
  { intros Hnil. apply Hne. apply Permutation_nil_r.
    rewrite <- Hnil. symmetry. apply sortCells_perm. }
  unfold seeds.
  destruct (head (sortCells cells)) as [a|] eqn:Ha;
    [|by apply head_None in Ha].
  destruct (last (sortCells cells)) as [b|] eqn:Hb;
    [|by apply last_is_Some in Hs as [? ?]; congruence].
  eauto.
Qed.

(** The sort looks at brightness only. *)
Lemma insertCell_samples x x' l l' :
  sampleOf x = sampleOf x' -> sampleOf <$> l = sampleOf <$> l' ->
  sampleOf <$> insertCell x l = sampleOf <$> insertCell x' l'.
Proof.
  intros Hx. revert l'. induction l as [|y l IH]; intros [|y' l'] Hl;
    try discriminate.
  - cbn. by rewrite Hx.
  - cbn [fmap list_fmap] in Hl. apply cons_eq_inv in Hl as [Hy Hl].
    cbn [insertCell].
    assert (Hbx : brightness x = brightness x') by exact (f_equal snd Hx).
    assert (Hby : brightness y = brightness y') by exact (f_equal snd Hy).
    rewrite Hbx, Hby. destruct (nneg _).
    + cbn [fmap list_fmap]. f_equal; [done|]. by apply IH.
    + cbn [fmap list_fmap]. by rewrite Hx, Hy, Hl.
Qed.

Lemma sortCells_samples cells cells' :
  sampleOf <$> cells = sampleOf <$> cells' ->
  sampleOf <$> sortCells cells = sampleOf <$> sortCells cells'.
Proof.
  revert cells'. induction cells as [|x l IH]; intros [|x' l'] Hs;
    try discriminate; [done|].
  cbn [fmap list_fmap] in Hs. apply cons_eq_inv in Hs as [Hx Hl].
  cbn [sortCells foldr]. apply insertCell_samples; [done|]. by apply IH.
Qed.

Lemma seeds_samples cells cells' :
  sampleOf <$> cells = sampleOf <$> cells' -> seeds cells = seeds cells'.
Proof.
  intros Hs. apply sortCells_samples in Hs. unfold seeds.
  assert (Hh : sampleOf <$> head (sortCells cells)
               = sampleOf <$> head (sortCells cells')).
  { destruct (sortCells cells), (sortCells cells'); try discriminate; [done|].
    cbn [fmap list_fmap] in Hs. apply cons_eq_inv in Hs as [Hs _].
    cbn. by rewrite Hs. }
  assert (Hl : sampleOf <$> last (sortCells cells)
               = sampleOf <$> last (sortCells cells')).
  { by rewrite <- !fmap_last, Hs. }
  destruct (head (sortCells cells)), (head (sortCells cells'));
    try discriminate; [|done].
  destruct (last (sortCells cells)), (last (sortCells cells'));
    try discriminate; [|done].
  apply (inj Some) in Hh. apply (inj Some) in Hl.
  by rewrite (f_equal fst Hh : color _ = color _),
             (f_equal fst Hl : color _ = color _).
Qed.

Lemma colors_samples cells cells' :
  sampleOf <$> cells = sampleOf <$> cells' -> color <$> cells = color <$> cells'.
Proof.
  intros Hs.
  change (color <$> cells) with ((fst ∘ sampleOf) <$> cells).
  change (color <$> cells') with ((fst ∘ sampleOf) <$> cells').
  by rewrite !list_fmap_compose, Hs.
Qed.
End ClassifierFacts.

Section ClassifierClaims.
Context {num dist : Type} `{Arith num dist}.

Implicit Types (cells : list (cell num)) (points : list (point num)).

Lemma labels_samples cells cells' :
  sampleOf <$> cells' = sampleOf <$> cells -> labels cells' = labels cells.
Proof.
  intros Hs. unfold labels, kMeansCluster.
  rewrite (seeds_samples _ _ Hs), (colors_samples _ _ Hs).
  assert (Hlen : length cells' = length cells).
  { apply (f_equal length) in Hs. by rewrite !length_fmap in Hs. }
  rewrite Hlen. destruct (seeds cells) as [cAB|e]; [|reflexivity].
  cbn [bind]. f_equal. rewrite !fmap_imap.
  change (fun n => groupId ∘ _) with
    (fun (n : nat) (_ : cell num) =>
       rounds 10 (color <$> cells) (fst cAB) (snd cAB)
              (replicate (length cells) 0) !! n).
  by rewrite !imap_seq_0, Hlen.
Qed.

(** C9.  On 64 samples the classifier returns normally with exactly 64
    classified cells, one per input cell and in the same order, each
    labelled 0 or 1; and the labels are a function of the samples'
    colours and brightnesses alone: any input with the same samples gets
    the same labels. *)
Theorem classifier_labels_64 cells :
  length cells = 64%nat ->
  exists out,
    kMeansCluster cells = Ok out /\
    length out = 64%nat /\
    sample <$> out = cells /\
    Forall (fun o => groupId o = Some 0 \/ groupId o = Some 1) out /\
    forall cells', sampleOf <$> cells' = sampleOf <$> cells ->
      labels cells' = Ok (groupId <$> out).
Proof.
  intros Hlen.
  assert (Hne : cells <> []) by (intros ->; discriminate).
  destruct (seeds_Ok cells Hne) as [a [b [_ [_ Hseeds]]]].
  destruct (rounds_labels 10 (color <$> cells) (color a) (color b)
              (replicate (length cells) 0))
    as [cA [cB Hrounds]];
    [by rewrite length_replicate, length_fmap | lia |].
  assert (Hrun : kMeansCluster cells
            = Ok (imap (fun i c =>
                    Classified c ((nextLabel cA cB <$> (color <$> cells)) !! i))
                  cells)).
  { unfold kMeansCluster. rewrite Hseeds. cbn [bind fst snd]. by rewrite Hrounds. }
  eexists. split; [exact Hrun|]. split; [by rewrite length_imap|].
  split; [|split].
  - rewrite fmap_imap. rewrite <- (list_fmap_id cells) at 2.
    rewrite <- (imap_const id). reflexivity.
  - rewrite Forall_forall. intros o Ho.
    apply elem_of_lookup_imap in Ho as [i [c [-> Hc]]]. cbn [groupId].
    rewrite !list_lookup_fmap, Hc. cbn.
    destruct (nextLabel_binary cA cB (color c)) as [-> | ->]; [by left | by right].
  - intros cells' Hs. rewrite (labels_samples _ _ Hs).
    unfold labels. rewrite Hrun. reflexivity.
Qed.

(** *** Ties *)

Hypothesis dlt_irrefl : forall d : dist, dlt d d = false.
Hypothesis nneg_asym :
  forall x y : num, nneg (nsub x y) = true -> nneg (nsub y x) = false.
Hypothesis nneg_trans :
  forall x y z : num,
    nneg (nsub y x) = false -> nneg (nsub z y) = false -> nneg (nsub z x) = false.

Lemma notAfter_refl (x : cell num) : notAfter x x.
Proof.
  unfold notAfter.
  destruct (nneg (nsub (brightness x) (brightness x))) eqn:E; [|done].
  by rewrite (nneg_asym _ _ E) in E.
Qed.

Lemma insertCell_Forall (P : cell num -> Prop) x l :
  P x -> Forall P l -> Forall P (insertCell x l).
Proof.
  intros Hx Hl. rewrite insertCell_perm. by constructor.
Qed.

Lemma insertCell_sorted x l :
  StronglySorted notAfter l -> StronglySorted notAfter (insertCell x l).
Proof.
  induction 1 as [|y l Hs IH Hy]; cbn [insertCell].
  - repeat constructor.
  - destruct (nneg (nsub (brightness y) (brightness x))) eqn:E.
    + constructor; [exact IH|].
      apply insertCell_Forall; [|exact Hy]. by apply nneg_asym.
    + constructor; [by constructor|]. constructor; [exact E|].
      eapply Forall_impl; [exact Hy|]. intros z Hz.
      unfold notAfter in *. by eapply nneg_trans.
Qed.

Lemma sortCells_sorted cells : StronglySorted notAfter (sortCells cells).
Proof.
  induction cells as [|x l IH]; [constructor|].
  cbn [sortCells foldr]. by apply insertCell_sorted.
Qed.

Lemma sorted_head (l : list (cell num)) a :
  StronglySorted notAfter l -> head l = Some a ->
  forall c, c ∈ l -> notAfter a c.
Proof.
  intros Hs Ha c Hc. destruct Hs as [|y l Hs Hy]; [discriminate|].
  cbn in Ha. injection Ha as ->.
  apply elem_of_cons in Hc as [-> | Hc]; [apply notAfter_refl|].
  rewrite Forall_forall in Hy. by apply Hy.
Qed.

Lemma sorted_last (l : list (cell num)) b :
  StronglySorted notAfter l -> last l = Some b ->
  forall c, c ∈ l -> notAfter c b.
Proof.
  induction 1 as [|y l Hs IH Hy]; intros Hb c Hc; [discriminate|].
  rewrite last_cons in Hb. destruct (last l) as [b'|] eqn:Hl.
  - injection Hb as ->. apply elem_of_cons in Hc as [-> | Hc]; [|by apply IH].
    rewrite Forall_forall in Hy. apply Hy. by apply last_Some_elem_of.
  - injection Hb as ->. apply last_None in Hl. subst l.
    apply list_elem_of_singleton in Hc as ->. apply notAfter_refl.
Qed.

(** C7 (amended).  In every assignment round a sample whose distances to
    the two centres are equal is assigned to cluster 1; cluster 1 is the
    one seeded from the brightest cell (no cell compares strictly after
    it in brightness) and cluster 0 the one seeded from the darkest. *)
Theorem tie_assigned_to_cluster_1 :
  (forall points cA cB assign j p,
     length assign = length points -> points !! j = Some p ->
     distance p cA = distance p cB ->
     fst (assignRound points cA cB assign) !! j = Some 1) /\
  (forall cells, cells <> [] ->
     exists dark bright,
       seeds cells = Ok (color dark, color bright) /\
       dark ∈ cells /\ bright ∈ cells /\
       forall c, c ∈ cells -> notAfter dark c /\ notAfter c bright).
Proof.
  split.
  - intros points cA cB assign j p Hlen Hp Htie.
    rewrite assignRound_labels, list_lookup_fmap, Hp by done. cbn.
    unfold nextLabel. by rewrite Htie, dlt_irrefl.
  - intros cells Hne.
    destruct (seeds_Ok cells Hne) as [a [b [Ha [Hb Hseeds]]]].
    pose proof (sortCells_sorted cells) as Hsorted.
    pose proof (sortCells_perm cells) as Hperm.
    exists a, b. split; [exact Hseeds|]. split; [|split].
    + rewrite <- Hperm. destruct (sortCells cells); [discriminate|].
      cbn in Ha. injection Ha as ->. by left.
    + rewrite <- Hperm. by apply last_Some_elem_of.
    + intros c Hc. rewrite <- Hperm in Hc. split.
      * by eapply sorted_head.
      * by eapply sorted_last.
Qed.
End ClassifierClaims.

(** *** The classifier in exact arithmetic *)

Lemma exact_dlt_irrefl (d : Q) : dlt d d = false.
Proof.
  cbn. apply negb_false_iff, Qle_bool_iff. apply Qle_refl.
Qed.

Lemma exact_nneg (x y : Q) : nneg (nsub x y) = false <-> (y <= x)%Q.
Proof.
  cbn. rewrite negb_false_iff, Qle_bool_iff, Qred_correct. split; intros Hle; lra.
Qed.

Lemma exact_nneg_asym (x y : Q) :
  nneg (nsub x y) = true -> nneg (nsub y x) = false.
Proof.
  intros Hxy. apply exact_nneg.
  destruct (Qlt_le_dec x y) as [Hlt|Hle]; [lra|].
  apply exact_nneg in Hle. congruence.
Qed.

Lemma exact_nneg_trans (x y z : Q) :
  nneg (nsub y x) = false -> nneg (nsub z y) = false -> nneg (nsub z x) = false.
Proof. rewrite !exact_nneg. intros Hxy Hyz. lra. Qed.

Lemma tie_assigned_to_cluster_1_witness :
  fst (assignRound (color <$> tieCells)
         (Point (inject_Z 0) (inject_Z 0) (inject_Z 0))
         (Point (inject_Z 10) (inject_Z 10) (inject_Z 10))
         (replicate 64 0)) !! 63%nat = Some 1 /\
  exists dark bright,
    seeds tieCells = Ok (color dark, color bright) /\
    dark ∈ tieCells /\ bright ∈ tieCells /\
    forall c, c ∈ tieCells -> notAfter dark c /\ notAfter c bright.
Proof.
  destruct (tie_assigned_to_cluster_1 exact_dlt_irrefl exact_nneg_asym exact_nneg_trans)
    as [Htie Hseeds].
  split.
  - apply (Htie _ _ _ _ 63%nat
             (Point (inject_Z 5) (inject_Z 5) (inject_Z 5))); reflexivity.
  - apply Hseeds. discriminate.
Defined.

(** In [tieCells] the last cell is at equal distance from both seeds; the
    darkest cell seeds cluster 0, yet the cell is labelled 1, in the first
    round and in the result. *)
Lemma tie_not_assigned_to_dark_cluster :
  exists cA cB c out,
    seeds tieCells = Ok (cA, cB) /\
    head (sortCells tieCells) = Some (gridCell 0 0 0 0 0) /\
    cA = color (gridCell 0 0 0 0 0) /\
    tieCells !! 63%nat = Some c /\
    distance (color c) cA = distance (color c) cB /\
    nextLabel cA cB (color c) = 1 /\
    kMeansCluster tieCells = Ok out /\
    groupId <$> out !! 63%nat = Some (Some 1).
Proof.
  do 4 eexists. repeat split; by vm_compute.
Qed.

Lemma classifier_labels_64_witness :
  exists out,
    kMeansCluster tieCells = Ok out /\
    length out = 64%nat /\
    sample <$> out = tieCells /\
    Forall (fun o => groupId o = Some 0 \/ groupId o = Some 1) out /\
    forall cells', sampleOf <$> cells' = sampleOf <$> tieCells ->
      labels cells' = Ok (groupId <$> out).
Proof.
  apply (classifier_labels_64 tieCells). reflexivity.
Defined.

(** ** [processFigureSlot] *)

Lemma unionBox_found contours : forall bb,
  foundAny (foldl unionStep bb contours)
  = foundAny bb || existsb (fun c => Qgtb (barea c) (inject_Z 40)) contours.
Proof.
  induction contours as [|c l IH]; intros bb; cbn [foldl existsb].
  - by rewrite orb_false_r.
  - rewrite IH. unfold unionStep.
    destruct (Qgtb (barea c) (inject_Z 40)); cbn [foundAny orb];
      [by rewrite orb_true_r | reflexivity].
Qed.

Lemma insertZ_perm x l : insertZ x l ≡ₚ x :: l.
Proof.
  induction l as [|y l IH]; [done|]. cbn [insertZ].
  destruct (y <? x); [|done]. rewrite IH. apply perm_swap.
Qed.

Lemma sortZ_perm l : sortZ l ≡ₚ l.
Proof.
  induction l as [|x l IH]; [done|].
  cbn [sortZ foldr]. fold (sortZ l). by rewrite insertZ_perm, IH.
Qed.

Lemma filter_none {A} (f : A -> bool) l :
  Forall (fun x => f x = false) l -> List.filter f l = [].
Proof.
  induction 1 as [|x l Hx _ IH]; [done|]. cbn [List.filter]. by rewrite Hx.
Qed.

Lemma dimsOf_elem contours d :
  d ∈ dimsOf contours ->
  exists c, c ∈ contours /\ Qgtb (barea c) (inject_Z 20) = true /\
            (d = bwidth c \/ d = bheight c).
Proof.
  unfold dimsOf. rewrite list_elem_of_In, in_concat.
  intros [l [Hl Hd]]. apply list_elem_of_In, list_elem_of_fmap in Hl as [c [-> Hc]].
  exists c. split; [done|].
  destruct (Qgtb (barea c) (inject_Z 20)); [|destruct Hd].
  split; [done|]. cbn in Hd. intuition.
Qed.

(** [Math.round(n / 50)] on an integer [n]. *)
Lemma jsRound_div50 (n : Z) : jsRound (inject_Z n / inject_Z 50) = (n + 25) / 50.
Proof.
  unfold jsRound, Qfloor. cbn.
  change (Z.pos (1 * 50)) with 50. change (Z.pos (1 * 50 * 2)) with (2 * 50).
  replace (n * 1 * 2 + 1 * 50) with (2 * (n + 25)) by lia.
  apply Z.div_mul_cancel_l; lia.
Qed.

(** C10.  When some contour passes the area-above-40 filter and no contour
    that passes the area-above-20 filter is wider or taller than 12 px,
    the base unit is the default 50 px, and the grid is
    columns = round(figW / 50) and rows = round(figH / 50), each clamped
    to 1..5; on the integer footprint, round(n / 50) is (n + 25) div 50. *)
Theorem default_unit_grid (contours : list blob) (slotX yStart w h : Z) :
  Exists (fun c => Qgtb (barea c) (inject_Z 40) = true) contours ->
  Forall (fun c => Qgtb (barea c) (inject_Z 20) = true ->
                   bwidth c <= 12 /\ bheight c <= 12) contours ->
  baseUnitOf contours = inject_Z 50 /\
  cols (processFigureSlot contours slotX yStart w h)
    = clamp15 (jsRound (inject_Z (figW contours w h) / inject_Z 50)) /\
  rows (processFigureSlot contours slotX yStart w h)
    = clamp15 (jsRound (inject_Z (figH contours w h) / inject_Z 50)) /\
  cols (processFigureSlot contours slotX yStart w h)
    = clamp15 ((figW contours w h + 25) / 50) /\
  rows (processFigureSlot contours slotX yStart w h)
    = clamp15 ((figH contours w h + 25) / 50).
Proof.
  intros Hbig Hsmall.
  assert (Hfound : foundAny (unionBox contours w h) = true).
  { unfold unionBox. rewrite unionBox_found. cbn [foundAny orb].
    apply existsb_exists. apply Exists_exists in Hbig as [c [Hc Ha]].
    exists c. split; [by apply list_elem_of_In | done]. }
  assert (Hcand : candidatesOf contours = []).
  { unfold candidatesOf. apply filter_none.
    rewrite Forall_forall. intros d Hd. rewrite sortZ_perm in Hd.
    apply dimsOf_elem in Hd as [c [Hc [Ha Hdim]]].
    rewrite Forall_forall in Hsmall. specialize (Hsmall c Hc Ha).
    apply Z.ltb_ge. lia. }
  assert (Hunit : baseUnitOf contours = inject_Z 50).
  { unfold baseUnitOf. by rewrite Hcand. }
  split; [exact Hunit|].
  unfold processFigureSlot. rewrite Hfound, Hunit. cbn [cols rows].
  unfold gridDim, clamp15, figW, figH. rewrite <- !jsRound_div50. done.
Qed.

Lemma default_unit_grid_witness :
  baseUnitOf [Blob 10 20 9 9 (inject_Z 64); Blob 130 24 8 8 (inject_Z 49)]
    = inject_Z 50 /\
  cols (processFigureSlot
          [Blob 10 20 9 9 (inject_Z 64); Blob 130 24 8 8 (inject_Z 49)] 0 600 200 150)
    = 3 /\
  rows (processFigureSlot
          [Blob 10 20 9 9 (inject_Z 64); Blob 130 24 8 8 (inject_Z 49)] 0 600 200 150)
    = 1.
Proof.
  destruct (default_unit_grid
              [Blob 10 20 9 9 (inject_Z 64); Blob 130 24 8 8 (inject_Z 49)]
              0 600 200 150) as [Hunit [Hcols [Hrows _]]].
  - left. reflexivity.
  - repeat constructor; cbn; lia.
  - split; [exact Hunit|]. split; [exact Hcols | exact Hrows].
Defined.

(** * Further properties of the strategy engine *)

(** ** The best sequence is a legal play *)

Lemma bind_Ok_inv {A B} (m : result A) (k : A -> result B) b :
  bind m k = Ok b -> exists a, m = Ok a /\ k a = Ok b.
Proof. destruct m as [a|e]; cbn; [eauto | discriminate]. Qed.

Lemma foldM_inv {A S} (f : S -> A -> result S) (I : S -> Prop) (l : list A) :
  (forall s a s', a ∈ l -> I s -> f s a = Ok s' -> I s') ->
  forall s s', I s -> foldM f l s = Ok s' -> I s'.
Proof.
  induction l as [|a l IH]; intros Hbody s s' Hs Hrun.
  - cbn in Hrun. by injection Hrun as <-.
  - cbn [foldM] in Hrun. apply bind_Ok_inv in Hrun as [s1 [Hf Hrun]].
    eapply IH; [| |exact Hrun].
    + intros s0 a0 s0' Ha0. apply Hbody. by right.
    + eapply Hbody; [by left | exact Hs | exact Hf].
Qed.

Lemma legalSteps_snoc vp b t path b1 t1 s mv :
  legalSteps vp b t path b1 t1 ->
  vp !! pieceIdx s = Some (offsets s) ->
  boardBefore s = b1 ->
  inGrid (row s) (col s) = true ->
  canFit b1 (offsets s) (row s) (col s) = Ok true ->
  applyMove b1 (offsets s) (row s) (col s) = Ok mv ->
  cleared s = mv_cleared mv ->
  legalSteps vp b t (path ++ [s]) (mv_board mv) (t1 + mv_cleared mv).
Proof.
  intros Hpath Hp Hb Hg Hfit Hmv Hcl.
  induction Hpath as [b t | b t s0 steps mv0 bf tc H1 H2 H3 H4 H5 H6 _ IH].
  - cbn [app]. eapply legal_cons; eauto. constructor.
  - cbn [app]. eapply legal_cons; eauto.
Qed.

Lemma legalSteps_replay vp b t steps bf tc :
  legalSteps vp b t steps bf tc ->
  replay vp (pieceIdx <$> steps) (anchorOf <$> steps) b t = Some (bf, tc).
Proof.
  induction 1 as [b t | b t s steps mv bf tc H1 H2 H3 H4 H5 H6 _ IH];
    [reflexivity|].
  cbn [fmap list_fmap replay anchorOf]. by rewrite H1, H3, H4, H5.
Qed.

Lemma soundBest_ext vp b0 st st' :
  bestScore st' = bestScore st -> bestSequence st' = bestSequence st ->
  soundBest vp b0 st -> soundBest vp b0 st'.
Proof. unfold soundBest. intros -> ->. done. Qed.

Lemma inGrid_seqZ r c : r ∈ seqZ 0 8 -> c ∈ seqZ 0 8 -> inGrid r c = true.
Proof.
  intros Hr%elem_of_seqZ Hc%elem_of_seqZ. unfold inGrid.
  rewrite !andb_true_iff, !Z.leb_le, !Z.ltb_lt. lia.
Qed.

(** [solve] keeps what has been found sound and leaves [currentPath] as it
    got it, whenever it returns. *)
Lemma solve_sound vp b0 : forall pieceIndices b total st st',
  soundBest vp b0 st ->
  legalSteps vp b0 0 (currentPath st) b total ->
  (pieceIdx <$> currentPath st) ++ pieceIndices ≡ₚ seq 0 (length vp) ->
  solve vp pieceIndices b total st = Ok st' ->
  soundBest vp b0 st' /\ currentPath st' = currentPath st.
Proof.
  induction pieceIndices as [|pIdx rest IH]; intros b total st st' Hs Hpath Hperm Hrun.
  - cbn [solve] in Hrun. apply bind_Ok_inv in Hrun as [sc [Hsc Hrun]].
    injection Hrun as <-. destruct (beats sc (bestScore st)); [|done].
    split; [|done]. right. exists (currentPath st), b, total, sc.
    cbn [bestSequence bestScore]. rewrite app_nil_r in Hperm. done.
  - cbn [solve] in Hrun.
    destruct (vp !! pIdx) as [offs|] eqn:Hoffs; [|discriminate].
    revert Hrun.
    apply (foldM_inv _ (fun s => soundBest vp b0 s /\ currentPath s = currentPath st));
      [|done].
    intros s1 r s1' Hr Hs1.
    apply (foldM_inv _ (fun s => soundBest vp b0 s /\ currentPath s = currentPath st));
      [|done].
    intros s2 c s2' Hc [Hs2 Hp2] Hbody.
    apply bind_Ok_inv in Hbody as [fit [Hfit Hbody]].
    destruct fit; [|by injection Hbody as <-].
    apply bind_Ok_inv in Hbody as [mv [Hmv Hbody]].
    apply bind_Ok_inv in Hbody as [st3 [Hsolve Hbody]].
    injection Hbody as <-.
    apply IH in Hsolve as [Hs3 Hp3].
    + split; [by eapply soundBest_ext; [| |exact Hs3]|].
      cbn [currentPath] in *. by rewrite Hp3, removelast_last.
    + by eapply soundBest_ext; [| |exact Hs2].
    + cbn [currentPath]. rewrite Hp2.
      apply (legalSteps_snoc vp b0 0 (currentPath st) b total
               (Step pIdx r c (mv_cleared mv) ((fun row => row) <$> b) offs) mv);
        cbn [pieceIdx offsets boardBefore row col cleared]; try done.
      * apply (list_fmap_id b).
      * by apply inGrid_seqZ.
    + cbn [currentPath]. rewrite Hp2, fmap_app, <- app_assoc. exact Hperm.
Qed.

Lemma runSearch_sound b vp st :
  runSearch b vp = Ok st -> soundBest vp b st.
Proof.
  unfold runSearch. apply (foldM_inv _ (soundBest vp b)).
  - intros s order s' Hin Hs Hrun. apply permsFuel_sound in Hin.
    eapply (solve_sound vp b order b 0); [| | |exact Hrun].
    + by eapply soundBest_ext; [| |exact Hs].
    + constructor.
    + cbn [currentPath fmap list_fmap app]. exact Hin.
  - left. done.
Qed.

Lemma suggestMoves_outcome b pieces ui :
  board8 b -> validPiecesOf pieces <> [] ->
  exists st,
    runSearch b (validPiecesOf pieces) = Ok st /\
    suggestMoves b pieces ui
      = Ok (renderSuggestions (bestSequence st) (length (validPiecesOf pieces)) ui) /\
    soundBest (validPiecesOf pieces) b st /\
    forall order, order ≡ₚ seq 0 (length (validPiecesOf pieces)) ->
                  covered (validPiecesOf pieces) order b 0 st.
Proof.
  intros Hb Hne.
  destruct (runSearch_covers b _ Hb (validPiecesOf_nonneg pieces)) as [st [Hrun Hcov]].
  exists st. split; [exact Hrun|]. split; [|split; [by apply runSearch_sound | exact Hcov]].
  unfold suggestMoves. destruct (validPiecesOf pieces) as [|offs vp]; [done|].
  cbn [length Nat.eqb]. by rewrite Hrun.
Qed.

Lemma perm_steps_length (steps : list step) n :
  pieceIdx <$> steps ≡ₚ seq 0 n -> length steps = n.
Proof.
  intros Hp. apply Permutation_length in Hp.
  by rewrite length_fmap, length_seq in Hp.
Qed.

(** X1.  The sequence the search keeps is never an invention: when the
    search ends it holds either nothing (no score, no sequence) or a
    sequence with one step per valid piece, each piece used once, that is
    a legal play from the input board (every [boardBefore] is the board
    the step is played on, every anchor passes [canFit], every [cleared]
    is what [applyMove] reports), and the best score is the score of the
    board and cleared total that this play ends with. *)
Theorem best_sequence_is_legal_play (b : board) (pieces : list pattern) :
  board8 b ->
  let vp := validPiecesOf pieces in
  exists st,
    runSearch b vp = Ok st /\
    ((bestScore st = None /\ bestSequence st = None) \/
     exists steps bf tc sc,
       bestSequence st = Some steps /\ bestScore st = Some sc /\
       length steps = length vp /\
       pieceIdx <$> steps ≡ₚ seq 0 (length vp) /\
       legalSteps vp b 0 steps bf tc /\
       replay vp (pieceIdx <$> steps) (anchorOf <$> steps) b 0 = Some (bf, tc) /\
       calculateStrategyScore bf tc = Ok sc).
Proof.
  intros Hb vp.
  destruct (runSearch_covers b vp Hb (validPiecesOf_nonneg pieces)) as [st [Hrun _]].
  exists st. split; [exact Hrun|].
  destruct (runSearch_sound b vp st Hrun) as [Hnone | Hsome]; [by left|].
  destruct Hsome as [steps [bf [tc [sc [H1 [H2 [H3 [H4 H5]]]]]]]].
  right. exists steps, bf, tc, sc.
  repeat split; try done; [by apply perm_steps_length | by apply legalSteps_replay].
Qed.

Lemma best_sequence_is_legal_play_witness :
  exists st,
    runSearch crossBoard (validPiecesOf crossPieces) = Ok st /\
    ((bestScore st = None /\ bestSequence st = None) \/
     exists steps bf tc sc,
       bestSequence st = Some steps /\ bestScore st = Some sc /\
       length steps = length (validPiecesOf crossPieces) /\
       pieceIdx <$> steps ≡ₚ seq 0 (length (validPiecesOf crossPieces)) /\
       legalSteps (validPiecesOf crossPieces) crossBoard 0 steps bf tc /\
       replay (validPiecesOf crossPieces) (pieceIdx <$> steps) (anchorOf <$> steps)
              crossBoard 0 = Some (bf, tc) /\
       calculateStrategyScore bf tc = Ok sc).
Proof.
  apply (best_sequence_is_legal_play crossBoard crossPieces).
  by apply board8b_sound.
Defined.



(** X3.  When no valid piece fits at any anchor of the input board, the
    solver shows "No solution found.": an ordering has to start with some
    piece on the unchanged board. *)
Theorem no_piece_fits_no_solution (b : board) (pieces : list pattern) (ui : page) :
  board8 b -> validPiecesOf pieces <> [] ->
  (forall offs r c, offs ∈ validPiecesOf pieces -> inGrid r c = true ->
                    canFit b offs r c <> Ok true) ->
  suggestMoves b pieces ui = Ok (Page false NoSolutionFound).
Proof.
  intros Hb Hne Hnofit.
  destruct (suggestMoves_outcome b pieces ui Hb Hne) as [st [_ [Hshow [Hsound _]]]].
  rewrite Hshow.
  destruct Hsound as [[_ Hseq] | [steps [bf [tc [sc [Hseq [_ [Hlegal [_ Hperm]]]]]]]]].
  { by rewrite Hseq. }
  exfalso. destruct Hlegal as [b t | b t s steps mv bf tc H1 H2 H3 H4 H5 H6 _].
  - apply perm_steps_length in Hperm. cbn in Hperm.
    destruct (validPiecesOf pieces); [done | discriminate].
  - apply (Hnofit (offsets s) (row s) (col s)); [|done|done].
    by eapply list_elem_of_lookup_2.
Qed.

Lemma no_piece_fits_no_solution_witness :
  suggestMoves fullBoard [[[1]]] resetPage = Ok (Page false NoSolutionFound).
Proof.
  apply no_piece_fits_no_solution.
  - by apply board8b_sound.
  - discriminate.
  - intros offs r c Hin Hg.
    change (validPiecesOf [[[1]]]) with [[Off 0 0]] in Hin.
    apply list_elem_of_singleton in Hin. subst offs.
    unfold inGrid in Hg. rewrite !andb_true_iff, !Z.leb_le, !Z.ltb_lt in Hg.
    assert (Hr : r = 0 \/ r = 1 \/ r = 2 \/ r = 3 \/ r = 4 \/ r = 5 \/ r = 6 \/ r = 7)
      by lia.
    assert (Hc : c = 0 \/ c = 1 \/ c = 2 \/ c = 3 \/ c = 4 \/ c = 5 \/ c = 6 \/ c = 7)
      by lia.
    clear Hg.
    repeat (destruct Hr as [-> | Hr]); try subst r;
      repeat (destruct Hc as [-> | Hc]); try subst c; discriminate.
Defined.

(** ** The board through a play *)

Lemma canFit_fits b offs r c :
  board8 b -> Forall nonneg offs -> 0 <= r -> 0 <= c ->
  canFit b offs r c = Ok true ->
  forall off, off ∈ offs ->
    onBoard r c off /\
    cellAt b (Z.to_nat (r + dr off)) (Z.to_nat (c + dc off)) = 0.
Proof.
  intros Hb Hoff Hr Hc Hfit off Hin.
  rewrite board8_canFit in Hfit by done. injection Hfit as Hfit.
  rewrite forallb_forall in Hfit. specialize (Hfit off).
  rewrite Forall_forall in Hoff. destruct (Hoff off Hin) as [Hdr Hdc].
  apply list_elem_of_In in Hin. specialize (Hfit Hin). unfold fitsb in Hfit.
  rewrite !andb_true_iff, !Z.ltb_lt, negb_true_iff, Z.eqb_neq in Hfit.
  split; [unfold onBoard; lia|].
  destruct (board8_cell b (Z.to_nat (r + dr off)) (Z.to_nat (c + dc off)) Hb);
    [lia | lia | done | tauto].
Qed.

Lemma inGrid_bounds r c : inGrid r c = true -> 0 <= r < 8 /\ 0 <= c < 8.
Proof.
  unfold inGrid. rewrite !andb_true_iff, !Z.leb_le, !Z.ltb_lt. lia.
Qed.

(** Every step of a legal play from an 8x8 binary board is played on an
    8x8 binary board. *)
Lemma legalSteps_boards vp b t steps bf tc :
  board8 b -> Forall (Forall nonneg) vp ->
  legalSteps vp b t steps bf tc ->
  board8 bf /\
  Forall (fun s => board8 (boardBefore s) /\ Forall nonneg (offsets s) /\
                   inGrid (row s) (col s) = true /\
                   canFit (boardBefore s) (offsets s) (row s) (col s) = Ok true)
         steps.
Proof.
  intros Hb Hvp Hlegal.
  induction Hlegal as [b t | b t s steps mv bf tc H1 H2 H3 H4 H5 H6 _ IH];
    [by split|].
  assert (Hnn : Forall nonneg (offsets s)).
  { rewrite Forall_forall in Hvp. apply Hvp. by eapply list_elem_of_lookup_2. }
  destruct (inGrid_bounds _ _ H3) as [Hr Hc].
  assert (Hon : Forall (onBoard (row s) (col s)) (offsets s)).
  { apply (canFit_onBoard b); done || lia. }
  destruct (applyMove_board8 b _ _ _ Hb Hon) as [mv' [Hmv' Hb']].
  assert (mv' = mv) by congruence. subst mv'.
  destruct (IH Hb') as [Hbf Hall]. split; [done|].
  constructor; [|done]. by rewrite H2.
Qed.

(** X4.  In the mini grid of every step the solver shows, a cell inside
    the grid is drawn without error; it is drawn as the new piece exactly
    when an offset of the step lands on it, and such a cell is always
    empty in [boardBefore]: the overlay never hides an existing block. *)
Theorem overlay_only_on_empty_cells (b : board) (pieces : list pattern) (ui : page)
    (steps : list step) (s : step) (r c : Z) :
  board8 b -> validPiecesOf pieces <> [] ->
  suggestMoves b pieces ui = Ok (Page false (StepItems steps)) ->
  s ∈ steps -> inGrid r c = true ->
  sugCell s r c
    = Ok (if covers (offsets s) (row s) (col s) (Z.to_nat r) (Z.to_nat c)
          then NewPiece
          else if cellZ (boardBefore s) r c =? 0 then EmptyCell else Existing) /\
  (covers (offsets s) (row s) (col s) (Z.to_nat r) (Z.to_nat c) = true ->
   cellZ (boardBefore s) r c = 0).
Proof.
  intros Hb Hne Hshow Hs Hg.
  destruct (suggestMoves_outcome b pieces ui Hb Hne) as [st [_ [Hshow' [Hsound _]]]].
  rewrite Hshow in Hshow'.
  destruct Hsound as [[_ Hseq] | [steps' [bf [tc [sc [Hseq [_ [Hlegal [_ Hperm]]]]]]]]].
  { rewrite Hseq in Hshow'. discriminate. }
  rewrite Hseq in Hshow'. cbn [renderSuggestions] in Hshow'.
  rewrite (perm_steps_length _ _ Hperm), Nat.eqb_refl in Hshow'.
  assert (steps' = steps) by congruence. subst steps'.
  destruct (legalSteps_boards _ _ _ _ _ _ Hb (validPiecesOf_nonneg pieces) Hlegal)
    as [_ Hall].
  rewrite Forall_forall in Hall.
  destruct (Hall s Hs) as [Hbb [Hnn [Hgs Hfit]]].
  destruct (inGrid_bounds _ _ Hg) as [Hr Hc].
  destruct (inGrid_bounds _ _ Hgs) as [Hrs Hcs].
  assert (Hsame :
    existsb (fun off => (row s + dr off =? r) && (col s + dc off =? c)) (offsets s)
    = covers (offsets s) (row s) (col s) (Z.to_nat r) (Z.to_nat c)).
  { unfold covers. by rewrite !Z2Nat.id by lia. }
  split.
  - unfold sugCell. rewrite Hsame. destruct (covers _ _ _ _ _); [done|].
    rewrite (board8_tab _ Hbb). rewrite getRow_tab by done. cbn [bind].
    rewrite idx_row by done. unfold cellZ. rewrite tab_cell by lia. done.
  - intros Hcov. unfold covers in Hcov.
    apply existsb_exists in Hcov as [off [Hin Heq]].
    rewrite andb_true_iff, !Z.eqb_eq, !Z2Nat.id in Heq by lia.
    destruct Heq as [<- <-]. unfold cellZ.
    apply (canFit_fits (boardBefore s) (offsets s)); try done; try lia.
    by apply list_elem_of_In.
Qed.

Lemma overlay_only_on_empty_cells_witness :
  sugCell (Step 0 0 0 2 crossBoard [Off 0 0]) 0 0 = Ok NewPiece /\
  cellZ crossBoard 0 0 = 0.
Proof.
  destruct (overlay_only_on_empty_cells crossBoard crossPieces resetPage crossSteps
              (Step 0 0 0 2 crossBoard [Off 0 0]) 0 0) as [Hcell Hempty].
  - by apply board8b_sound.
  - discriminate.
  - by vm_compute.
  - by left.
  - reflexivity.
  - split; [exact Hcell | by apply Hempty].
Defined.

(** X5.  A legal placement keeps the data-model invariant and leaves no
    line to clear: the board [applyMove] returns is again an 8x8 binary
    board, the number of cleared lines is between 0 and 16, and running the
    full-line detection on the returned board finds no full row and no
    full column. *)
Theorem applyMove_leaves_no_full_line (b : board) (offs : list offset) (r c : Z) :
  board8 b -> Forall nonneg offs -> inGrid r c = true ->
  canFit b offs r c = Ok true ->
  exists mv,
    applyMove b offs r c = Ok mv /\
    board8 (mv_board mv) /\
    0 <= mv_cleared mv <= 16 /\
    fullLines (mv_board mv) = Ok ([], []).
Proof.
  intros Hb Hnn Hg Hfit. destruct (inGrid_bounds _ _ Hg) as [Hr Hc].
  assert (Hon : Forall (onBoard r c) offs).
  { apply (canFit_onBoard b); done || lia. }
  pose proof (board8_binaryTab b Hb) as Hbin.
  pose proof (placedF_binary _ offs r c Hbin) as Hp.
  set (p := placedF (cellAt b) offs r c) in *.
  exists (Moved (tab (clearedF p))
                (countb (rowFullF p) (seq 0 8) + countb (colFullF p) (seq 0 8))).
  split; [rewrite (board8_tab b Hb) at 1; by apply applyMove_tab|].
  cbn [mv_board mv_cleared].
  split; [by apply tab_board8, clearedF_binary|]. split.
  - unfold countb.
    pose proof (filter_length_le (rowFullF p) (seq 0 8)) as H1.
    pose proof (filter_length_le (colFullF p) (seq 0 8)) as H2.
    rewrite length_seq in H1, H2. lia.
  - rewrite fullLines_tab by (by apply clearedF_binary).
    assert (Hrow : forall i, (i < 8)%nat -> rowFullF (clearedF p) i = false).
    { intros i Hi. apply not_true_is_false. intros Hfull.
      unfold rowFullF in Hfull. rewrite forallb_forall in Hfull.
      assert (Hall : forall j, (j < 8)%nat -> clearedF p i j = 1).
      { intros j Hj. apply Z.eqb_eq, Hfull, in_seq. lia. }
      assert (Hpfull : rowFullF p i = true).
      { apply forallb_forall. intros j Hj%in_seq. apply Z.eqb_eq.
        specialize (Hall j ltac:(lia)). unfold clearedF in Hall.
        destruct (rowFullF p i || colFullF p j); [discriminate | done]. }
      specialize (Hall 0%nat ltac:(lia)). unfold clearedF in Hall.
      rewrite Hpfull in Hall. discriminate. }
    assert (Hcol : forall j, (j < 8)%nat -> colFullF (clearedF p) j = false).
    { intros j Hj. apply not_true_is_false. intros Hfull.
      unfold colFullF in Hfull. rewrite forallb_forall in Hfull.
      assert (Hall : forall i, (i < 8)%nat -> clearedF p i j = 1).
      { intros i Hi. apply Z.eqb_eq, Hfull, in_seq. lia. }
      assert (Hpfull : colFullF p j = true).
      { apply forallb_forall. intros i Hi%in_seq. apply Z.eqb_eq.
        specialize (Hall i ltac:(lia)). unfold clearedF in Hall.
        destruct (rowFullF p i || colFullF p j); [discriminate | done]. }
      specialize (Hall 0%nat ltac:(lia)). unfold clearedF in Hall.
      rewrite Hpfull, orb_true_r in Hall. discriminate. }
    f_equal. f_equal; apply filter_none; rewrite Forall_forall;
      intros i Hi%elem_of_seqZ; [apply Hrow | apply Hcol]; lia.
Qed.

Lemma applyMove_leaves_no_full_line_witness :
  exists mv,
    applyMove crossBoard [Off 0 0] 0 0 = Ok mv /\
    board8 (mv_board mv) /\
    0 <= mv_cleared mv <= 16 /\
    fullLines (mv_board mv) = Ok ([], []).
Proof.
  apply applyMove_leaves_no_full_line.
  - by apply board8b_sound.
  - repeat constructor; cbn; lia.
  - reflexivity.
  - reflexivity.
Defined.

(** ** The orderings *)

Lemma length_concat_const {A B} (f : A -> list B) (l : list A) (k : nat) :
  Forall (fun x => length (f x) = k) l ->
  length (concat (f <$> l)) = (length l * k)%nat.
Proof.
  induction 1 as [|x l Hx _ IH]; [reflexivity|].
  cbn [fmap list_fmap concat length]. rewrite length_app, Hx, IH. lia.
Qed.

Lemma permsFuel_length {A} (fuel : nat) : forall (arr : list A),
  (length arr <= fuel)%nat -> length (permsFuel fuel arr) = fact (length arr).
Proof.
  induction fuel as [|fuel IH]; intros arr Hf.
  - destruct arr; [reflexivity | cbn in Hf; lia].
  - cbn [permsFuel]. destruct (Nat.leb_spec (length arr) 1) as [Hs|Hs].
    { destruct arr as [|x [|y arr]]; cbn in Hs; [reflexivity | reflexivity | lia]. }
    rewrite (length_concat_const _ _ (fact (length arr - 1))).
    + rewrite length_seq. destruct (length arr) as [|n]; [lia|].
      cbn [fact]. replace (S n - 1)%nat with n by lia. lia.
    + rewrite Forall_forall. intros i Hi%elem_of_seq.
      destruct (lookup_lt_is_Some_2 arr i) as [x Hx]; [lia|].
      rewrite Hx, length_fmap, <- delete_take_drop, IH;
        rewrite length_delete by eauto; [done | lia].
Qed.

Lemma NoDup_concat_fmap {A B} (f : A -> list B) (l : list A) :
  NoDup l ->
  (forall x, x ∈ l -> NoDup (f x)) ->
  (forall x y z, x ∈ l -> y ∈ l -> z ∈ f x -> z ∈ f y -> x = y) ->
  NoDup (concat (f <$> l)).
Proof.
  induction 1 as [|x l Hx Hl IH]; intros Hnd Hdisj; [constructor|].
  cbn [fmap list_fmap concat]. apply NoDup_app. split; [|split].
  - apply Hnd. by left.
  - intros z Hz Hz'. apply list_elem_of_In, in_concat in Hz' as [k [Hk Hzk]].
    apply list_elem_of_In, list_elem_of_fmap in Hk as [y [-> Hy]].
    apply list_elem_of_In in Hzk.
    assert (x = y) by (eapply Hdisj; [by left | by right | done | done]).
    subst y. done.
  - apply IH.
    + intros y Hy. apply Hnd. by right.
    + intros y1 y2 z H1 H2. apply Hdisj; by right.
Qed.

Lemma permsFuel_NoDup {A} (fuel : nat) : forall (arr : list A),
  NoDup arr -> NoDup (permsFuel fuel arr).
Proof.
  induction fuel as [|fuel IH]; intros arr Harr.
  - cbn. destruct (length arr <=? 1)%nat; [apply NoDup_singleton | constructor].
  - cbn [permsFuel]. destruct (length arr <=? 1)%nat; [apply NoDup_singleton|].
    apply NoDup_concat_fmap.
    + apply NoDup_seq.
    + intros i Hi. destruct (arr !! i) as [x|] eqn:Hx; [|constructor].
      apply (NoDup_fmap_2 _). apply IH.
      rewrite <- delete_take_drop.
      eapply sublist_NoDup; [exact Harr | apply sublist_delete].
    + intros i j l Hi Hj Hli Hlj.
      destruct (arr !! i) as [x|] eqn:Hx; [|by apply elem_of_nil in Hli].
      destruct (arr !! j) as [y|] eqn:Hy; [|by apply elem_of_nil in Hlj].
      apply list_elem_of_fmap in Hli as [l1 [-> _]].
      apply list_elem_of_fmap in Hlj as [l2 [Heq _]].
      injection Heq as -> _.
      eapply NoDup_lookup; eauto.
Qed.

Lemma permsFuel_head {A} (fuel : nat) : forall (arr : list A),
  (length arr <= fuel)%nat -> head (permsFuel fuel arr) = Some arr.
Proof.
  induction fuel as [|fuel IH]; intros arr Hf.
  - destruct arr; [reflexivity | cbn in Hf; lia].
  - cbn [permsFuel]. destruct (Nat.leb_spec (length arr) 1) as [Hs|Hs]; [reflexivity|].
    destruct arr as [|x arr]; [cbn in Hs; lia|].
    cbn [length seq fmap list_fmap concat lookup list_lookup take drop app].
    rewrite drop_0.
    specialize (IH arr ltac:(cbn in Hf; lia)).
    destruct (permsFuel fuel arr) as [|l ls]; [discriminate|].
    cbn in IH. injection IH as ->. reflexivity.
Qed.

(** X6.  [getPermutations] lists exactly the orderings of its input: every
    entry is a permutation of the array and every permutation of the array
    is an entry; there are n! entries; the first entry is the array in its
    given order; and when the elements are distinct no ordering is listed
    twice. *)
Theorem getPermutations_exact {A} (arr : list A) :
  (forall l, l ∈ getPermutations arr <-> l ≡ₚ arr) /\
  length (getPermutations arr) = fact (length arr) /\
  head (getPermutations arr) = Some arr /\
  (NoDup arr -> NoDup (getPermutations arr)).
Proof.
  split; [|split; [|split]].
  - intros l. split; [apply permsFuel_sound | apply getPermutations_complete].
  - by apply permsFuel_length.
  - by apply permsFuel_head.
  - apply permsFuel_NoDup.
Qed.

Lemma getPermutations_exact_witness :
  NoDup (getPermutations [0; 1; 2]%nat) /\
  length (getPermutations [0; 1; 2]%nat) = 6%nat.
Proof.
  destruct (getPermutations_exact [0; 1; 2]%nat) as [_ [Hlen [_ Hnd]]].
  split; [|exact Hlen]. apply Hnd. apply NoDup_seq with (j := 0%nat) (n := 3%nat).
Defined.

(** ** The score *)

Lemma foldM_shift {A} (f : Z -> A -> result Z) (k : Z) (l : list A) :
  (forall s a, f (s + k) a = shiftR k (f s a)) ->
  forall s, foldM f l (s + k) = shiftR k (foldM f l s).
Proof.
  intros Hf. induction l as [|a l IH]; intros s; [reflexivity|].
  cbn [foldM]. rewrite Hf. destruct (f s a) as [s1|e]; cbn [shiftR bind]; [|done].
  apply IH.
Qed.

Lemma windowBonus_shift b k s : windowBonus b (s + k) = shiftR k (windowBonus b s).
Proof.
  unfold windowBonus. apply foldM_shift. intros s1 r.
  apply foldM_shift. intros s2 c.
  destruct (windowEmpty b r c (seqZ 0 3)) as [[|]|e]; cbn [bind shiftR];
    try done.
  f_equal. lia.
Qed.

Lemma streakBonus_shift b k s : streakBonus b (s + k) = shiftR k (streakBonus b s).
Proof.
  unfold streakBonus. apply foldM_shift. intros s1 i.
  destruct (foldM (streakStep b i) (seqZ 0 8) (Streak 0 0 0 0)) as [st|e];
    cbn [bind shiftR]; [|done].
  destruct (_ >=? 5), (_ >=? 5); f_equal; lia.
Qed.

(** X7.  Each cleared line is worth exactly 200 points, on any board and
    whatever else the score holds: with [k] more cleared lines the
    function returns the earlier score plus [200 * k], and throws where it
    threw before. *)
Theorem score_cleared_line_is_200 (b : board) (totalCleared k : Z) :
  calculateStrategyScore b (totalCleared + k)
  = shiftR (200 * k) (calculateStrategyScore b totalCleared).
Proof.
  unfold calculateStrategyScore.
  replace (5000 + (totalCleared + k) * 200)
    with (5000 + totalCleared * 200 + 200 * k) by lia.
  rewrite windowBonus_shift.
  destruct (windowBonus b (5000 + totalCleared * 200)) as [s1|e];
    cbn [shiftR bind]; [|done].
  rewrite streakBonus_shift.
  destruct (streakBonus b s1) as [s2|e]; cbn [shiftR bind]; [|done].
  f_equal. lia.
Qed.

Lemma countZ_bounds {A} (p : A -> bool) (l : list A) :
  0 <= countZ p l <= Z.of_nat (length l).
Proof.
  unfold countZ. pose proof (filter_length_le p l). lia.
Qed.

Lemma binary_cells_zero (f : nat -> nat -> Z) :
  binaryTab f ->
  countZ (fun rc => cellZ (tab f) (fst rc) (snd rc) =? 1) boardCells = 0 ->
  forall i j, (i < 8)%nat -> (j < 8)%nat -> f i j = 0.
Proof.
  intros Hf Hzero i j Hi Hj.
  destruct (Hf i j Hi Hj) as [H0 | H1]; [done|]. exfalso.
  unfold countZ in Hzero.
  assert (Hin : In (Z.of_nat i, Z.of_nat j)
                   (List.filter (fun rc => cellZ (tab f) (fst rc) (snd rc) =? 1)
                                boardCells)).
  { apply filter_In. split.
    - apply in_prod; apply list_elem_of_In, elem_of_seqZ; lia.
    - cbn [fst snd]. rewrite cellZ_tab, !Nat2Z.id by lia. by apply Z.eqb_eq. }
  destruct (List.filter _ boardCells); [destruct Hin | cbn in Hzero; lia].
Qed.

(** X8.  On an 8x8 binary board the score lies between
    5000 + 200 * totalCleared and 7344 + 200 * totalCleared (the heuristic
    bonuses add at most 36 * 50 + 16 * 30 + 64), and the upper bound is
    reached on the empty board only. *)
Theorem score_bounds (b : board) (totalCleared : Z) :
  board8 b ->
  exists s,
    calculateStrategyScore b totalCleared = Ok s /\
    5000 + 200 * totalCleared <= s <= 7344 + 200 * totalCleared /\
    (s = 7344 + 200 * totalCleared <-> b = emptyBoard).
Proof.
  intros Hb. exists (scoreSpec b totalCleared).
  split; [by apply board8_score|].
  pose proof (countZ_bounds (windowClear b) windowAnchors) as Hw.
  pose proof (countZ_bounds (fun i => 5 <=? longestRun (rowCells b i)) (seqZ 0 8)) as Hr.
  pose proof (countZ_bounds (fun j => 5 <=? longestRun (colCells b j)) (seqZ 0 8)) as Hc.
  pose proof (countZ_bounds (fun rc => cellZ b (fst rc) (snd rc) =? 1) boardCells) as Ho.
  change (Z.of_nat (length windowAnchors)) with 36 in Hw.
  change (Z.of_nat (length (seqZ 0 8))) with 8 in Hr, Hc.
  change (Z.of_nat (length boardCells)) with 64 in Ho.
  unfold scoreSpec, emptyWindows, streakRows, streakCols, occupiedCells.
  split; [lia|]. split.
  - intros Hmax.
    assert (Hzero : countZ (fun rc => cellZ b (fst rc) (snd rc) =? 1) boardCells = 0)
      by lia.
    rewrite (board8_tab b Hb) in Hzero |- *.
    change emptyBoard with (tab (fun _ _ => 0)). apply tab_ext.
    by apply binary_cells_zero; [apply board8_binaryTab|].
  - intros ->.
    replace (countZ (windowClear emptyBoard) windowAnchors) with 36
      by (by vm_compute).
    replace (countZ (fun i => 5 <=? longestRun (rowCells emptyBoard i)) (seqZ 0 8))
      with 8 by (by vm_compute).
    replace (countZ (fun j => 5 <=? longestRun (colCells emptyBoard j)) (seqZ 0 8))
      with 8 by (by vm_compute).
    replace (countZ (fun rc => cellZ emptyBoard (fst rc) (snd rc) =? 1) boardCells)
      with 0 by (by vm_compute).
    lia.
Qed.

Lemma score_bounds_witness :
  exists s,
    calculateStrategyScore crossBoard 2 = Ok s /\
    5000 + 200 * 2 <= s <= 7344 + 200 * 2 /\
    (s = 7344 + 200 * 2 <-> crossBoard = emptyBoard).
Proof.
  apply (score_bounds crossBoard 2). by apply board8b_sound.
Defined.

(** * Further properties of the classifier *)

Section ClassifierMore.
Context {num dist : Type} `{Arith num dist}.

Implicit Types (cells : list (cell num)) (points : list (point num)).

(** The result of a run on a non-empty input, in closed form. *)
Lemma kMeansCluster_run cells :
  cells <> [] ->
  exists cA cB,
    kMeansCluster cells
    = Ok ((fun c => Classified c (Some (nextLabel cA cB (color c)))) <$> cells).
Proof.
  intros Hne.
  destruct (seeds_Ok cells Hne) as [a [b [_ [_ Hseeds]]]].
  destruct (rounds_labels 10 (color <$> cells) (color a) (color b)
              (replicate (length cells) 0))
    as [cA [cB Hrounds]];
    [by rewrite length_replicate, length_fmap | lia |].
  exists cA, cB. unfold kMeansCluster. rewrite Hseeds. cbn [bind fst snd].
  rewrite Hrounds. f_equal.
  etransitivity;
    [|apply (imap_const (fun c => Classified c (Some (nextLabel cA cB (color c)))))].
  apply imap_ext.
  intros i c Hc. cbn [const]. by rewrite !list_lookup_fmap, Hc.
Qed.

(** X9.  The classifier throws exactly on the empty input.  On any other
    input, of whatever length, it returns one classified cell per input
    cell, in the input order and with the input sample unchanged, every
    label is 0 or 1, and two cells of the same colour always get the same
    label. *)
Theorem classifier_any_length cells :
  (cells = [] -> kMeansCluster cells = Raise TypeError) /\
  (cells <> [] ->
   exists out,
     kMeansCluster cells = Ok out /\
     length out = length cells /\
     sample <$> out = cells /\
     Forall (fun o => groupId o = Some 0 \/ groupId o = Some 1) out /\
     forall o1 o2, o1 ∈ out -> o2 ∈ out ->
       color (sample o1) = color (sample o2) -> groupId o1 = groupId o2).
Proof.
  split; [by intros ->|]. intros Hne.
  destruct (kMeansCluster_run cells Hne) as [cA [cB Hrun]].
  eexists. split; [exact Hrun|]. split; [by rewrite length_fmap|].
  split; [|split].
  - rewrite <- list_fmap_compose. rewrite <- (list_fmap_id cells) at 2.
    by apply list_fmap_ext.
  - rewrite Forall_fmap, Forall_forall. intros c _. cbn.
    destruct (nextLabel_binary cA cB (color c)) as [-> | ->]; [by left | by right].
  - intros o1 o2 [c1 [-> _]]%list_elem_of_fmap [c2 [-> _]]%list_elem_of_fmap Hcol.
    cbn in *. by rewrite Hcol.
Qed.

Lemma assignRound_changed points cA cB assign k :
  length assign = length points -> (k <= length points)%nat ->
  snd (foldl (assignStep points cA cB) (assign, false) (seq 0 k)) = false
  <-> nextLabel cA cB <$> take k points = take k assign.
Proof.
  intros Hlen. induction k as [|k IH]; intros Hk.
  - cbn. by rewrite !take_0.
  - rewrite seq_S, foldl_snoc. cbn [Nat.add].
    pose proof (assignRound_prefix points cA cB assign k Hlen ltac:(lia)) as Hfst.
    specialize (IH ltac:(lia)).
    destruct (foldl _ _ (seq 0 k)) as [cur ch]. cbn [fst snd] in *. subst cur.
    destruct (lookup_lt_is_Some_2 points k) as [p Hp]; [lia|].
    destruct (lookup_lt_is_Some_2 assign k) as [a Ha]; [lia|].
    assert (Hl : length (nextLabel cA cB <$> take k points) = k).
    { rewrite length_fmap, length_take. lia. }
    assert (Hcur : ((nextLabel cA cB <$> take k points) ++ drop k assign) !! k = Some a).
    { rewrite lookup_app_r, Hl, Nat.sub_diag, (drop_S _ _ _ Ha) by lia. done. }
    unfold assignStep. rewrite Hp. cbn [fst]. rewrite Hcur.
    rewrite (take_S_r _ _ _ Hp), (take_S_r _ _ _ Ha), fmap_app.
    cbn [fmap list_fmap].
    destruct (decide (Some a = Some (nextLabel cA cB p))) as [Heq|Hne]; cbn [snd].
    + injection Heq as <-. rewrite IH. split; [by intros -> |].
      intros Happ. apply app_inj_2 in Happ as [Happ _]; done.
    + split; [discriminate|]. intros Happ.
      apply app_inj_2 in Happ as [_ Happ]; [|done]. congruence.
Qed.

(** X10.  An assignment round reports a change exactly when it changed a
    label: [changed] stays false if and only if every sample already had
    the label of its nearer centre, so the loop stops at the first round
    that leaves the assignment as it was. *)
Theorem round_changed_iff points cA cB assign :
  length assign = length points ->
  (snd (assignRound points cA cB assign) = false
   <-> fst (assignRound points cA cB assign) = assign) /\
  (snd (assignRound points cA cB assign) = false ->
   forall n, rounds (S n) points cA cB assign = assign).
Proof.
  intros Hlen.
  pose proof (assignRound_labels points cA cB assign Hlen) as Hfst.
  assert (Hsnd : snd (assignRound points cA cB assign) = false
                 <-> nextLabel cA cB <$> points = assign).
  { unfold assignRound. rewrite assignRound_changed by (done || lia).
    by rewrite firstn_all, <- Hlen, firstn_all. }
  split.
  - by rewrite Hfst.
  - intros Hstable n. cbn [rounds].
    destruct (assignRound points cA cB assign) as [assign' changed].
    cbn [fst snd] in *. subst changed. rewrite Hfst. by apply Hsnd.
Qed.

Lemma foldl_unchanged {A B} (f : A -> B -> A) (l : list B) (a : A) :
  Forall (fun x => f a x = a) l -> foldl f a l = a.
Proof.
  induction 1 as [|x l Hx _ IH]; [reflexivity|]. cbn [foldl]. by rewrite Hx.
Qed.

(** X11.  A cluster without members gets the centre (0, 0, 0): when no
    sample carries the label [group], [avgPoint] returns the zero point
    and divides nothing. *)
Theorem avgPoint_empty_group points (assign : list Z) (group : Z) :
  (forall i, (i < length points)%nat -> assign !! i <> Some group) ->
  avgPoint points assign group = Point nzero nzero nzero.
Proof.
  intros Hnone. unfold avgPoint. rewrite foldl_unchanged; [reflexivity|].
  rewrite Forall_forall. intros [i p] Hin.
  apply elem_of_lookup_imap in Hin as [j [q [[= -> ->] Hq]]]. cbn [fst].
  destruct (decide _) as [Heq|]; [|done].
  exfalso. apply (Hnone j); [by eapply lookup_lt_Some | done].
Qed.
End ClassifierMore.

Lemma classifier_any_length_witness :
  exists out,
    kMeansCluster tieCells = Ok out /\
    length out = length tieCells /\
    sample <$> out = tieCells /\
    Forall (fun o => groupId o = Some 0 \/ groupId o = Some 1) out /\
    forall o1 o2, o1 ∈ out -> o2 ∈ out ->
      color (sample o1) = color (sample o2) -> groupId o1 = groupId o2.
Proof.
  apply (classifier_any_length tieCells). discriminate.
Defined.

Lemma round_changed_iff_witness :
  snd (assignRound (color <$> tieCells)
         (Point (inject_Z 0) (inject_Z 0) (inject_Z 0))
         (Point (inject_Z 10) (inject_Z 10) (inject_Z 10)) (replicate 64 0)) = false
  <-> fst (assignRound (color <$> tieCells)
         (Point (inject_Z 0) (inject_Z 0) (inject_Z 0))
         (Point (inject_Z 10) (inject_Z 10) (inject_Z 10)) (replicate 64 0))
      = replicate 64 0.
Proof.
  apply round_changed_iff. reflexivity.
Defined.

Lemma avgPoint_empty_group_witness :
  avgPoint (color <$> tieCells) (replicate 64 0) 1 = Point 0%Q 0%Q 0%Q.
Proof.
  refine (avgPoint_empty_group (H := exactArith) (color <$> tieCells)
            (replicate 64 0) 1 _).
  intros i Hi. change (length (color <$> tieCells)) with 64%nat in Hi.
  rewrite lookup_replicate_2 by lia. discriminate.
Defined.

(** * From the samples to the board *)

Section GridFacts.
Context {num dist : Type} `{Arith num dist}.
Variable luma : num -> num -> num -> num.
Variable mean : Z -> Z -> point num.

Lemma markCells_tab (out : list (classified num)) : forall f,
  Forall (fun o => 0 <= cellRow (sample o) < 8 /\ 0 <= cellCol (sample o) < 8) out ->
  foldM markCell out (tab f)
  = Ok (tab (fun i j => if marked out i j then 1 else f i j)).
Proof.
  induction out as [|o out IH]; intros f Hpos; [reflexivity|].
  inversion Hpos as [|? ? [Hr Hc] Hrest]; subst.
  cbn [foldM]. unfold markCell at 1. unfold marked. cbn [existsb]. fold (marked out).
  destruct (is1 (groupId o)); cbn [andb orb bind].
  - rewrite setCell_tab by done. cbn [bind]. rewrite IH by done. f_equal.
    apply tab_ext. intros i j Hi Hj. unfold upd.
    change (existsb _ out) with (marked out i j).
    destruct (marked out i j); [by rewrite orb_true_r|]. rewrite orb_false_r.
    destruct (Nat.eqb_spec i (Z.to_nat (cellRow (sample o))));
      destruct (Nat.eqb_spec j (Z.to_nat (cellCol (sample o))));
      destruct (Z.eqb_spec (cellRow (sample o)) (Z.of_nat i));
      destruct (Z.eqb_spec (cellCol (sample o)) (Z.of_nat j));
      cbn [andb]; try done; lia.
  - by apply IH.
Qed.

Lemma cellsData_elem (c : cell num) :
  c ∈ cellsData luma mean ->
  0 <= cellRow c < 8 /\ 0 <= cellCol c < 8 /\
  c = Cell (cellRow c) (cellCol c) (mean (cellRow c) (cellCol c))
           (luma (pr (mean (cellRow c) (cellCol c))) (pg (mean (cellRow c) (cellCol c)))
                 (pb (mean (cellRow c) (cellCol c)))).
Proof.
  unfold cellsData. intros [[r k] [-> Hrc]]%list_elem_of_fmap.
  apply list_elem_of_In, in_prod_iff in Hrc as [Hr Hk].
  apply list_elem_of_In, elem_of_seqZ in Hr.
  apply list_elem_of_In, elem_of_seqZ in Hk.
  cbn [fst snd cellRow cellCol]. repeat split; lia.
Qed.

(** X12.  The board [analyzeGrid] hands to the solver always satisfies the
    solver's precondition: the classifier returns 64 cells, the pattern is
    an 8x8 binary board, and its cell at the row and column of a
    classified cell is 1 exactly when that cell's label is 1. *)
Theorem analyzeGrid_board :
  exists out pat,
    kMeansCluster (cellsData luma mean) = Ok out /\
    length out = 64%nat /\
    analyzeGrid luma mean = Ok pat /\
    board8 pat /\
    forall o, o ∈ out ->
      inGrid (cellRow (sample o)) (cellCol (sample o)) = true /\
      cellZ pat (cellRow (sample o)) (cellCol (sample o))
      = if is1 (groupId o) then 1 else 0.
Proof.
  assert (Hne : cellsData luma mean <> []) by discriminate.
  destruct (kMeansCluster_run _ Hne) as [cA [cB Hrun]].
  set (out := (fun c => Classified c (Some (nextLabel cA cB (color c))))
              <$> cellsData luma mean) in *.
  assert (Hpos : Forall (fun o => 0 <= cellRow (sample o) < 8 /\
                                  0 <= cellCol (sample o) < 8) out).
  { unfold out. rewrite Forall_fmap, Forall_forall. intros c Hc. cbn.
    apply cellsData_elem in Hc. tauto. }
  exists out, (tab (fun i j => if marked out i j then 1 else 0)).
  split; [exact Hrun|]. split; [reflexivity|]. split; [|split].
  - unfold analyzeGrid. rewrite Hrun. cbn [bind].
    change emptyBoard with (tab (fun _ _ => 0)). by apply markCells_tab.
  - apply tab_board8. intros i j _ _. destruct (marked out i j); [by right | by left].
  - intros o Ho. rewrite Forall_forall in Hpos. destruct (Hpos o Ho) as [Hr Hc].
    split.
    { unfold inGrid. rewrite !andb_true_iff, !Z.leb_le, !Z.ltb_lt. lia. }
    rewrite cellZ_tab by done.
    destruct (marked out _ _) eqn:Hm.
    + apply existsb_exists in Hm as [o' [Ho' Hm]].
      rewrite !andb_true_iff, !Z.eqb_eq, !Z2Nat.id in Hm by lia.
      destruct Hm as [[Hl Hr'] Hc'].
      apply list_elem_of_In in Ho'. unfold out in Ho, Ho'.
      apply list_elem_of_fmap in Ho as [c [-> Hcin]].
      apply list_elem_of_fmap in Ho' as [c' [-> Hcin']].
      cbn [sample groupId] in *.
      apply cellsData_elem in Hcin as [_ [_ Hceq]].
      apply cellsData_elem in Hcin' as [_ [_ Hceq']].
      assert (c = c') by (rewrite Hceq, Hceq', Hr', Hc'; reflexivity).
      subst c'. by rewrite Hl.
    + destruct (is1 (groupId o)) eqn:Hl; [|done].
      assert (Hm' : marked out (Z.to_nat (cellRow (sample o)))
                           (Z.to_nat (cellCol (sample o))) = true).
      { apply existsb_exists. exists o. split; [by apply list_elem_of_In|].
        by rewrite Hl, !Z2Nat.id, !Z.eqb_refl by lia. }
      congruence.
Qed.
End GridFacts.

(** * Further properties of the vision geometry *)

(** ** [findBoardContour] *)

Lemma Qgtb_true (x y : Q) : Qgtb x y = true <-> (y < x)%Q.
Proof.
  unfold Qgtb. rewrite negb_true_iff. split.
  - intros Hf. apply Qnot_le_lt. intros Hle. apply Qle_bool_iff in Hle. congruence.
  - intros Hlt. apply not_true_is_false. intros Hle%Qle_bool_iff. lra.
Qed.

Lemma Qgtb_false (x y : Q) : Qgtb x y = false <-> (x <= y)%Q.
Proof. unfold Qgtb. by rewrite negb_false_iff, Qle_bool_iff. Qed.

Lemma boardStep_inv l st c :
  boardInv l st -> boardInv (l ++ [c]) (boardStep st c).
Proof.
  intros Hinv. unfold boardStep.
  destruct (Qgtb (inject_Z 1000) (oArea c)) eqn:Hsmall.
  { apply Qgtb_true in Hsmall.
    assert (Hc : ~ boardLike c) by (intros [Ha _]; lra).
    unfold boardInv in *. destruct (snd st) as [b|].
    - destruct Hinv as [Hb [Hlike [Hm Hmax]]].
      split; [apply elem_of_app; by left|]. split; [done|]. split; [done|].
      intros c' [Hc' | ->%list_elem_of_singleton]%elem_of_app; [by apply Hmax | done].
    - destruct Hinv as [Hm Hnone]. split; [done|].
      intros c' [Hc' | ->%list_elem_of_singleton]%elem_of_app; [by apply Hnone | done]. }
  apply Qgtb_false in Hsmall.
  destruct ((oVertices c =? 4) && Qgtb (oArea c) (fst st)) eqn:Hbest.
  - apply andb_true_iff in Hbest as [Hv%Z.eqb_eq Hbig%Qgtb_true].
    unfold boardInv in *. cbn [fst snd].
    split; [apply elem_of_app; right; by apply list_elem_of_singleton|].
    split; [by split|]. split; [done|].
    intros c' [Hc' | ->%list_elem_of_singleton]%elem_of_app Hlike; [|lra].
    destruct (snd st) as [b|].
    + destruct Hinv as [_ [_ [Hm Hmax]]]. specialize (Hmax c' Hc' Hlike).
      rewrite Hm in Hbig. lra.
    + destruct Hinv as [_ Hnone]. by destruct (Hnone c' Hc').
  - apply andb_false_iff in Hbest.
    unfold boardInv in *. destruct (snd st) as [b|].
    + destruct Hinv as [Hb [Hlike [Hm Hmax]]].
      split; [apply elem_of_app; by left|]. split; [done|]. split; [done|].
      intros c' [Hc' | ->%list_elem_of_singleton]%elem_of_app Hlike';
        [by apply Hmax|].
      destruct Hbest as [Hv%Z.eqb_neq | Hle%Qgtb_false];
        [by destruct Hlike' | by rewrite <- Hm].
    + destruct Hinv as [Hm Hnone]. split; [done|].
      intros c' [Hc' | ->%list_elem_of_singleton]%elem_of_app; [by apply Hnone|].
      intros [Ha Hv]. destruct Hbest as [Hv'%Z.eqb_neq | Hle%Qgtb_false]; [done|].
      rewrite Hm in Hle. unfold inject_Z in *. lra.
Qed.

Lemma findBoardContour_inv l :
  boardInv l (foldl boardStep (inject_Z 0, None) l).
Proof.
  induction l as [|c l IH] using rev_ind.
  - cbn. split; [done|]. by intros c ?%elem_of_nil.
  - rewrite foldl_snoc. by apply boardStep_inv.
Qed.

(** X13.  [findBoardContour] returns [null] exactly when no contour has
    four vertices and an area of at least 1000; otherwise it returns one of
    the contours, with four vertices and area at least 1000, and no
    contour of that kind has a larger area. *)
Theorem findBoardContour_largest_quad (contours : list outline) :
  match findBoardContour contours with
  | None => forall c, c ∈ contours -> ~ boardLike c
  | Some b =>
      b ∈ contours /\ boardLike b /\
      forall c, c ∈ contours -> boardLike c -> (oArea c <= oArea b)%Q
  end.
Proof.
  pose proof (findBoardContour_inv contours) as Hinv.
  unfold findBoardContour, boardInv in *.
  destruct (snd (foldl boardStep (inject_Z 0, None) contours)) as [b|]; tauto.
Qed.

(** ** [warpPerspective] *)

Lemma insertBy_perm key x l : insertBy key x l ≡ₚ x :: l.
Proof.
  induction l as [|y l IH]; [done|]. cbn [insertBy].
  destruct (key y <? key x); [|done]. rewrite IH. apply perm_swap.
Qed.

Lemma sortBy_perm key l : sortBy key l ≡ₚ l.
Proof.
  induction l as [|x l IH]; [done|].
  cbn [sortBy foldr]. fold (sortBy key l). by rewrite insertBy_perm, IH.
Qed.

Lemma insertBy_sorted key x l :
  StronglySorted (fun a b => key a <= key b) l ->
  StronglySorted (fun a b => key a <= key b) (insertBy key x l).
Proof.
  induction 1 as [|y l Hs IH Hy]; cbn [insertBy]; [repeat constructor|].
  destruct (Z.ltb_spec (key y) (key x)).
  - constructor; [exact IH|]. rewrite insertBy_perm. constructor; [lia | done].
  - constructor; [by constructor|]. constructor; [done|].
    eapply Forall_impl; [exact Hy|]. cbn. intros z Hz. lia.
Qed.

Lemma sortBy_sorted key l :
  StronglySorted (fun a b => key a <= key b) (sortBy key l).
Proof.
  induction l as [|x l IH]; [constructor|].
  cbn [sortBy foldr]. by apply insertBy_sorted.
Qed.

Lemma sortBy_pair key a b :
  exists lo hi, sortBy key [a; b] = [lo; hi] /\ key lo <= key hi /\
                [lo; hi] ≡ₚ [a; b].
Proof.
  cbn. destruct (Z.ltb_spec (key b) (key a)).
  - exists b, a. split; [done|]. split; [lia | apply perm_swap].
  - exists a, b. done.
Qed.

(** X14.  [warpPerspective] orders the four vertices of the board as
    top-left, top-right, bottom-right, bottom-left: the four entries are
    the four input points, each once; of each pair the left one has the
    smaller or equal x; and neither top point lies below a bottom point. *)
Theorem corners_ordered (p0 p1 p2 p3 : pt) :
  exists tl tr br bl,
    orderedPts p0 p1 p2 p3 = [Some tl; Some tr; Some br; Some bl] /\
    [tl; tr; br; bl] ≡ₚ [p0; p1; p2; p3] /\
    ptx tl <= ptx tr /\ ptx bl <= ptx br /\
    pty tl <= pty bl /\ pty tl <= pty br /\
    pty tr <= pty bl /\ pty tr <= pty br.
Proof.
  pose proof (sortBy_perm pty [p0; p1; p2; p3]) as Hperm.
  pose proof (sortBy_sorted pty [p0; p1; p2; p3]) as Hsorted.
  unfold orderedPts.
  destruct (sortBy pty [p0; p1; p2; p3]) as [|a [|b [|c [|d [|e l]]]]];
    try (apply Permutation_length in Hperm; discriminate).
  inversion Hsorted as [|? ? Hs1 Ha]; subst.
  inversion Hs1 as [|? ? _ Hb]; subst.
  inversion Ha as [|? ? Hab Ha']; subst. inversion Ha' as [|? ? Hac Ha'']; subst.
  inversion Ha'' as [|? ? Had _]; subst.
  inversion Hb as [|? ? Hbc Hb']; subst. inversion Hb' as [|? ? Hbd _]; subst.
  cbn [take drop].
  destruct (sortBy_pair ptx a b) as [tl [tr [-> [Htop Hptop]]]].
  destruct (sortBy_pair ptx c d) as [bl [br [-> [Hbot Hpbot]]]].
  exists tl, tr, br, bl. split; [reflexivity|].
  assert (Hin : forall (P : pt -> Prop) x y u v,
            [x; y] ≡ₚ [u; v] -> P u -> P v -> P x /\ P y).
  { intros P x y u v Hp Hu Hv.
    assert (HF : Forall P [x; y]) by (rewrite Hp; by repeat constructor).
    inversion HF as [|? ? Hx HF']; subst. inversion HF' as [|? ? Hy _]; subst. done. }
  cbn beta in Hab, Hac, Had, Hbc, Hbd.
  destruct (Hin (fun p => pty a <= pty p /\ pty b <= pty p) bl br c d Hpbot)
    as [[H1 H2] [H3 H4]]; [lia | lia |].
  destruct (Hin (fun p => pty p <= pty bl /\ pty p <= pty br) tl tr a b Hptop)
    as [[H5 H6] [H7 H8]]; [lia | lia |].
  split; [|lia].
  rewrite <- Hperm.
  change [tl; tr; br; bl] with ([tl; tr] ++ [br; bl]).
  change [a; b; c; d] with ([a; b] ++ [c; d]).
  rewrite Hptop. apply Permutation_app_head. rewrite <- Hpbot. apply perm_swap.
Qed.

(** ** [processFigureSlot], for every slot *)

Lemma gridDim_range fig u : 1 <= gridDim fig u <= 5.
Proof. unfold gridDim. lia. Qed.

(** X15.  Whatever the contours, the grid [processFigureSlot] reports has
    between 1 and 5 rows and between 1 and 5 columns, and a slot with no
    contour of area above 40 has one row and one column. *)
Theorem slot_dims_in_range (contours : list blob) (slotX yStart w h : Z) :
  1 <= rows (processFigureSlot contours slotX yStart w h) <= 5 /\
  1 <= cols (processFigureSlot contours slotX yStart w h) <= 5 /\
  (existsb (fun c => Qgtb (barea c) (inject_Z 40)) contours = false ->
   rows (processFigureSlot contours slotX yStart w h) = 1 /\
   cols (processFigureSlot contours slotX yStart w h) = 1).
Proof.
  unfold processFigureSlot, unionBox. rewrite unionBox_found. cbn [foundAny orb].
  destruct (existsb _ contours); cbn [rows cols].
  - pose proof (gridDim_range (maxX (foldl unionStep (Box w h 0 0 false) contours)
                               - minX (foldl unionStep (Box w h 0 0 false) contours))
                              (baseUnitOf contours)).
    pose proof (gridDim_range (maxY (foldl unionStep (Box w h 0 0 false) contours)
                               - minY (foldl unionStep (Box w h 0 0 false) contours))
                              (baseUnitOf contours)).
    split; [lia|]. split; [lia | discriminate].
  - repeat split; lia.
Qed.

Lemma Qfloor_half (n : Z) :
  Qfloor ((inject_Z n - inject_Z 50) / inject_Z 2) = (n - 50) / 2.
Proof.
  unfold Qfloor. cbn. f_equal; lia.
Qed.

(** X16.  The placeholder: when no contour of the slot has an area above
    40, [processFigureSlot] reports a 1 x 1 grid of cell size 50 whose
    origin centres a 50-pixel cell in the slot, at
    [slotX + floor((w - 50) / 2)] and [yStart + floor((h - 50) / 2)]. *)
Theorem slot_placeholder (contours : list blob) (slotX yStart w h : Z) :
  Forall (fun c => (barea c <= inject_Z 40)%Q) contours ->
  processFigureSlot contours slotX yStart w h
  = Slot 1 1 (inject_Z 50) (slotX + (w - 50) / 2) (yStart + (h - 50) / 2).
Proof.
  intros Hsmall.
  assert (Hnone : existsb (fun c => Qgtb (barea c) (inject_Z 40)) contours = false).
  { apply not_true_is_false. intros [c [Hc Ha]]%existsb_exists.
    rewrite Forall_forall in Hsmall. apply list_elem_of_In in Hc.
    apply Qgtb_true in Ha. specialize (Hsmall c Hc). cbn beta in Hsmall. lra. }
  unfold processFigureSlot, unionBox. rewrite unionBox_found, Hnone. cbn [foundAny orb].
  by rewrite !Qfloor_half.
Qed.

Lemma slot_placeholder_witness :
  processFigureSlot [Blob 3 4 5 6 (inject_Z 30); Blob 90 10 4 4 (inject_Z 16)]
                    200 600 131 90
  = Slot 1 1 (inject_Z 50) 240 620.
Proof.
  apply (slot_placeholder
           [Blob 3 4 5 6 (inject_Z 30); Blob 90 10 4 4 (inject_Z 16)] 200 600 131 90).
  repeat constructor; cbn; unfold Qle; cbn; lia.
Defined.

(** One step of the bounding-box loop only widens the box. *)
Lemma unionStep_mono bb c :
  minX (unionStep bb c) <= minX bb /\ minY (unionStep bb c) <= minY bb /\
  maxX bb <= maxX (unionStep bb c) /\ maxY bb <= maxY (unionStep bb c).
Proof.
  unfold unionStep. destruct (Qgtb (barea c) (inject_Z 40)); cbn; lia.
Qed.

Lemma unionBox_mono contours : forall bb,
  minX (foldl unionStep bb contours) <= minX bb /\
  minY (foldl unionStep bb contours) <= minY bb /\
  maxX bb <= maxX (foldl unionStep bb contours) /\
  maxY bb <= maxY (foldl unionStep bb contours).
Proof.
  induction contours as [|c l IH]; intros bb; cbn [foldl]; [lia|].
  pose proof (IH (unionStep bb c)). pose proof (unionStep_mono bb c). lia.
Qed.

(** The corners of the box are corners of the initial box or of a contour
    of area above 40. *)
Lemma unionBox_tight contours : forall bb,
  let out := foldl unionStep bb contours in
  let big := fun c => c ∈ contours /\ Qgtb (barea c) (inject_Z 40) = true in
  (minX out = minX bb \/ exists c, big c /\ minX out = bx c) /\
  (minY out = minY bb \/ exists c, big c /\ minY out = by_ c) /\
  (maxX out = maxX bb \/ exists c, big c /\ maxX out = bx c + bwidth c) /\
  (maxY out = maxY bb \/ exists c, big c /\ maxY out = by_ c + bheight c).
Proof.
  induction contours as [|c l IH]; intros bb; cbn zeta; cbn [foldl].
  { repeat split; by left. }
  specialize (IH (unionStep bb c)). cbn zeta in IH.
  destruct IH as [H1 [H2 [H3 H4]]].
  assert (Hlift : forall (v : Z) (f : blob -> Z),
            (exists c', (c' ∈ l /\ Qgtb (barea c') (inject_Z 40) = true) /\ v = f c') ->
            exists c', (c' ∈ c :: l /\ Qgtb (barea c') (inject_Z 40) = true) /\ v = f c').
  { intros v f [c' [[Hc' Ha] Hv]]. exists c'. split; [|done]. split; [by right | done]. }
  unfold unionStep in *.
  destruct (Qgtb (barea c) (inject_Z 40)) eqn:Hbig; cbn [minX minY maxX maxY] in *.
  - assert (Hc : c ∈ c :: l /\ Qgtb (barea c) (inject_Z 40) = true)
      by (split; [by left | done]).
    repeat split.
    + destruct H1 as [H1 | H1]; [|right; by apply (Hlift _ bx)].
      rewrite H1. destruct (Z.min_spec (minX bb) (bx c)) as [[_ ->] | [_ ->]];
        [by left | right; by exists c].
    + destruct H2 as [H2 | H2]; [|right; by apply (Hlift _ by_)].
      rewrite H2. destruct (Z.min_spec (minY bb) (by_ c)) as [[_ ->] | [_ ->]];
        [by left | right; by exists c].
    + destruct H3 as [H3 | H3]; [|right; by apply (Hlift _ (fun c => bx c + bwidth c))].
      rewrite H3.
      destruct (Z.max_spec (maxX bb) (bx c + bwidth c)) as [[_ ->] | [_ ->]];
        [right; by exists c | by left].
    + destruct H4 as [H4 | H4]; [|right; by apply (Hlift _ (fun c => by_ c + bheight c))].
      rewrite H4.
      destruct (Z.max_spec (maxY bb) (by_ c + bheight c)) as [[_ ->] | [_ ->]];
        [right; by exists c | by left].
  - repeat split.
    + destruct H1 as [H1 | H1]; [by left | right; by apply (Hlift _ bx)].
    + destruct H2 as [H2 | H2]; [by left | right; by apply (Hlift _ by_)].
    + destruct H3 as [H3 | H3];
        [by left | right; by apply (Hlift _ (fun c => bx c + bwidth c))].
    + destruct H4 as [H4 | H4];
        [by left | right; by apply (Hlift _ (fun c => by_ c + bheight c))].
Qed.

Lemma unionBox_encloses contours c : forall bb,
  c ∈ contours -> Qgtb (barea c) (inject_Z 40) = true ->
  minX (foldl unionStep bb contours) <= bx c /\
  minY (foldl unionStep bb contours) <= by_ c /\
  bx c + bwidth c <= maxX (foldl unionStep bb contours) /\
  by_ c + bheight c <= maxY (foldl unionStep bb contours).
Proof.
  induction contours as [|c' l IH]; intros bb Hc Hbig; [by apply elem_of_nil in Hc|].
  cbn [foldl]. apply elem_of_cons in Hc as [-> | Hc]; [|by apply IH].
  pose proof (unionBox_mono l (unionStep bb c')) as Hm.
  unfold unionStep in *. rewrite Hbig in *. cbn [minX minY maxX maxY] in Hm. lia.
Qed.

(** X17.  The collective bounding box.  It contains the bounding rectangle
    of every contour of area above 40; it starts from the corners
    [(w, h)] and [(0, 0)], so its left and top edges are at most [w] and
    [h] and its right and bottom edges at least 0; and each edge is the
    starting value or the matching edge of a contour of area above 40.
    Contours at or below 40 do not move it.  The origin reported for a
    slot with such a contour is the box's corner, shifted by the slot's
    position. *)
Theorem bounding_box_encloses (contours : list blob) (slotX yStart w h : Z) :
  let bb := unionBox contours w h in
  let big := fun c => c ∈ contours /\ Qgtb (barea c) (inject_Z 40) = true in
  (forall c, big c ->
     minX bb <= bx c /\ minY bb <= by_ c /\
     bx c + bwidth c <= maxX bb /\ by_ c + bheight c <= maxY bb) /\
  minX bb <= w /\ minY bb <= h /\ 0 <= maxX bb /\ 0 <= maxY bb /\
  (minX bb = w \/ exists c, big c /\ minX bb = bx c) /\
  (minY bb = h \/ exists c, big c /\ minY bb = by_ c) /\
  (maxX bb = 0 \/ exists c, big c /\ maxX bb = bx c + bwidth c) /\
  (maxY bb = 0 \/ exists c, big c /\ maxY bb = by_ c + bheight c) /\
  ((exists c, big c) ->
     originX (processFigureSlot contours slotX yStart w h) = slotX + minX bb /\
     originY (processFigureSlot contours slotX yStart w h) = yStart + minY bb).
Proof.
  cbn zeta. unfold unionBox.
  pose proof (unionBox_mono contours (Box w h 0 0 false)) as Hm.
  pose proof (unionBox_tight contours (Box w h 0 0 false)) as Ht.
  cbn zeta in Ht. cbn [minX minY maxX maxY] in Hm, Ht.
  split; [intros c [Hc Hbig]; by apply unionBox_encloses|].
  repeat (split; [tauto || lia|]).
  intros [c [Hc Hbig]].
  unfold processFigureSlot, unionBox. rewrite unionBox_found.
  assert (Hex : existsb (fun c => Qgtb (barea c) (inject_Z 40)) contours = true).
  { apply existsb_exists. exists c. split; [by apply list_elem_of_In | done]. }
  by rewrite Hex.
Qed.

Lemma insertZ_sorted x l :
  StronglySorted Z.le l -> StronglySorted Z.le (insertZ x l).
Proof.
  induction 1 as [|y l Hs IH Hy]; cbn [insertZ]; [repeat constructor|].
  destruct (Z.ltb_spec y x).
  - constructor; [exact IH|]. rewrite insertZ_perm. constructor; [lia | done].
  - constructor; [by constructor|]. constructor; [done|].
    eapply Forall_impl; [exact Hy|]. cbn. intros z Hz. lia.
Qed.

Lemma sortZ_sorted l : StronglySorted Z.le (sortZ l).
Proof.
  induction l as [|x l IH]; [constructor|].
  cbn [sortZ foldr]. by apply insertZ_sorted.
Qed.

(** The first element a filter keeps of a sorted list is the least one
    that passes. *)
Lemma filter_sorted_head (f : Z -> bool) l s rest :
  StronglySorted Z.le l -> List.filter f l = s :: rest ->
  s ∈ l /\ f s = true /\ forall d, d ∈ l -> f d = true -> s <= d.
Proof.
  induction 1 as [|y l Hs IH Hy]; cbn [List.filter]; [discriminate|].
  destruct (f y) eqn:Hfy.
  - intros Heq. apply cons_eq_inv in Heq as [-> _].
    split; [by left|]. split; [done|].
    intros d [-> | Hd]%elem_of_cons _; [lia|].
    rewrite Forall_forall in Hy. by apply Hy.
  - intros Heq. destruct (IH Heq) as [Hin [Hfs Hmin]].
    split; [by right|]. split; [done|].
    intros d [-> | Hd]%elem_of_cons Hfd; [congruence | by apply Hmin].
Qed.

Lemma dimsOf_elem_iff contours d :
  d ∈ dimsOf contours <->
  exists c, c ∈ contours /\ Qgtb (barea c) (inject_Z 20) = true /\
            (d = bwidth c \/ d = bheight c).
Proof.
  split; [apply dimsOf_elem|].
  intros [c [Hc [Ha Hd]]]. unfold dimsOf.
  apply list_elem_of_In, in_concat. exists [bwidth c; bheight c].
  split.
  - apply list_elem_of_In, list_elem_of_fmap. exists c. by rewrite Ha.
  - destruct Hd as [-> | ->]; cbn; tauto.
Qed.

(** [smallest / round(smallest / 50)] for a smallest side above 80. *)
Lemma solid_unit_range (s : Z) :
  80 < s ->
  (75 # 2 <= inject_Z s / inject_Z (Z.max 1 (jsRound (inject_Z s / inject_Z 50)))
   < 125 # 2)%Q.
Proof.
  intros Hs. rewrite jsRound_div50.
  pose proof (Z.div_mod (s + 25) 50 ltac:(lia)) as Hdiv.
  pose proof (Z.mod_pos_bound (s + 25) 50 ltac:(lia)) as Hmod.
  set (k := (s + 25) / 50) in *.
  assert (Hk : 2 <= k) by lia.
  rewrite Z.max_r by lia.
  assert (Hkq : (0 < inject_Z k)%Q).
  { change 0%Q with (inject_Z 0). rewrite <- Zlt_Qlt. lia. }
  assert (Hlo : (inject_Z 50 * inject_Z k <= inject_Z s + inject_Z 25)%Q).
  { rewrite <- inject_Z_mult, <- inject_Z_plus, <- Zle_Qle. lia. }
  assert (Hhi : (inject_Z s < inject_Z 50 * inject_Z k + inject_Z 25)%Q).
  { rewrite <- inject_Z_mult, <- inject_Z_plus, <- Zlt_Qlt. lia. }
  assert (Hk2 : (inject_Z 2 <= inject_Z k)%Q) by (rewrite <- Zle_Qle; lia).
  split.
  - apply Qle_shift_div_l; [done|].
    change (inject_Z 50) with (50 # 1)%Q in *. change (inject_Z 25) with (25 # 1)%Q in *.
    change (inject_Z 2) with (2 # 1)%Q in *. lra.
  - apply Qlt_shift_div_r; [done|].
    change (inject_Z 50) with (50 # 1)%Q in *. change (inject_Z 25) with (25 # 1)%Q in *.
    change (inject_Z 2) with (2 # 1)%Q in *. lra.
Qed.

(** X18.  The base unit of a slot.  [dims] holds the widths and heights
    of the contours of area above 20, and the candidates are its entries
    above 12, smallest first.
    With no candidate the unit is 50.  Otherwise the smallest candidate
    decides: up to 80 it is the unit itself; above 80 the piece is taken
    as solid and the unit is the side divided by the number of 50-pixel
    cells it rounds to, which lies between 37.5 and 62.5.  In every case
    the unit is above 12 and at most 80. *)
Theorem base_unit_from_smallest_side (contours : list blob) :
  (forall d, d ∈ dimsOf contours <->
     exists c, c ∈ contours /\ Qgtb (barea c) (inject_Z 20) = true /\
               (d = bwidth c \/ d = bheight c)) /\
  match candidatesOf contours with
  | [] =>
      (forall d, d ∈ dimsOf contours -> d <= 12) /\
      baseUnitOf contours = inject_Z 50
  | s :: _ =>
      s ∈ dimsOf contours /\ 12 < s /\
      (forall d, d ∈ dimsOf contours -> 12 < d -> s <= d) /\
      (s <= 80 -> baseUnitOf contours = inject_Z s) /\
      (80 < s -> (75 # 2 <= baseUnitOf contours < 125 # 2)%Q)
  end /\
  (inject_Z 12 < baseUnitOf contours <= inject_Z 80)%Q.
Proof.
  split; [apply dimsOf_elem_iff|].
  unfold baseUnitOf.
  destruct (candidatesOf contours) as [|s rest] eqn:Hcand.
  - split; [|split; unfold Qlt, Qle; cbn; lia].
    split; [|done]. intros d Hd.
    destruct (Z.ltb_spec 12 d) as [Hbig | ?]; [|done].
    assert (Hin : d ∈ candidatesOf contours).
    { unfold candidatesOf. apply list_elem_of_In, filter_In.
      split; [apply list_elem_of_In; by rewrite sortZ_perm | by apply Z.ltb_lt]. }
    rewrite Hcand in Hin. by apply elem_of_nil in Hin.
  - unfold candidatesOf in Hcand.
    destruct (filter_sorted_head _ _ _ _ (sortZ_sorted (dimsOf contours)) Hcand)
      as [Hin [Hs%Z.ltb_lt Hmin]].
    rewrite sortZ_perm in Hin.
    assert (Hcase : (80 <? s) = true -> 80 < s) by apply Z.ltb_lt.
    assert (Hcase' : (80 <? s) = false -> s <= 80) by apply Z.ltb_ge.
    split.
    + split; [done|]. split; [done|]. split.
      { intros d Hd Hbig. apply Hmin; [by rewrite sortZ_perm | by apply Z.ltb_lt]. }
      destruct (80 <? s).
      * split; [intros; specialize (Hcase eq_refl); lia|].
        intros _. by apply solid_unit_range, Hcase.
      * split; [done|]. intros; specialize (Hcase' eq_refl); lia.
    + destruct (80 <? s).
      * pose proof (solid_unit_range s (Hcase eq_refl)) as [Hlo Hhi].
        change (inject_Z 12) with (12 # 1)%Q. change (inject_Z 80) with (80 # 1)%Q.
        split; lra.
      * specialize (Hcase' eq_refl). rewrite <- Zlt_Qlt, <- Zle_Qle. lia.
Qed.

(** ** [detectFigures] *)

Lemma processFigureSlot_range contours slotX yStart w h :
  (1 <= rows (processFigureSlot contours slotX yStart w h) <= 5) /\
  (1 <= cols (processFigureSlot contours slotX yStart w h) <= 5).
Proof.
  unfold processFigureSlot.
  destruct (foundAny _); cbn [rows cols]; [split; apply gridDim_range | lia].
Qed.

(** [Math.floor(src.rows * 0.15)]. *)
Lemma Qfloor_15 (n : Z) : Qfloor (inject_Z n * (15 # 100)) = (15 * n) / 100.
Proof. unfold Qfloor. cbn. f_equal; lia. Qed.

Lemma figureBand_cases (srcRows boardY boardH : Z) :
  let yStart := boardY + boardH + 10 in
  let yEnd := srcRows - (15 * srcRows) / 100 in
  (yStart < yEnd /\ figureBand srcRows boardY boardH = Some (yStart, yEnd)) \/
  (yEnd <= yStart /\ 40 < srcRows - yStart /\
   figureBand srcRows boardY boardH = Some (yStart, srcRows - 5)) \/
  (yEnd <= yStart /\ srcRows - yStart <= 40 /\
   figureBand srcRows boardY boardH = None).
Proof.
  cbn zeta. unfold figureBand. rewrite Qfloor_15.
  destruct (Z.geb_spec (boardY + boardH + 10) (srcRows - (15 * srcRows) / 100)).
  - right. destruct (Z.gtb_spec (srcRows - (boardY + boardH + 10)) 40).
    + left. repeat split; lia.
    + right. repeat split; lia.
  - left. split; [lia | done].
Qed.

(** X19.  The band [detectFigures] searches for pieces, in an image
    [srcRows] pixels high.  It starts 10 pixels below the board.  It ends
    15 % of the height above the bottom edge when that leaves a band of
    at least one pixel; failing that, 5 pixels above the bottom edge when
    more than 40 pixels remain below the start; and otherwise there is no
    band.  A band is never empty and never leaves the image. *)
Theorem figures_band (srcRows boardY boardH : Z) :
  0 <= srcRows ->
  let yStart := boardY + boardH + 10 in
  let margin := (15 * srcRows) / 100 in
  match figureBand srcRows boardY boardH with
  | Some (ys, ye) =>
      ys = yStart /\ ys < ye <= srcRows /\
      (ye = srcRows - margin \/
       (srcRows - margin <= yStart /\ ye = srcRows - 5 /\ 35 < ye - ys))
  | None => srcRows - margin <= yStart /\ srcRows - yStart <= 40
  end.
Proof.
  intros Hrows. cbn zeta.
  assert (Hmargin : 0 <= (15 * srcRows) / 100) by (apply Z.div_pos; lia).
  destruct (figureBand_cases srcRows boardY boardH)
    as [[Hlt ->] | [[Hge [Hroom ->]] | [Hge [Hroom ->]]]].
  - split; [done|]. split; [lia | by left].
  - split; [done|]. split; [lia|]. right. lia.
  - lia.
Qed.

Lemma figures_band_witness :
  figureBand 1000 100 400 = Some (510, 850) /\
  figureBand 1000 500 400 = Some (910, 995) /\
  figureBand 1000 560 400 = None.
Proof.
  pose proof (figures_band 1000 100 400 ltac:(lia)) as H1.
  pose proof (figures_band 1000 500 400 ltac:(lia)) as H2.
  pose proof (figures_band 1000 560 400 ltac:(lia)) as H3.
  cbn zeta in H1, H2, H3.
  destruct (figureBand 1000 100 400) as [[ys1 ye1]|] eqn:E1; [|vm_compute in E1; discriminate].
  destruct (figureBand 1000 500 400) as [[ys2 ye2]|] eqn:E2; [|vm_compute in E2; discriminate].
  destruct (figureBand 1000 560 400) as [[ys3 ye3]|] eqn:E3; [vm_compute in E3; discriminate|].
  change ((15 * 1000) / 100) with 150 in *.
  destruct H1 as [-> [_ [-> | [? _]]]]; [|lia].
  destruct H2 as [-> [? [-> | [_ [-> _]]]]]; [lia|].
  done.
Defined.

(** X20.  The three slots tile the band from left to right: with
    [width = 3 s + r] and [0 <= r < 3], the slots start at [0], [s] and
    [2 s]; the first two are [s] wide and the last takes the [r] pixels
    left over, so it ends at [width]. *)
Theorem figure_slots_tile (width : Z) :
  exists s r, 0 <= r < 3 /\ width = 3 * s + r /\
    figureSlots width = [(0, s); (s, s); (2 * s, s + r)].
Proof.
  exists (width / 3), (width mod 3).
  pose proof (Z.div_mod width 3 ltac:(lia)) as Hdiv.
  pose proof (Z.mod_pos_bound width 3 ltac:(lia)) as Hmod.
  split; [done|]. split; [done|].
  unfold figureSlots. change (seqZ 0 3) with [0; 1; 2].
  cbn [fmap list_fmap Z.eqb Pos.eqb]. repeat f_equal; lia.
Qed.

(** X21.  [detectFigures] gives no result exactly when there is no band,
    and otherwise exactly three, one per slot from left to right: each is
    what [processFigureSlot] makes of the contours of its slot, with the
    slot's start and width and the height of the band, and each is a grid
    of 1 to 5 rows and 1 to 5 columns. *)
Theorem detectFigures_none_or_three
    (srcRows srcCols boardY boardH : Z) (slotContours : Z -> Z -> list blob) :
  let yStart := boardY + boardH + 10 in
  let yEnd := srcRows - (15 * srcRows) / 100 in
  let out := detectFigures srcRows srcCols boardY boardH slotContours in
  (yEnd <= yStart /\ srcRows - yStart <= 40 /\ out = []) \/
  ((yStart < yEnd \/ 40 < srcRows - yStart) /\
   exists ye s0 s1 s2,
     figureBand srcRows boardY boardH = Some (yStart, ye) /\
     out = [s0; s1; s2] /\
     s0 = processFigureSlot (slotContours 0 (srcCols / 3)) 0 yStart
                            (srcCols / 3) (ye - yStart) /\
     s1 = processFigureSlot (slotContours (srcCols / 3) (srcCols / 3))
                            (srcCols / 3) yStart (srcCols / 3) (ye - yStart) /\
     s2 = processFigureSlot
            (slotContours (2 * (srcCols / 3)) (srcCols - 2 * (srcCols / 3)))
            (2 * (srcCols / 3)) yStart (srcCols - 2 * (srcCols / 3))
            (ye - yStart) /\
     Forall (fun s => 1 <= rows s <= 5 /\ 1 <= cols s <= 5) out).
Proof.
  cbn zeta. unfold detectFigures.
  assert (Hthree : forall ye,
    let out := (fun sw => processFigureSlot (slotContours sw.1 sw.2) sw.1
                            (boardY + boardH + 10) sw.2
                            (ye - (boardY + boardH + 10)))
               <$> figureSlots srcCols in
    exists s0 s1 s2,
      out = [s0; s1; s2] /\
      s0 = processFigureSlot (slotContours 0 (srcCols / 3)) 0
             (boardY + boardH + 10) (srcCols / 3) (ye - (boardY + boardH + 10)) /\
      s1 = processFigureSlot (slotContours (srcCols / 3) (srcCols / 3))
             (srcCols / 3) (boardY + boardH + 10) (srcCols / 3)
             (ye - (boardY + boardH + 10)) /\
      s2 = processFigureSlot
             (slotContours (2 * (srcCols / 3)) (srcCols - 2 * (srcCols / 3)))
             (2 * (srcCols / 3)) (boardY + boardH + 10)
             (srcCols - 2 * (srcCols / 3)) (ye - (boardY + boardH + 10)) /\
      Forall (fun s => 1 <= rows s <= 5 /\ 1 <= cols s <= 5) out).
  { intros ye. cbn zeta. eexists _, _, _.
    unfold figureSlots. change (seqZ 0 3) with [0; 1; 2].
    cbn [fmap list_fmap Z.eqb Pos.eqb fst snd].
    split; [reflexivity|].
    replace (1 * (srcCols / 3)) with (srcCols / 3) by lia.
    replace (0 * (srcCols / 3)) with 0 by lia.
    do 3 (split; [reflexivity|]).
    repeat constructor; apply processFigureSlot_range. }
  destruct (figureBand_cases srcRows boardY boardH)
    as [[Hlt ->] | [[Hge [Hroom ->]] | [Hge [Hroom ->]]]].
  - right. split; [by left|].
    destruct (Hthree (srcRows - (15 * srcRows) / 100)) as [s0 [s1 [s2 Hs]]].
    by exists (srcRows - (15 * srcRows) / 100), s0, s1, s2.
  - right. split; [by right|].
    destruct (Hthree (srcRows - 5)) as [s0 [s1 [s2 Hs]]].
    by exists (srcRows - 5), s0, s1, s2.
  - left. done.
Qed.

(** ** The offsets [suggestMoves] builds from the patterns *)

Lemma sorted_app {A} (R : A -> A -> Prop) (l1 l2 : list A) :
  StronglySorted R l1 -> StronglySorted R l2 ->
  (forall x y, x ∈ l1 -> y ∈ l2 -> R x y) ->
  StronglySorted R (l1 ++ l2).
Proof.
  induction 1 as [|x l1 Hs IH Hx]; intros Hs2 Hcross; [done|].
  cbn [app]. constructor.
  - apply IH; [done|]. intros a b Ha Hb. apply Hcross; [by right | done].
  - apply Forall_app. split; [done|].
    rewrite Forall_forall. intros y Hy. apply Hcross; [by left | done].
Qed.

Lemma offLt_NoDup l : StronglySorted offLt l -> NoDup l.
Proof.
  induction 1 as [|x l Hs IH Hx]; constructor; [|done].
  intros Hin. rewrite Forall_forall in Hx. specialize (Hx x Hin).
  unfold offLt in Hx. lia.
Qed.

Lemma rowOffsets_sorted r row : StronglySorted offLt (rowOffsets r row).
Proof.
  induction row as [|v row IH] using rev_ind; [constructor|].
  assert (Happ : rowOffsets r (row ++ [v])
                 = rowOffsets r row
                   ++ (if v =? 1 then [Off (Z.of_nat r) (Z.of_nat (length row))] else [])).
  { unfold rowOffsets. rewrite imap_app, omap_app. f_equal.
    cbn. rewrite Nat.add_0_r. by destruct (v =? 1). }
  rewrite Happ. apply sorted_app; [done | destruct (v =? 1); repeat constructor |].
  intros x y [c [Hc ->]]%rowOffsets_elem Hy.
  destruct (v =? 1); [|by apply elem_of_nil in Hy].
  apply list_elem_of_singleton in Hy as ->.
  apply lookup_lt_Some in Hc. right. cbn. lia.
Qed.

Lemma pieceOffsets_sorted p : StronglySorted offLt (pieceOffsets p).
Proof.
  induction p as [|row p IH] using rev_ind; [constructor|].
  assert (Happ : pieceOffsets (p ++ [row])
                 = pieceOffsets p ++ rowOffsets (length p) row).
  { unfold pieceOffsets. rewrite imap_app, concat_app. f_equal.
    cbn. by rewrite Nat.add_0_r, app_nil_r. }
  rewrite Happ. apply sorted_app; [done | apply rowOffsets_sorted |].
  intros x y [r [c [[row' [Hr _]] ->]]]%pieceOffsets_elem [c' [_ ->]]%rowOffsets_elem.
  apply lookup_lt_Some in Hr. left. cbn. lia.
Qed.

(** X22.  The offsets of a piece list the occupied cells of its pattern in
    row-major order, each cell once; there are none exactly when the
    pattern has no occupied cell. *)
Theorem pieceOffsets_row_major (p : pattern) :
  StronglySorted offLt (pieceOffsets p) /\
  NoDup (pieceOffsets p) /\
  (pieceOffsets p = [] <-> forall r c, ~ occupiedAt p r c).
Proof.
  split; [apply pieceOffsets_sorted|].
  split; [apply offLt_NoDup, pieceOffsets_sorted|].
  split.
  - intros Hnil r c Hocc.
    assert (Hin : Off (Z.of_nat r) (Z.of_nat c) ∈ pieceOffsets p)
      by (apply pieceOffsets_elem; eauto).
    rewrite Hnil in Hin. by apply elem_of_nil in Hin.
  - intros Hnone. destruct (pieceOffsets p) as [|off l] eqn:Heq; [done|].
    assert (Hin : off ∈ pieceOffsets p) by (rewrite Heq; by left).
    apply pieceOffsets_elem in Hin as [r [c [Hocc _]]]. by destruct (Hnone r c).
Qed.

Lemma validPiecesOf_length pieces :
  (length (validPiecesOf pieces) <= length pieces)%nat.
Proof.
  unfold validPiecesOf.
  etransitivity; [apply List.filter_length_le|]. by rewrite length_fmap.
Qed.

(** X23.  Pieces are numbered after the empty ones are dropped.  A
    pattern without offsets leaves the list of valid pieces as if it had
    not been detected; a pattern with offsets gets the index that counts
    only the valid pieces before it, which is at most its position among
    the detected pieces. *)
Theorem dropped_pieces_renumber (front back : list pattern) (p : pattern) :
  (pieceOffsets p = [] ->
   validPiecesOf (front ++ p :: back) = validPiecesOf (front ++ back)) /\
  (pieceOffsets p <> [] ->
   validPiecesOf (front ++ p :: back) !! length (validPiecesOf front)
   = Some (pieceOffsets p)) /\
  (length (validPiecesOf front) <= length front)%nat /\
  (length (validPiecesOf (front ++ p :: back)) <= length (front ++ p :: back))%nat.
Proof.
  assert (Hone : validPiecesOf (p :: back)
                 = (if (0 <? length (pieceOffsets p))%nat then [pieceOffsets p] else [])
                   ++ validPiecesOf back).
  { unfold validPiecesOf. cbn [fmap list_fmap List.filter].
    by destruct (0 <? length (pieceOffsets p))%nat. }
  split; [|split; [|split; apply validPiecesOf_length]].
  - intros Hnil. rewrite !validPiecesOf_app, Hone, Hnil. done.
  - intros Hsome. rewrite validPiecesOf_app, Hone.
    destruct (pieceOffsets p) as [|off l] eqn:Heq; [done|].
    cbn [length Nat.ltb Nat.leb app].
    by rewrite lookup_app_r, Nat.sub_diag.
Qed.

Lemma dropped_pieces_renumber_witness :
  validPiecesOf [[[0; 0]]; [[1; 1]]; [[1]]] = validPiecesOf [[[1; 1]]; [[1]]] /\
  validPiecesOf [[[0; 0]]; [[1; 1]]; [[1]]] !! 0%nat = Some [Off 0 0; Off 0 1].
Proof.
  split.
  - apply (dropped_pieces_renumber [] [[[1; 1]]; [[1]]] [[0; 0]]). reflexivity.
  - apply (dropped_pieces_renumber [[[0; 0]]] [[[1]]] [[1; 1]]). discriminate.
Defined.
